(** * gostream: the pull protocol, its stages and its terminal operations

    The Go package builds a pipeline out of goroutines joined by a pair of
    channels per link: [nextReq] carries request tokens upstream and
    [nextData] carries [orderedData] downstream.  A goroutine answers one
    request with one item or by closing its data channel.

    A link served by ONE goroutine is modelled by a [producer]: the local
    variables of the goroutine are its state and [pnext] is one turn of its
    [for range nextReq] loop.  The fan-out stage made by [Parallel] and the
    terminal operations that run several goroutines are modelled further
    down by a step relation over explicit schedules. *)

From Stdlib Require Import String ZArith List Bool Lia Permutation Sorted.
From Stdlib Require Import DecimalString.
Import ListNotations.
Open Scope Z_scope.

Set Implicit Arguments.

(** ** Machine integers *)

(** [uint64] arithmetic: the order counters are [uint64] in the source. *)
Definition wrap64 (z : Z) : Z := z mod 2 ^ 64.

(** The largest value of Go's [int] on a 64-bit platform; the length of a
    slice never exceeds it. *)
Definition maxInt : Z := 2 ^ 63 - 1.

(** ** Data model *)

(** [type orderedData[T any] struct { order uint64; data T }] *)
Record orderedData (T : Type) : Type := mkOD { order : Z; data : T }.

(** What a consumer sees after sending one request token: an item, the
    closed data channel, the crash of the program by a panic raised in
    the goroutine that was to answer, or nothing at all: the goroutine
    that was to answer waits for ever itself, and so does the consumer. *)
Inductive response (T : Type) : Type :=
| Item (od : orderedData T)
| EndOfData
| Panicked (msg : string)
| NoAnswer.
Arguments EndOfData {T}.
Arguments Panicked {T} msg.
Arguments NoAnswer {T}.

(** Result of a method that may panic in the calling goroutine. *)
Inductive outcome (A : Type) : Type :=
| Ok (a : A)
| Panic (msg : string).
Arguments Panic {A} msg.

(** A link as the next stage receives it: the goroutine that serves the
    pair [nextReq]/[nextData], and the channel [prevDone] that travels
    with the pair ([newGenericStream] copies all three).  [pdone] tells
    whether [prevDone] is closed; a stream made without [prevDone] has a
    nil channel there, which is never closed. *)
Record producer (T : Type) : Type := mkProducer {
  pstate : Type;
  pcur : pstate;
  pnext : pstate -> response T * pstate;
  pdone : pstate -> bool
}.

(** Send one request and receive the answer ([getPrevData]). *)
Definition pull {T} (p : producer T) : response T * producer T :=
  let '(r, s) := pnext p (pcur p) in
  (r, {| pstate := pstate p; pcur := s; pnext := pnext p;
         pdone := pdone p |}).

(** ** Sources (stream_func.go) *)

Section Sources.
Variable T : Type.

(** [Of]: the goroutine keeps the index [i]; once it has closed
    [nextData] a discarding goroutine swallows further requests.  It
    closes [prevDone] together with [nextData]. *)
Record of_state : Type := mkOf { of_i : nat; of_done : bool }.

Definition Of_next (data : list T) (s : of_state)
  : response T * of_state :=
  if of_done s then (EndOfData, s)
  else if Nat.eqb (of_i s) (length data)
       then (EndOfData, {| of_i := of_i s; of_done := true |})
       else match nth_error data (of_i s) with
            | Some x =>
                (Item {| order := wrap64 (Z.of_nat (of_i s)); data := x |},
                 {| of_i := S (of_i s); of_done := false |})
            | None => (EndOfData, s)
            end.

Definition Of_producer (data : list T) : producer T :=
  {| pstate := of_state;
     pcur := {| of_i := 0; of_done := false |};
     pnext := Of_next data;
     pdone := of_done |}.

(** [Empty]: [nextData] is closed from the start; the literal has no
    [prevDone], and neither have those of [Iterate] and [Generate]. *)
Definition Empty_producer : producer T :=
  {| pstate := unit; pcur := tt; pnext := fun s => (EndOfData, s);
     pdone := fun _ => false |}.

(** [Iterate]: locals [useSeed], [nextValue], [order]. *)
Record iterate_state : Type :=
  mkIter { it_useSeed : bool; it_nextValue : T; it_order : Z }.

Definition Iterate_next (seed : T) (f : T -> T) (s : iterate_state)
  : response T * iterate_state :=
  if it_useSeed s
  then (Item {| order := it_order s; data := seed |},
        {| it_useSeed := false; it_nextValue := it_nextValue s;
           it_order := wrap64 (it_order s + 1) |})
  else let v := f (it_nextValue s) in
       (Item {| order := it_order s; data := v |},
        {| it_useSeed := false; it_nextValue := v;
           it_order := wrap64 (it_order s + 1) |}).

Definition Iterate_producer (seed : T) (f : T -> T) : producer T :=
  {| pstate := iterate_state;
     pcur := {| it_useSeed := true; it_nextValue := seed; it_order := 0 |};
     pnext := Iterate_next seed f;
     pdone := fun _ => false |}.

(** [Generate]: the supplier is an impure nullary function; [s k] is the
    value of its [k]-th call.  Locals: the number of calls made so far
    and [order]. *)
Record generate_state : Type := mkGen { gen_calls : nat; gen_order : Z }.

Definition Generate_next (s : nat -> T) (st : generate_state)
  : response T * generate_state :=
  (Item {| order := gen_order st; data := s (gen_calls st) |},
   {| gen_calls := S (gen_calls st);
      gen_order := wrap64 (gen_order st + 1) |}).

Definition Generate_producer (s : nat -> T) : producer T :=
  {| pstate := generate_state;
     pcur := {| gen_calls := 0; gen_order := 0 |};
     pnext := Generate_next s;
     pdone := fun _ => false |}.
End Sources.

(** The answers to [n] successive requests sent to a goroutine in state
    [s], and its state afterwards. *)
Fixpoint serve {T S} (next : S -> response T * S) (n : nat) (s : S)
  : list (response T) * S :=
  match n with
  | O => ([], s)
  | S k =>
      let '(r, s1) := next s in
      let '(rs, s2) := serve next k s1 in
      (r :: rs, s2)
  end.

(** The first [n] answers of a producer. *)
Definition emitted {T} (n : nat) (p : producer T) : list (response T) :=
  fst (serve (pnext p) n (pcur p)).

(** The answer to request number [i], counting from 0. *)
Definition answer {T} (p : producer T) (i : nat) : response T :=
  nth i (emitted (S i) p) EndOfData.

(** ** Encounter order *)

(** The items [Of] makes of a slice whose first element has index [i]. *)
Fixpoint items_from {T} (i : nat) (l : list T) : list (orderedData T) :=
  match l with
  | [] => []
  | x :: l' =>
      {| order := wrap64 (Z.of_nat i); data := x |} :: items_from (S i) l'
  end.

(** A producer that answers with the items [ods], in this order, and
    then keeps its data channel closed. *)
Definition yields {T} (p : producer T) (ods : list (orderedData T)) : Prop :=
  forall n, emitted n p = firstn n (map (@Item T) ods ++ repeat EndOfData n).

(** The integers [a], [a+1], ... ([n] of them), as the tests build them. *)
Definition upto (a n : nat) : list Z := map Z.of_nat (seq a n).

(** Sequence numbers that go up strictly along the list. *)
Definition strictly_ordered {T} (l : list (orderedData T)) : Prop :=
  StronglySorted (fun a b => order a < order b) l.

(** [yields], from a state of the goroutine. *)
Definition yields_from {T St} (next : St -> response T * St) (u : St)
    (ods : list (orderedData T)) : Prop :=
  forall n, fst (serve next n u) =
            firstn n (map (@Item T) ods ++ repeat EndOfData n).

(** ** Positional stages (methods [limit] and [skip]) *)

(** Decimal rendering of an [int], as [fmt.Sprintf("%v", n)] prints it. *)
Definition show_int (n : Z) : string := NilZero.string_of_int (Z.to_int n).

(** The [limit] goroutine: it panics or closes before its loop when
    [maxSize] is negative or zero, otherwise it runs with [count]. *)
Inductive limit_state : Type :=
| LimitPanicked (msg : string)
| LimitClosed
| LimitRunning (count : Z)
| LimitStalled.

Definition limit_init (maxSize : Z) : limit_state :=
  if maxSize <? 0
  then LimitPanicked ("maxSize must not be negative: " ++ show_int maxSize)
  else if maxSize =? 0 then LimitClosed
  else LimitRunning maxSize.

Section Positional.
Variable T : Type.
Variable up : producer T.

(** State of a stage goroutine: its locals, the number of requests it
    has sent upstream so far ([getPrevData] calls), and the upstream. *)
Record stage_state (L : Type) : Type :=
  mkStage { locals : L; sent : nat; upstream : pstate up }.

Definition getPrevData {L} (s : stage_state L)
  : response T * nat * pstate up :=
  let '(r, u) := pnext up (upstream s) in (r, S (sent s), u).

Definition limit_next (s : stage_state limit_state)
  : response T * stage_state limit_state :=
  match locals s with
  | LimitPanicked msg => (Panicked msg, s)
  | LimitClosed => (EndOfData, s)
  | LimitStalled => (NoAnswer, s)
  | LimitRunning count =>
      let '(r, n, u) := getPrevData s in
      match r with
      | Item od =>
          let count' := count - 1 in
          (Item od,
           {| locals := if count' =? 0 then LimitClosed
                        else LimitRunning count';
              sent := n; upstream := u |})
      | EndOfData =>
          (EndOfData, {| locals := LimitClosed; sent := n; upstream := u |})
      | Panicked msg =>
          (Panicked msg,
           {| locals := LimitPanicked msg; sent := n; upstream := u |})
      | NoAnswer =>
          (NoAnswer, {| locals := LimitStalled; sent := n; upstream := u |})
      end
  end.

Definition limit_producer (maxSize : Z) : producer T :=
  {| pstate := stage_state limit_state;
     pcur := {| locals := limit_init maxSize; sent := 0;
                upstream := pcur up |};
     pnext := limit_next;
     pdone := fun s => pdone up (upstream s) |}.

(** The [skip] goroutine: local [n], and whether it has closed, or
    waits for ever for an answer of its upstream. *)
Inductive skip_state : Type :=
| SkipPanicked (msg : string)
| SkipClosed
| SkipRunning (n : Z)
| SkipStalled.

(** The inner loop [for n > 0 { getPrevData; n-- }], [k] turns of it.
    It returns the locals after the loop: still running, or closed. *)
Fixpoint skip_discard (k : nat) (n : Z) (cnt : nat) (u : pstate up)
  : skip_state * nat * pstate up :=
  match k with
  | O => (SkipRunning n, cnt, u)
  | S k' =>
      let '(r, u') := pnext up u in
      match r with
      | Item _ => skip_discard k' (n - 1) (S cnt) u'
      | EndOfData => (SkipClosed, S cnt, u')
      | Panicked msg => (SkipPanicked msg, S cnt, u')
      | NoAnswer => (SkipStalled, S cnt, u')
      end
  end.

Definition skip_next (s : stage_state skip_state)
  : response T * stage_state skip_state :=
  match locals s with
  | SkipPanicked msg => (Panicked msg, s)
  | SkipClosed => (EndOfData, s)
  | SkipStalled => (NoAnswer, s)
  | SkipRunning n =>
      match skip_discard (Z.to_nat n) n (sent s) (upstream s) with
      | (SkipRunning n', cnt, u) =>
          let '(r, u') := pnext up u in
          match r with
          | Item od =>
              (Item od,
               {| locals := SkipRunning n'; sent := S cnt; upstream := u' |})
          | EndOfData =>
              (EndOfData,
               {| locals := SkipClosed; sent := S cnt; upstream := u' |})
          | Panicked msg =>
              (Panicked msg,
               {| locals := SkipPanicked msg; sent := S cnt;
                  upstream := u' |})
          | NoAnswer =>
              (NoAnswer,
               {| locals := SkipStalled; sent := S cnt; upstream := u' |})
          end
      | (SkipClosed, cnt, u) =>
          (EndOfData, {| locals := SkipClosed; sent := cnt; upstream := u |})
      | (SkipPanicked msg, cnt, u) =>
          (Panicked msg,
           {| locals := SkipPanicked msg; sent := cnt; upstream := u |})
      | (SkipStalled, cnt, u) =>
          (NoAnswer, {| locals := SkipStalled; sent := cnt; upstream := u |})
      end
  end.

Definition skip_producer (n : Z) : producer T :=
  {| pstate := stage_state skip_state;
     pcur := {| locals := SkipRunning n; sent := 0; upstream := pcur up |};
     pnext := skip_next;
     pdone := fun s => pdone up (upstream s) |}.
End Positional.

(** Requests a limit or skip stage has sent upstream so far. *)
Definition requests_sent {T} {up : producer T} {L}
  (s : stage_state up L) : nat := sent s.

(** ** The goroutines of [Parallel] under a single puller *)

(** Where a stage goroutine stands: in its request loop, returned after
    [close] (a discarding goroutine then swallows the requests), taken
    down by a panic of the goroutine it was receiving from, or waiting
    for ever for an answer that does not come. *)
Inductive stage_phase : Type :=
| StRunning
| StClosed
| StPanicked (msg : string)
| StStalled.

Section Drains.
Variable T : Type.
Variable m : Z.
Variable up : producer T.

(** [m] goroutines run [drain] over the link [up] and one goroutine
    pulls from them, a request at a time.  One of the [m] takes the
    request and relays the answer of [up].  When [up] has closed
    [nextData], that goroutine calls [close] and returns; [close]
    closes the [nextData] of the fan-out only in the last of the [m] to
    call it.  The others leave [getNextReq] once [prevDone] is closed;
    while it is open (or nil) they wait for a request, which the
    puller, waiting for its answer, never sends.  With no goroutine at
    all ([m] below 1) nothing takes the request. *)
Definition drain_next (s : stage_state up stage_phase)
  : response T * stage_state up stage_phase :=
  match locals s with
  | StRunning =>
      if m <? 1
      then (NoAnswer,
            {| locals := StStalled; sent := sent s;
               upstream := upstream s |})
      else
        let '(r, n, u) := getPrevData s in
        match r with
        | Item od =>
            (Item od, {| locals := StRunning; sent := n; upstream := u |})
        | EndOfData =>
            if (m =? 1) || pdone up u
            then (EndOfData,
                  {| locals := StClosed; sent := n; upstream := u |})
            else (NoAnswer,
                  {| locals := StStalled; sent := n; upstream := u |})
        | Panicked msg =>
            (Panicked msg,
             {| locals := StPanicked msg; sent := n; upstream := u |})
        | NoAnswer =>
            (NoAnswer, {| locals := StStalled; sent := n; upstream := u |})
        end
  | StClosed => (EndOfData, s)
  | StPanicked msg => (Panicked msg, s)
  | StStalled => (NoAnswer, s)
  end.

Definition drain_producer : producer T :=
  {| pstate := stage_state up stage_phase;
     pcur := {| locals := StRunning; sent := 0; upstream := pcur up |};
     pnext := drain_next;
     pdone := fun s => pdone up (upstream s) |}.
End Drains.

(** ** Stream descriptors (type [genericStream]) *)

(** What serves the pair [nextReq]/[nextData] of a stream: one goroutine,
    or the [m] goroutines running [drain] that [Parallel] starts over the
    upstream link. *)
Inductive link (T : Type) : Type :=
| Direct (p : producer T)
| Fanout (m : Z) (p : producer T).

(** The upstream seen by a stage that pulls alone: the link itself, or
    the goroutines of a fan-out with one request in flight at a time. *)
Definition single_puller {T} (l : link T) : producer T :=
  match l with
  | Direct p => p
  | Fanout m p => drain_producer m p
  end.

(** The fields of [genericStream] that the model needs, with the values
    they have when the method that made the stream returns; [chans]
    stands for the channel fields and [L] for what serves them.  The
    goroutines of the stage update [closed] and [parallelCount] later,
    through [close]. *)
Record genericStream (L : Type) : Type := mkGS {
  closed : bool;
  parallel : bool;
  parallelCount : Z;
  ordered : bool;
  terminalCloseCount : Z;
  chans : L
}.

(** [Stream[T]] as the methods of the package receive and return it. *)
Definition Stream (T : Type) : Type := genericStream (link T).

Section Methods.
Variable goMaxProcs : Z.
Variable T : Type.

(** A stream literal that sets [parallelCount: 1] and the channels only,
    as [Of], [Empty], [Iterate] and [Generate] return. *)
Definition source_stream (p : producer T) : Stream T :=
  {| closed := false; parallel := false; parallelCount := 1;
     ordered := false; terminalCloseCount := 0; chans := Direct p |}.

Definition Of (data : list T) : Stream T :=
  source_stream (Of_producer data).
Definition Empty : Stream T := source_stream (Empty_producer T).
Definition Iterate (seed : T) (f : T -> T) : Stream T :=
  source_stream (Iterate_producer seed f).
Definition Generate (s : nat -> T) : Stream T :=
  source_stream (Generate_producer s).

(** [newGenericStream]: the fields it copies; the others take their
    zero value.  The new channels are given by the caller. *)
Definition newGenericStream (gs : Stream T) (c : link T)
  : Stream T :=
  {| closed := false; parallel := parallel gs;
     parallelCount := parallelCount gs; ordered := false;
     terminalCloseCount := terminalCloseCount gs; chans := c |}.

Definition validateState {A} (gs : Stream T) (k : outcome A)
  : outcome A :=
  if closed gs then Panic "stream has already been closed" else k.

Definition Parallel (gs : Stream T) : outcome (Stream T) :=
  validateState gs
    (if parallel gs then Ok gs
     else
       let newGS :=
         newGenericStream gs (Fanout goMaxProcs (single_puller (chans gs))) in
       Ok {| closed := closed newGS; parallel := true;
             parallelCount := goMaxProcs; ordered := ordered newGS;
             terminalCloseCount := goMaxProcs; chans := chans newGS |}).

(** [close], on the fields: the last goroutine of the stage to call it
    marks the stream closed. *)
Definition close (gs : Stream T) : Stream T :=
  if closed gs then gs
  else
    let n := parallelCount gs - 1 in
    {| closed := if n >? 0 then false else true;
       parallel := parallel gs; parallelCount := n; ordered := ordered gs;
       terminalCloseCount := terminalCloseCount gs; chans := chans gs |}.

(** [Limit] returns [newGS] and starts the goroutine [limit] on it; the
    goroutine runs concurrently with the caller, and [limit_started]
    below gives [newGS] after its first statements. *)
Definition Limit (gs : Stream T) (maxSize : Z)
  : outcome (Stream T) :=
  validateState gs
    (if ordered gs && (parallelCount gs >? 1)
     then Panic "Limit doesn't support ordered parallel stream"
     else
       let newGS :=
         newGenericStream gs
           (Direct (limit_producer (single_puller (chans gs)) maxSize)) in
       Ok {| closed := closed newGS; parallel := parallel newGS;
             parallelCount := 1; ordered := ordered newGS;
             terminalCloseCount := terminalCloseCount newGS;
             chans := chans newGS |}).

(** The stream that [Limit] returned, once the goroutine [limit] has
    come to its request loop or left before it: a negative size makes
    it panic, a zero size makes it call [close] and return. *)
Definition limit_started (maxSize : Z) (newGS : Stream T)
  : outcome (Stream T) :=
  if maxSize <? 0
  then Panic ("maxSize must not be negative: " ++ show_int maxSize)
  else if maxSize =? 0 then Ok (close newGS)
  else Ok newGS.

Definition Skip (gs : Stream T) (n : Z)
  : outcome (Stream T) :=
  validateState gs
    (if ordered gs && (parallelCount gs >? 1)
     then Panic "Skip doesn't support ordered parallel stream"
     else
       let newGS :=
         newGenericStream gs
           (Direct (skip_producer (single_puller (chans gs)) n)) in
       Ok {| closed := closed newGS; parallel := parallel newGS;
             parallelCount := 1; ordered := ordered newGS;
             terminalCloseCount := terminalCloseCount newGS;
             chans := chans newGS |}).

(** [Close]: the outcome of the call and the receiver afterwards. *)
Definition Close (gs : Stream T) : outcome unit * Stream T :=
  (validateState gs (Panic "Not Implemented Yet"), gs).
End Methods.

(** ** Sorting ([sort.Slice], [slices.SortFunc]) *)

(** The standard library's sorts are outside the repository; they are
    taken by their contract: the result is a permutation of the argument
    in which no element is less than an earlier one.  Neither is stable. *)
Definition sorts {A} (less : A -> A -> bool) (sorter : list A -> list A)
  : Prop :=
  forall l, Permutation l (sorter l) /\
            StronglySorted (fun a b => less b a = false) (sorter l).

(** A stable sort meeting the contract: insertion after the last element
    that is not greater. *)
Fixpoint insert_after {A} (less : A -> A -> bool) (x : A) (l : list A)
  : list A :=
  match l with
  | [] => [x]
  | y :: l' => if less x y then x :: y :: l'
               else y :: insert_after less x l'
  end.

Definition stable_sort {A} (less : A -> A -> bool) (l : list A) : list A :=
  fold_left (fun acc x => insert_after less x acc) l [].

(** The [less] closure of [ToSlice]: [ods[i].order < ods[j].order]. *)
Definition order_less {T} (a b : orderedData T) : bool :=
  order a <? order b.

(** The [less] derived from a [cmp func(a, b T) int]. *)
Definition cmp_less {T} (cmp : T -> T -> Z) (a b : T) : bool := cmp a b <? 0.

(** ** Terminal operations on a link served by one goroutine *)

(** How a terminal operation ends: it returns; the program crashes by
    a panic; the calling goroutine waits for ever for an answer; or the
    bound on the number of requests is reached. *)
Inductive run (A : Type) : Type :=
| Finished (a : A)
| Crashed (msg : string)
| OutOfFuel
| Blocked.
Arguments Crashed {A} msg.
Arguments OutOfFuel {A}.
Arguments Blocked {A}.

Section Terminal.
Variables T A : Type.

(** [terminalOpOrderedData]: request, then for every item received run
    [op] and request again, until the data channel is closed. *)
Fixpoint terminalOpOrderedData (fuel : nat)
    (op : A -> orderedData T -> A) (a : A) (p : producer T)
  : run (A * producer T) :=
  match fuel with
  | O => OutOfFuel
  | S f =>
      match pull p with
      | (Item od, p') => terminalOpOrderedData f op (op a od) p'
      | (EndOfData, p') => Finished (a, p')
      | (Panicked msg, _) => Crashed msg
      | (NoAnswer, _) => Blocked
      end
  end.

(** [terminalOp]: the same with an [op] that sees the data only. *)
Definition terminalOp (fuel : nat) (op : A -> T -> A) (a : A)
    (p : producer T) : run (A * producer T) :=
  terminalOpOrderedData fuel (fun a od => op a (data od)) a p.

(** [terminalOpMatch]: stops requesting as soon as [match] is false. *)
Fixpoint terminalOpMatch (fuel : nat) (matchf : A -> T -> A * bool)
    (a : A) (p : producer T) : run (A * producer T) :=
  match fuel with
  | O => OutOfFuel
  | S f =>
      match pull p with
      | (Item od, p') =>
          let '(a', continue) := matchf a (data od) in
          if continue then terminalOpMatch f matchf a' p'
          else Finished (a', p')
      | (EndOfData, p') => Finished (a, p')
      | (Panicked msg, _) => Crashed msg
      | (NoAnswer, _) => Blocked
      end
  end.
End Terminal.

Definition run_map {A B} (f : A -> B) (r : run A) : run B :=
  match r with
  | Finished a => Finished (f a)
  | Crashed msg => Crashed msg
  | OutOfFuel => OutOfFuel
  | Blocked => Blocked
  end.

(** [ToSlice] with [parallelCount = 1]: one goroutine appends every item,
    the caller sorts by [order] and copies the data out. *)
Definition ToSlice_direct {T}
    (sorter : list (orderedData T) -> list (orderedData T))
    (fuel : nat) (p : producer T) : run (list T) :=
  run_map (fun r => map (@data T) (sorter (fst r)))
    (terminalOpOrderedData fuel (fun ods od => ods ++ [od]) [] p).

(** The closures of the match family.  Their state is the atomic
    [matched] and the log of the arguments [predicate] was called on. *)
Record match_state (T : Type) : Type :=
  mkMatch { matched : Z; calls : list T }.

Definition anyMatch_closure {T} (predicate : T -> bool)
    (s : match_state T) (t : T) : match_state T * bool :=
  if matched s =? 1 then (s, false)
  else if negb (predicate t)
       then ({| matched := matched s; calls := calls s ++ [t] |}, true)
       else ({| matched := 1; calls := calls s ++ [t] |}, false).

Definition allMatch_closure {T} (predicate : T -> bool)
    (s : match_state T) (t : T) : match_state T * bool :=
  if matched s =? 0 then (s, false)
  else if predicate t
       then ({| matched := matched s; calls := calls s ++ [t] |}, true)
       else ({| matched := 0; calls := calls s ++ [t] |}, false).

(** [NoneMatch] runs the closure of [AnyMatch] and negates the flag. *)
Definition noneMatch_closure {T} := @anyMatch_closure T.

Definition AnyMatch_direct {T} (fuel : nat) (predicate : T -> bool)
    (p : producer T) : run (bool * list T) :=
  run_map (fun r => (matched (fst r) =? 1, calls (fst r)))
    (terminalOpMatch fuel (anyMatch_closure predicate)
       {| matched := 0; calls := [] |} p).

Definition AllMatch_direct {T} (fuel : nat) (predicate : T -> bool)
    (p : producer T) : run (bool * list T) :=
  run_map (fun r => (matched (fst r) =? 1, calls (fst r)))
    (terminalOpMatch fuel (allMatch_closure predicate)
       {| matched := 1; calls := [] |} p).

Definition NoneMatch_direct {T} (fuel : nat) (predicate : T -> bool)
    (p : producer T) : run (bool * list T) :=
  run_map (fun r => (negb (matched (fst r) =? 1), calls (fst r)))
    (terminalOpMatch fuel (noneMatch_closure predicate)
       {| matched := 0; calls := [] |} p).

(** [Optional]: [OptionalOf v] is [Some v], [OptionalEmpty] is [None]. *)
Definition findFirst_closure {T} (s : option T) (t : T) : option T * bool :=
  (Some t, false).

Definition FindFirst_direct {T} (fuel : nat) (p : producer T)
  : run (option T) :=
  run_map (fun r => fst r) (terminalOpMatch fuel findFirst_closure None p).

(** Method [Sorted] on a stream that is not parallel: drain, sort, [Of]. *)
Definition Sorted_direct {T} (sorter : list T -> list T) (fuel : nat)
    (p : producer T) : run (Stream T) :=
  run_map (fun r => Of (sorter (fst r)))
    (terminalOp fuel (fun dataSlice t => dataSlice ++ [t]) [] p).

(** ** FlatMap (stream_func.go) *)

Section FlatMapStage.
Variables T R : Type.

(** Locals of the [FlatMap] goroutine: the upstream, the nested stream
    being drained ([rgs], [None] for nil), [offset], [lastOrder], and
    whether it has closed [nextData]. *)
Record flatmap_state : Type := mkFM {
  fm_up : producer T;
  fm_rgs : option (producer R);
  fm_offset : Z;
  fm_lastOrder : Z;
  fm_closed : bool
}.

(** One request served: [fuel] bounds the turns of the inner [for]
    loop, which spins as long as nested streams come out empty.  [None]
    means the bound was reached with no answer sent yet.  When the
    upstream or the nested stream never answers, the goroutine waits
    for ever where it is. *)
Fixpoint flatMap_next (mapper : T -> Stream R) (fuel : nat)
    (s : flatmap_state) : option (response R * flatmap_state) :=
  match fuel with
  | O => None
  | S f =>
      if fm_closed s then Some (EndOfData, s)
      else
        let opened :=
          match fm_rgs s with
          | Some rgs => inl (rgs, fm_up s)
          | None =>
              match pull (fm_up s) with
              | (Item od, up') =>
                  inl (single_puller (chans (mapper (data od))), up')
              | (EndOfData, up') => inr (EndOfData, up')
              | (Panicked msg, up') => inr (Panicked msg, up')
              | (NoAnswer, up') => inr (NoAnswer, up')
              end
          end in
        match opened with
        | inr (r, up') =>
            Some (r, {| fm_up := up'; fm_rgs := None;
                        fm_offset := fm_offset s;
                        fm_lastOrder := fm_lastOrder s;
                        fm_closed := match r with
                                     | NoAnswer => false
                                     | _ => true
                                     end |})
        | inl (rgs, up') =>
            match pull rgs with
            | (Item r, rgs') =>
                Some (Item {| order := wrap64 (order r + fm_offset s);
                              data := data r |},
                      {| fm_up := up'; fm_rgs := Some rgs';
                         fm_offset := fm_offset s;
                         fm_lastOrder := order r;
                         fm_closed := false |})
            | (EndOfData, _) =>
                flatMap_next mapper f
                  {| fm_up := up'; fm_rgs := None;
                     fm_offset :=
                       wrap64 (fm_offset s + (fm_lastOrder s + 1));
                     fm_lastOrder := fm_lastOrder s;
                     fm_closed := false |}
            | (Panicked msg, _) =>
                Some (Panicked msg,
                      {| fm_up := up'; fm_rgs := None;
                         fm_offset := fm_offset s;
                         fm_lastOrder := fm_lastOrder s;
                         fm_closed := true |})
            | (NoAnswer, rgs') =>
                Some (NoAnswer,
                      {| fm_up := up'; fm_rgs := Some rgs';
                         fm_offset := fm_offset s;
                         fm_lastOrder := fm_lastOrder s;
                         fm_closed := false |})
            end
        end
  end.

Definition FlatMap (stream : Stream T) (mapper : T -> Stream R)
  : outcome (genericStream flatmap_state) :=
  validateState stream
    (Ok {| closed := false; parallel := false; parallelCount := 1;
           ordered := false; terminalCloseCount := 0;
           chans := {| fm_up := single_puller (chans stream);
                       fm_rgs := None; fm_offset := 0;
                       fm_lastOrder := 0; fm_closed := false |} |}).

(** The answers to [n] successive requests, each with [fuel] turns. *)
Fixpoint flatMap_emitted (mapper : T -> Stream R) (fuel n : nat)
    (s : flatmap_state) : option (list (response R)) :=
  match n with
  | O => Some []
  | S n' =>
      match flatMap_next mapper fuel s with
      | None => None
      | Some (r, s') =>
          match flatMap_emitted mapper fuel n' s' with
          | None => None
          | Some rs => Some (r :: rs)
          end
      end
  end.
End FlatMapStage.

(** ** The pipeline [Of(data...).Parallel()] under a terminal operation

    [Parallel] starts [m] goroutines running [drain] between the source
    goroutine of [Of] and the [k] goroutines of the terminal operation.
    Every goroutine moves between its channel operations; a schedule is
    the list of the goroutines that move, in order.  Channels are taken
    unbounded: a sender that would wait for room is one whose message
    has not been picked up yet. *)

(** What a terminal operation does with an item: [c_op] gets the state
    shared by its goroutines, the locals of the one that received the
    item, and the item; the boolean tells whether to request again. *)
Record consumer (T : Type) : Type := mkConsumer {
  c_local : Type;
  c_shared : Type;
  c_local0 : c_local;
  c_shared0 : c_shared;
  c_op : c_shared -> c_local -> orderedData T -> c_shared * c_local * bool
}.

(** Replace the element at index [i]. *)
Fixpoint upd {A} (i : nat) (x : A) (l : list A) : list A :=
  match l, i with
  | [], _ => []
  | _ :: l', O => x :: l'
  | y :: l', S i' => y :: upd i' x l'
  end.

Module Par.
Section Model.
Variable T : Type.
Variable data : list T.
Variable m k : nat.
Variable C : consumer T.

(** A [drain] goroutine: blocked in [getNextReq]; blocked receiving in
    [getPrevData] with its request sent; about to send on [nextData];
    returned after [close]. *)
Inductive wstate : Type :=
| WIdle
| WAsked
| WHolding (od : orderedData T)
| WExited.

(** A terminal goroutine: before its first request; receiving from
    [nextData]; past [terminalClose]; its result handed to the caller. *)
Inductive tstate : Type :=
| TStart
| TWaiting (a : c_local C)
| TExited (a : c_local C)
| TDelivered.

(** Source side: the goroutine of [Of] and its two channels. *)
Record source_side : Type := mkSo {
  src : of_state;
  srcReq : nat;
  srcReqClosed : bool;
  srcData : list (orderedData T)
}.

(** The stage made by [Parallel]: its goroutines, the fields guarded by
    its lock, and its channels [nextReq] and [nextData]. *)
Record stage_side : Type := mkSg {
  workers : list wstate;
  pcount : Z;
  sclosed : bool;
  midReq : nat;
  midReqClosed : bool;
  midData : list (orderedData T)
}.

(** Terminal side; [seen] logs the items received, oldest first. *)
Record term_side : Type := mkTe {
  terms : list tstate;
  tcount : Z;
  shared : c_shared C;
  results : list (c_local C);
  seen : list (orderedData T)
}.

Record state : Type := mkSt {
  so : source_side;
  sg : stage_side;
  te : term_side
}.

Definition init : state :=
  {| so := {| src := {| of_i := 0; of_done := false |};
              srcReq := 0; srcReqClosed := false; srcData := [] |};
     sg := {| workers := repeat WIdle m; pcount := Z.of_nat m;
              sclosed := false; midReq := 0; midReqClosed := false;
              midData := [] |};
     te := {| terms := repeat TStart k; tcount := Z.of_nat k;
              shared := c_shared0 C; results := []; seen := [] |} |}.

(** Who moves: the source; worker [j] at its pending channel operation;
    worker [j] taking the [prevDone] case of the select in [getNextReq];
    terminal goroutine [j]. *)
Inductive actor : Type :=
| Src
| Worker (j : nat)
| Quit (j : nat)
| Term (j : nat).

Inductive moved : Type :=
| Next (s : state)
| Waits
| GoPanic (msg : string).

(** Method [close] of the stage, called by worker [j] as it returns. *)
Definition close (j : nat) (s : state) : state :=
  let g := sg s in
  let ws := upd j WExited (workers g) in
  if sclosed g
  then {| so := so s; te := te s;
          sg := {| workers := ws; pcount := pcount g; sclosed := true;
                   midReq := midReq g; midReqClosed := midReqClosed g;
                   midData := midData g |} |}
  else
    let c := pcount g - 1 in
    if c >? 0
    then {| so := so s; te := te s;
            sg := {| workers := ws; pcount := c; sclosed := false;
                     midReq := midReq g; midReqClosed := midReqClosed g;
                     midData := midData g |} |}
    else {| so := {| src := src (so s); srcReq := srcReq (so s);
                     srcReqClosed := true; srcData := srcData (so s) |};
            te := te s;
            sg := {| workers := ws; pcount := c; sclosed := true;
                     midReq := midReq g; midReqClosed := midReqClosed g;
                     midData := midData g |} |}.

(** Method [terminalClose], called by terminal goroutine [j], which
    leaves with locals [a]. *)
Definition terminalClose (j : nat) (a : c_local C) (sh : c_shared C)
    (sn : list (orderedData T)) (md : list (orderedData T)) (s : state)
  : state :=
  let t := te s in
  let g := sg s in
  let ts := upd j (TExited a) (terms t) in
  let c := if tcount t =? 0 then 0 else tcount t - 1 in
  let closes := negb (tcount t =? 0) && negb (c >? 0) in
  {| so := so s;
     sg := {| workers := workers g; pcount := pcount g;
              sclosed := sclosed g; midReq := midReq g;
              midReqClosed := midReqClosed g || closes; midData := md |};
     te := {| terms := ts; tcount := c; shared := sh;
              results := results t; seen := sn |} |}.

Definition set_so (o : source_side) (s : state) : state :=
  {| so := o; sg := sg s; te := te s |}.

(** The goroutine of [Of] (or, once it has returned, the goroutine it
    left behind to discard requests). *)
Definition step_src (s : state) : moved :=
  let o := so s in
  if of_done (src o) then
    match srcReq o with
    | S n => Next (set_so {| src := src o; srcReq := n;
                             srcReqClosed := srcReqClosed o;
                             srcData := srcData o |} s)
    | O => Waits
    end
  else
    match srcReq o with
    | S n =>
        let '(r, st') := Of_next data (src o) in
        match r with
        | Item od =>
            Next (set_so {| src := st'; srcReq := n;
                            srcReqClosed := srcReqClosed o;
                            srcData := srcData o ++ [od] |} s)
        | EndOfData =>
            Next (set_so {| src := st'; srcReq := n;
                            srcReqClosed := srcReqClosed o;
                            srcData := srcData o |} s)
        | Panicked msg => GoPanic msg
        | NoAnswer => Waits
        end
    | O =>
        if srcReqClosed o
        then Next (set_so {| src := {| of_i := of_i (src o);
                                       of_done := true |};
                             srcReq := 0; srcReqClosed := true;
                             srcData := srcData o |} s)
        else Waits
    end.

(** Method [drain], one channel operation at a time. *)
Definition step_worker (j : nat) (s : state) : moved :=
  let o := so s in
  let g := sg s in
  match nth_error (workers g) j with
  | None | Some WExited => Waits
  | Some WIdle =>
      match midReq g with
      | S n =>
          if srcReqClosed o then GoPanic "send on closed channel"
          else
            Next {| so := {| src := src o; srcReq := S (srcReq o);
                             srcReqClosed := false;
                             srcData := srcData o |};
                    sg := {| workers := upd j WAsked (workers g);
                             pcount := pcount g; sclosed := sclosed g;
                             midReq := n;
                             midReqClosed := midReqClosed g;
                             midData := midData g |};
                    te := te s |}
      | O => if midReqClosed g then Next (close j s) else Waits
      end
  | Some WAsked =>
      match srcData o with
      | od :: rest =>
          Next {| so := {| src := src o; srcReq := srcReq o;
                           srcReqClosed := srcReqClosed o;
                           srcData := rest |};
                  sg := {| workers := upd j (WHolding od) (workers g);
                           pcount := pcount g; sclosed := sclosed g;
                           midReq := midReq g;
                           midReqClosed := midReqClosed g;
                           midData := midData g |};
                  te := te s |}
      | [] => if of_done (src o) then Next (close j s) else Waits
      end
  | Some (WHolding od) =>
      if sclosed g then GoPanic "send on closed channel"
      else
        Next {| so := o;
                sg := {| workers := upd j WIdle (workers g);
                         pcount := pcount g; sclosed := false;
                         midReq := midReq g;
                         midReqClosed := midReqClosed g;
                         midData := midData g ++ [od] |};
                te := te s |}
  end.

(** [getNextReq] returning false because [prevDone] is closed. *)
Definition step_quit (j : nat) (s : state) : moved :=
  match nth_error (workers (sg s)) j with
  | Some WIdle => if of_done (src (so s)) then Next (close j s) else Waits
  | _ => Waits
  end.

(** A request sent on [nextReq] by terminal goroutine [j], which then
    waits on [nextData] with locals [a]. *)
Definition request (j : nat) (a : c_local C) (sh : c_shared C)
    (sn md : list (orderedData T)) (s : state) : moved :=
  let g := sg s in
  let t := te s in
  if midReqClosed g then GoPanic "send on closed channel"
  else
    Next {| so := so s;
            sg := {| workers := workers g; pcount := pcount g;
                     sclosed := sclosed g; midReq := S (midReq g);
                     midReqClosed := false; midData := md |};
            te := {| terms := upd j (TWaiting a) (terms t);
                     tcount := tcount t; shared := sh;
                     results := results t; seen := sn |} |}.

(** [terminalOp], [terminalOpOrderedData] and [terminalOpMatch], one
    channel operation at a time, then the hand-over of the result. *)
Definition step_term (j : nat) (s : state) : moved :=
  let g := sg s in
  let t := te s in
  match nth_error (terms t) j with
  | None | Some TDelivered => Waits
  | Some TStart => request j (c_local0 C) (shared t) (seen t) (midData g) s
  | Some (TWaiting a) =>
      match midData g with
      | od :: rest =>
          let '(sh', a', continue) := c_op C (shared t) a od in
          if continue then request j a' sh' (seen t ++ [od]) rest s
          else Next (terminalClose j a' sh' (seen t ++ [od]) rest s)
      | [] =>
          if sclosed g
          then Next (terminalClose j a (shared t) (seen t) [] s)
          else Waits
      end
  | Some (TExited a) =>
      Next {| so := so s; sg := g;
              te := {| terms := upd j TDelivered (terms t);
                       tcount := tcount t; shared := shared t;
                       results := results t ++ [a]; seen := seen t |} |}
  end.

Definition step (a : actor) (s : state) : moved :=
  match a with
  | Src => step_src s
  | Worker j => step_worker j s
  | Quit j => step_quit j s
  | Term j => step_term j s
  end.

(** Run a schedule; a goroutine scheduled while it waits is a schedule
    that cannot happen. *)
Fixpoint exec (sched : list actor) (s : state) : moved :=
  match sched with
  | [] => Next s
  | a :: rest =>
      match step a s with
      | Next s' => exec rest s'
      | other => other
      end
  end.

Definition is_delivered (t : tstate) : bool :=
  match t with
  | TDelivered => true
  | _ => false
  end.

(** The terminal operation has every result in hand. *)
Definition complete (s : state) : bool :=
  forallb is_delivered (terms (te s)).

(** [sched] is a full run of the pipeline ending in [s]. *)
Definition runs_to (sched : list actor) (s : state) : Prop :=
  exec sched init = Next s /\ complete s = true.
(** *** What a state holds *)

(** Items in the hands of the [drain] goroutines. *)
Definition held_by (w : wstate) : list (orderedData T) :=
  match w with
  | WHolding od => [od]
  | _ => []
  end.

Definition held (ws : list wstate) : list (orderedData T) :=
  flat_map held_by ws.

(** One mark per goroutine waiting for an answer of the source. *)
Definition asking (w : wstate) : list unit :=
  match w with
  | WAsked => [tt]
  | _ => []
  end.

Definition asked (ws : list wstate) : nat := length (flat_map asking ws).

(** One mark per [drain] goroutine that has not returned. *)
Definition alive (w : wstate) : list unit :=
  match w with
  | WExited => []
  | _ => [tt]
  end.

Definition live (ws : list wstate) : nat := length (flat_map alive ws).

(** Terminal goroutines past [terminalClose]. *)
Definition gone (t : tstate) : bool :=
  match t with
  | TExited _ | TDelivered => true
  | _ => false
  end.

(** One mark per terminal goroutine that has not called [terminalClose]. *)
Definition pending (t : tstate) : list unit :=
  if gone t then [] else [tt].

Definition waiting (ts : list tstate) : nat := length (flat_map pending ts).

(** The items [Of] makes of [data]. *)
Definition items : list (orderedData T) := items_from 0 data.

(** Facts that hold in every reachable state, whatever the terminal
    operation: every item the source has sent is in exactly one place;
    the source never has more answers outstanding than there are
    goroutines waiting for one; the counters under the two locks count
    the goroutines that have not left. *)
Record sound (s : state) : Prop := mkSound {
  snd_index : (of_i (src (so s)) <= length data)%nat;
  snd_items :
    Permutation (firstn (of_i (src (so s))) items)
      (seen (te s) ++ midData (sg s) ++ held (workers (sg s))
       ++ srcData (so s));
  snd_answers : (length (srcData (so s)) <= asked (workers (sg s)))%nat;
  snd_tokens :
    of_done (src (so s)) = false ->
    (srcReq (so s) + length (srcData (so s)) <= asked (workers (sg s)))%nat;
  snd_closed : srcReqClosed (so s) = sclosed (sg s);
  snd_pcount : pcount (sg s) = Z.of_nat (live (workers (sg s)));
  snd_sclosed : sclosed (sg s) = true -> live (workers (sg s)) = 0%nat;
  snd_tcount : tcount (te s) = Z.of_nat (waiting (terms (te s)));
  snd_midReq :
    midReqClosed (sg s) = true -> waiting (terms (te s)) = 0%nat;
  snd_fresh : seen (te s) = [] -> shared (te s) = c_shared0 C
}.

(** For a terminal operation that never stops early: until the source
    has sent everything, nobody has left and nothing is closed; and a
    terminal goroutine only leaves a closed and empty [nextData]. *)
Record draining (s : state) : Prop := mkDraining {
  dr_phase :
    (of_done (src (so s)) = true /\ of_i (src (so s)) = length data) \/
    (of_done (src (so s)) = false /\ live (workers (sg s)) = m /\
     sclosed (sg s) = false /\ midReqClosed (sg s) = false /\
     waiting (terms (te s)) = k);
  dr_left :
    (waiting (terms (te s)) < k)%nat ->
    sclosed (sg s) = true /\ midData (sg s) = []
}.
(** One mark per terminal goroutine that has sent its first request. *)
Definition begun (t : tstate) : list unit :=
  match t with
  | TStart => []
  | _ => [tt]
  end.

Definition started (ts : list tstate) : nat := length (flat_map begun ts).

(** One mark per terminal goroutine that has left. *)
Definition leaving (t : tstate) : list unit :=
  if gone t then [tt] else [].

Definition departed (ts : list tstate) : nat :=
  length (flat_map leaving ts).

(** As long as no terminal goroutine has left: either the source has
    sent the whole slice and closed, or nobody has left and nothing is
    closed. *)
Definition undisturbed (s : state) : Prop :=
  departed (terms (te s)) = 0%nat ->
  (of_done (src (so s)) = true /\ of_i (src (so s)) = length data) \/
  (of_done (src (so s)) = false /\ live (workers (sg s)) = m /\
   sclosed (sg s) = false /\ midReqClosed (sg s) = false).

(** The source has sent no more items than requests were made, when the
    terminal goroutines request once each. *)
Definition frugal (s : state) : Prop :=
  (of_i (src (so s)) + srcReq (so s) + midReq (sg s)
   <= started (terms (te s)))%nat.

(** A state given by what varies along a run: the two counters under
    the locks are the numbers [lv] and [wait] of goroutines that have
    not left, and a side is closed when its number is 0. *)
Definition shape (i : nat) (done : bool) (req : nat)
    (sd : list (orderedData T)) (ws : list wstate) (lv : nat)
    (mreq : nat) (md : list (orderedData T)) (ts : list tstate)
    (wait : nat) (sh : c_shared C) (res : list (c_local C))
    (sn : list (orderedData T)) : state :=
  {| so := {| src := {| of_i := i; of_done := done |}; srcReq := req;
              srcReqClosed := Nat.eqb lv 0; srcData := sd |};
     sg := {| workers := ws; pcount := Z.of_nat lv;
              sclosed := Nat.eqb lv 0; midReq := mreq;
              midReqClosed := Nat.eqb wait 0; midData := md |};
     te := {| terms := ts; tcount := Z.of_nat wait; shared := sh;
              results := res; seen := sn |} |}.
End Model.
End Par.

(** ** Terminal operations over [Of(data...).Parallel()] *)

(** A terminal goroutine that appends [f od] to its own slice for every
    item [od] it receives, and never stops early. *)
Definition collect_consumer {T X} (f : orderedData T -> X) : consumer T :=
  {| c_local := list X; c_shared := unit;
     c_local0 := []; c_shared0 := tt;
     c_op := fun sh slice od => (sh, slice ++ [f od], true) |}.

Definition toSlice_consumer (T : Type) : consumer T :=
  collect_consumer (fun od : orderedData T => od).

(** [ToSlice]: the caller appends the slices in the order they arrive on
    [results], sorts by [order] and copies the data out. *)
Definition ToSlice_parallel {T}
    (sorter : list (orderedData T) -> list (orderedData T))
    (s : Par.state (toSlice_consumer T)) : list T :=
  map (@data T) (sorter (concat (Par.results (Par.te s)))).

Definition sorted_consumer (T : Type) : consumer T :=
  collect_consumer (@data T).

(** Method [Sorted] on a parallel stream: the slices are appended in the
    order they arrive, sorted, and given to [Of]. *)
Definition Sorted_parallel {T} (sorter : list T -> list T)
    (s : Par.state (sorted_consumer T)) : Stream T :=
  Of (sorter (concat (Par.results (Par.te s)))).

(** The slice a collecting goroutine has built and not yet handed over. *)
Definition collected {T X} (f : orderedData T -> X)
    (t : Par.tstate (collect_consumer f)) : list X :=
  match t with
  | Par.TWaiting _ a | Par.TExited _ a => a
  | _ => []
  end.

(** Every item received is in one slice, handed over or not. *)
Definition gathers {T X} (f : orderedData T -> X)
    (s : Par.state (collect_consumer f)) : Prop :=
  Permutation (map f (Par.seen (Par.te s)))
    (concat (Par.results (Par.te s))
     ++ flat_map (collected (f:=f)) (Par.terms (Par.te s))).





(** [FindFirst] sets [terminalCloseCount] to 1 and runs [terminalOpMatch]
    in the calling goroutine: one terminal goroutine whatever the
    [parallelCount] of the stream. *)
Definition findFirst_consumer (T : Type) : consumer T :=
  {| c_local := option T; c_shared := unit;
     c_local0 := None; c_shared0 := tt;
     c_op := fun sh a od =>
               let '(a', continue) := findFirst_closure a (data od) in
               (sh, a', continue) |}.

Definition FindFirst_parallel {T}
    (s : Par.state (findFirst_consumer T)) : option T :=
  match Par.results (Par.te s) with
  | a :: _ => a
  | [] => None
  end.

(** ** Reference behaviours, from the words of the specification *)

(** Limit, as specified: forward the upstream's answers until [n] items
    went through or the upstream closed, then answer every request with
    the closed channel.  A crash upstream stays a crash, and an answer
    that never comes is waited for for ever. *)
Fixpoint forward_at_most {T} (n : nat) (rs : list (response T))
  : list (response T) :=
  match n, rs with
  | _, [] => []
  | O, _ :: _ => map (fun _ => EndOfData) rs
  | S n', Item od :: rs' => Item od :: forward_at_most n' rs'
  | S _, EndOfData :: _ => map (fun _ => EndOfData) rs
  | S _, Panicked msg :: _ => map (fun _ => Panicked msg) rs
  | S _, NoAnswer :: _ => map (fun _ => NoAnswer) rs
  end.

(** FlatMap's renumbering, as a function of the nested sequences it is
    given: [offset] and [lastOrder] are the locals of the goroutine when
    the first of them is opened. *)
Definition last_order {R} (ns : list (orderedData R)) (lastOrder : Z) : Z :=
  match rev ns with
  | r :: _ => order r
  | [] => lastOrder
  end.

Definition shift {R} (offset : Z) (r : orderedData R) : orderedData R :=
  {| order := wrap64 (order r + offset); data := data r |}.

Fixpoint renumber {R} (offset lastOrder : Z)
    (nss : list (list (orderedData R))) : list (orderedData R) :=
  match nss with
  | [] => []
  | ns :: rest =>
      map (shift offset) ns
      ++ renumber (wrap64 (offset + (last_order ns lastOrder + 1)))
           (last_order ns lastOrder) rest
  end.

(** The value [offset] reaches after the nested sequences [nss], were
    the counter unbounded. *)
Fixpoint offset_end {R} (offset lastOrder : Z)
    (nss : list (list (orderedData R))) : Z :=
  match nss with
  | [] => offset
  | ns :: rest =>
      offset_end (offset + (last_order ns lastOrder + 1))
        (last_order ns lastOrder) rest
  end.

(** A nested sequence whose numbers go up strictly from 0 or more. *)
Definition numbered_upwards {R} (ns : list (orderedData R)) : Prop :=
  strictly_ordered ns /\ Forall (fun od => 0 <= order od) ns.

(** What the goroutine still has to send: the rest of the nested
    sequence being drained, then the renumbered sequences of the items
    the upstream has not given yet ([b] bounds how many those are). *)
Definition fm_inv {T R} (nested : T -> list (orderedData R))
    (s : flatmap_state T R) (out : list (orderedData R))
    (b : nat) : Prop :=
  fm_closed s = false /\
  exists us cur,
    yields (fm_up s) us /\ (length us <= b)%nat /\
    match fm_rgs s with
    | Some rgs => yields rgs cur
    | None => cur = []
    end /\
    out = map (shift (fm_offset s)) cur
          ++ match fm_rgs s with
             | Some _ =>
                 renumber
                   (wrap64 (fm_offset s
                            + (last_order cur (fm_lastOrder s) + 1)))
                   (last_order cur (fm_lastOrder s))
                   (map (fun u => nested (data u)) us)
             | None =>
                 renumber (fm_offset s) (fm_lastOrder s)
                   (map (fun u => nested (data u)) us)
             end.

(** What [Sorted] is to return for the elements [xs]: a sequential
    stream made by [Of] from a sorted permutation of [xs], which numbers
    its items from 0. *)
Definition sorted_source {T} (cmp : T -> T -> Z) (xs : list T)
    (st : Stream T) : Prop :=
  exists l,
    st = Of l /\ Permutation xs l /\
    StronglySorted (fun a b => cmp_less cmp b a = false) l /\
    parallel st = false /\ parallelCount st = 1 /\
    yields (single_puller (chans st)) (items_from 0 l).

(** Comparison of pairs by their first component. *)
Definition cmp_fst (a b : Z * Z) : Z := fst a - fst b.

(** What the one goroutine of [FindFirst] holds along a run over
    [Of(xs...).Parallel()]: nothing until it has received an item, and
    from then on the first element of [xs] ([None] when it left on a
    closed channel, which only happens for an empty [xs]). *)
Definition finds_first {T} (xs : list T)
    (s : Par.state (findFirst_consumer T)) : Prop :=
  match Par.terms (Par.te s) with
  | [Par.TStart _] | [Par.TWaiting _ None] =>
      Par.results (Par.te s) = [] /\ Par.seen (Par.te s) = []
  | [Par.TExited _ a] =>
      Par.results (Par.te s) = [] /\ a = hd_error xs
  | [Par.TDelivered _] => Par.results (Par.te s) = [hd_error xs]
  | _ => False
  end.

(** ** Filtering, peeking and mapping stages *)

Section Stages.
Variable T : Type.
Variable up : producer T.

(** The body of the request loop of [filter]: receive, and receive
    again as long as the predicate rejects.  [fuel] bounds the number
    of items received; [None] means the bound was reached with the
    request still unanswered. *)
Fixpoint filter_loop (predicate : T -> bool) (fuel : nat) (cnt : nat)
    (u : pstate up)
  : option (response T * stage_state up stage_phase) :=
  match fuel with
  | O => None
  | S f =>
      let '(r, u') := pnext up u in
      match r with
      | Item od =>
          if predicate (data od)
          then Some (Item od,
                     {| locals := StRunning; sent := S cnt;
                        upstream := u' |})
          else filter_loop predicate f (S cnt) u'
      | EndOfData =>
          Some (EndOfData,
                {| locals := StClosed; sent := S cnt; upstream := u' |})
      | Panicked msg =>
          Some (Panicked msg,
                {| locals := StPanicked msg; sent := S cnt;
                   upstream := u' |})
      | NoAnswer =>
          Some (NoAnswer,
                {| locals := StStalled; sent := S cnt; upstream := u' |})
      end
  end.

Definition filter_next (predicate : T -> bool) (fuel : nat)
    (s : stage_state up stage_phase)
  : option (response T * stage_state up stage_phase) :=
  match locals s with
  | StRunning => filter_loop predicate fuel (sent s) (upstream s)
  | StClosed => Some (EndOfData, s)
  | StPanicked msg => Some (Panicked msg, s)
  | StStalled => Some (NoAnswer, s)
  end.

Definition filter_init : stage_state up stage_phase :=
  {| locals := StRunning; sent := 0; upstream := pcur up |}.

(** The [peek] goroutine; its locals hold, besides the phase, the log
    of the arguments [action] has been called on. *)
Definition peek_next (s : stage_state up (stage_phase * list T))
  : response T * stage_state up (stage_phase * list T) :=
  match fst (locals s) with
  | StRunning =>
      let '(r, n, u) := getPrevData s in
      match r with
      | Item od =>
          (Item od,
           {| locals := (StRunning, snd (locals s) ++ [data od]);
              sent := n; upstream := u |})
      | EndOfData =>
          (EndOfData,
           {| locals := (StClosed, snd (locals s)); sent := n;
              upstream := u |})
      | Panicked msg =>
          (Panicked msg,
           {| locals := (StPanicked msg, snd (locals s)); sent := n;
              upstream := u |})
      | NoAnswer =>
          (NoAnswer,
           {| locals := (StStalled, snd (locals s)); sent := n;
              upstream := u |})
      end
  | StClosed => (EndOfData, s)
  | StPanicked msg => (Panicked msg, s)
  | StStalled => (NoAnswer, s)
  end.

Definition peek_producer : producer T :=
  {| pstate := stage_state up (stage_phase * list T);
     pcur := {| locals := (StRunning, []); sent := 0;
                upstream := pcur up |};
     pnext := peek_next;
     pdone := fun s => pdone up (upstream s) |}.

(** The goroutine of [Map] (stream_func.go), one of them. *)
Definition map_next {R} (mapper : T -> R) (s : stage_state up stage_phase)
  : response R * stage_state up stage_phase :=
  match locals s with
  | StRunning =>
      let '(r, n, u) := getPrevData s in
      match r with
      | Item od =>
          (Item {| order := order od; data := mapper (data od) |},
           {| locals := StRunning; sent := n; upstream := u |})
      | EndOfData =>
          (EndOfData, {| locals := StClosed; sent := n; upstream := u |})
      | Panicked msg =>
          (Panicked msg,
           {| locals := StPanicked msg; sent := n; upstream := u |})
      | NoAnswer =>
          (NoAnswer, {| locals := StStalled; sent := n; upstream := u |})
      end
  | StClosed => (EndOfData, s)
  | StPanicked msg => (Panicked msg, s)
  | StStalled => (NoAnswer, s)
  end.

Definition map_producer {R} (mapper : T -> R) : producer R :=
  {| pstate := stage_state up stage_phase;
     pcur := {| locals := StRunning; sent := 0; upstream := pcur up |};
     pnext := map_next mapper;
     pdone := fun _ => false |}.
End Stages.

(** The answers of a fuelled stage to [n] successive requests, each
    served with [fuel] turns of its inner loop. *)
Fixpoint serve_fuelled {T St} (next : St -> option (response T * St))
    (n : nat) (s : St) : option (list (response T) * St) :=
  match n with
  | O => Some ([], s)
  | S n' =>
      match next s with
      | None => None
      | Some (r, s1) =>
          match serve_fuelled next n' s1 with
          | None => None
          | Some (rs, s2) => Some (r :: rs, s2)
          end
      end
  end.

(** ** Concat, Distinct, IterateN, Range and FileLines (stream_func.go,
    files.go) *)

Section ConcatStage.
Variable T : Type.
Variables a b : producer T.

(** Locals of the [Concat] goroutine: the two upstreams, [switchedToB],
    [offset], [lastOrder] and the phase. *)
Record concat_state : Type := mkConcat {
  cc_a : pstate a;
  cc_b : pstate b;
  cc_switchedToB : bool;
  cc_offset : Z;
  cc_lastOrder : Z;
  cc_phase : stage_phase
}.

(** The end of a turn that has received [r] from the stream being
    read, [ua] and [ub] being the upstreams afterwards. *)
Definition concat_forward (r : response T) (ua : pstate a) (ub : pstate b)
    (offset lastOrder : Z) : response T * concat_state :=
  match r with
  | Item d =>
      (Item {| order := wrap64 (order d + offset); data := data d |},
       {| cc_a := ua; cc_b := ub; cc_switchedToB := true;
          cc_offset := offset; cc_lastOrder := order d;
          cc_phase := StRunning |})
  | EndOfData =>
      (EndOfData,
       {| cc_a := ua; cc_b := ub; cc_switchedToB := true;
          cc_offset := offset; cc_lastOrder := lastOrder;
          cc_phase := StClosed |})
  | Panicked msg =>
      (Panicked msg,
       {| cc_a := ua; cc_b := ub; cc_switchedToB := true;
          cc_offset := offset; cc_lastOrder := lastOrder;
          cc_phase := StPanicked msg |})
  | NoAnswer =>
      (NoAnswer,
       {| cc_a := ua; cc_b := ub; cc_switchedToB := true;
          cc_offset := offset; cc_lastOrder := lastOrder;
          cc_phase := StStalled |})
  end.

Definition concat_next (s : concat_state) : response T * concat_state :=
  match cc_phase s with
  | StClosed => (EndOfData, s)
  | StPanicked msg => (Panicked msg, s)
  | StStalled => (NoAnswer, s)
  | StRunning =>
      if cc_switchedToB s
      then let '(r, ub) := pnext b (cc_b s) in
           concat_forward r (cc_a s) ub (cc_offset s) (cc_lastOrder s)
      else
        let '(r, ua) := pnext a (cc_a s) in
        match r with
        | Item d =>
            (Item {| order := wrap64 (order d + cc_offset s);
                     data := data d |},
             {| cc_a := ua; cc_b := cc_b s; cc_switchedToB := false;
                cc_offset := cc_offset s; cc_lastOrder := order d;
                cc_phase := StRunning |})
        | EndOfData =>
            let offset := wrap64 (cc_lastOrder s + 1) in
            let '(r', ub) := pnext b (cc_b s) in
            concat_forward r' ua ub offset (cc_lastOrder s)
        | Panicked msg =>
            (Panicked msg,
             {| cc_a := ua; cc_b := cc_b s; cc_switchedToB := false;
                cc_offset := cc_offset s; cc_lastOrder := cc_lastOrder s;
                cc_phase := StPanicked msg |})
        | NoAnswer =>
            (NoAnswer,
             {| cc_a := ua; cc_b := cc_b s; cc_switchedToB := false;
                cc_offset := cc_offset s; cc_lastOrder := cc_lastOrder s;
                cc_phase := StStalled |})
        end
  end.

Definition Concat_producer : producer T :=
  {| pstate := concat_state;
     pcur := {| cc_a := pcur a; cc_b := pcur b; cc_switchedToB := false;
                cc_offset := 0; cc_lastOrder := 0;
                cc_phase := StRunning |};
     pnext := concat_next;
     pdone := fun _ => false |}.
End ConcatStage.

Section DistinctStage.
Variable T : Type.
Variable eqb : T -> T -> bool.
Variable up : producer T.

(** [seen[x]] for the map [seen], kept as the list of its keys. *)
Definition seen_has (seen : list T) (x : T) : bool := existsb (eqb x) seen.

(** The body of the request loop of [Distinct]: receive, and receive
    again as long as the data has been sent before. *)
Fixpoint distinct_loop (fuel : nat) (seen : list T) (cnt : nat)
    (u : pstate up)
  : option (response T * stage_state up (stage_phase * list T)) :=
  match fuel with
  | O => None
  | S f =>
      let '(r, u') := pnext up u in
      match r with
      | Item od =>
          if seen_has seen (data od)
          then distinct_loop f seen (S cnt) u'
          else Some (Item od,
                     {| locals := (StRunning, data od :: seen);
                        sent := S cnt; upstream := u' |})
      | EndOfData =>
          Some (EndOfData,
                {| locals := (StClosed, seen); sent := S cnt;
                   upstream := u' |})
      | Panicked msg =>
          Some (Panicked msg,
                {| locals := (StPanicked msg, seen); sent := S cnt;
                   upstream := u' |})
      | NoAnswer =>
          Some (NoAnswer,
                {| locals := (StStalled, seen); sent := S cnt;
                   upstream := u' |})
      end
  end.

Definition distinct_next (fuel : nat)
    (s : stage_state up (stage_phase * list T))
  : option (response T * stage_state up (stage_phase * list T)) :=
  match fst (locals s) with
  | StRunning => distinct_loop fuel (snd (locals s)) (sent s) (upstream s)
  | StClosed => Some (EndOfData, s)
  | StPanicked msg => Some (Panicked msg, s)
  | StStalled => Some (NoAnswer, s)
  end.

Definition distinct_init : stage_state up (stage_phase * list T) :=
  {| locals := (StRunning, []); sent := 0; upstream := pcur up |}.

(** The items whose data is not in [seen] and has not come earlier in
    the list. *)
Fixpoint first_occurrences (seen : list T) (ods : list (orderedData T))
  : list (orderedData T) :=
  match ods with
  | [] => []
  | od :: rest =>
      if seen_has seen (data od) then first_occurrences seen rest
      else od :: first_occurrences (data od :: seen) rest
  end.
End DistinctStage.

Section IterateNSource.
Variable T : Type.

(** [IterateN]: locals [nextValue], [applyNext], [order], and whether
    the goroutine has left its loop.  It leaves by [break] and starts
    no discarding goroutine, and [nextReq] has no buffer: a request
    sent after that is never received ([None]). *)
Record iterateN_state : Type := mkIterN {
  itn_nextValue : T;
  itn_applyNext : bool;
  itn_order : Z;
  itn_returned : bool
}.

Definition IterateN_next (hasNext : T -> bool) (next : T -> T)
    (s : iterateN_state) : option (response T * iterateN_state) :=
  if itn_returned s then None
  else
    let v := if itn_applyNext s then next (itn_nextValue s)
             else itn_nextValue s in
    if negb (hasNext v)
    then Some (EndOfData,
               {| itn_nextValue := v; itn_applyNext := itn_applyNext s;
                  itn_order := itn_order s; itn_returned := true |})
    else Some (Item {| order := itn_order s; data := v |},
               {| itn_nextValue := v; itn_applyNext := true;
                  itn_order := wrap64 (itn_order s + 1);
                  itn_returned := false |}).

Definition IterateN_init (seed : T) : iterateN_state :=
  {| itn_nextValue := seed; itn_applyNext := false; itn_order := 0;
     itn_returned := false |}.
End IterateNSource.

(** Go's [int] on a 64-bit platform: the value of an integer expression
    after wrap-around. *)
Definition wrapInt (z : Z) : Z := (z + 2 ^ 63) mod 2 ^ 64 - 2 ^ 63.

(** [Range] and [RangeClosed] at type [int]. *)
Definition Range (startInclusive endExclusive : Z) : outcome (Stream Z) :=
  Limit (Iterate startInclusive (fun t => wrapInt (t + 1)))
    (wrapInt (endExclusive - startInclusive)).

Definition RangeClosed (startInclusive endInclusive : Z)
  : outcome (Stream Z) :=
  Limit (Iterate startInclusive (fun t => wrapInt (t + 1)))
    (wrapInt (wrapInt (endInclusive - startInclusive) + 1)).

(** [FileLines] on a file that could be opened: [lines] is what the
    scanner returns, call after call.  The state holds the number of
    lines scanned and whether the goroutine has closed; the local [i]
    of the goroutine is never assigned after [i := 0]. *)
Record fileLines_state : Type :=
  mkFL { fl_scanned : nat; fl_i : Z; fl_done : bool }.

Definition FileLines_next (lines : list string) (s : fileLines_state)
  : response string * fileLines_state :=
  if fl_done s then (EndOfData, s)
  else match nth_error lines (fl_scanned s) with
       | None =>
           (EndOfData, {| fl_scanned := fl_scanned s; fl_i := fl_i s;
                          fl_done := true |})
       | Some text =>
           (Item {| order := wrap64 (fl_i s); data := text |},
            {| fl_scanned := S (fl_scanned s); fl_i := fl_i s;
               fl_done := false |})
       end.

Definition FileLines_producer (lines : list string) : producer string :=
  {| pstate := fileLines_state;
     pcur := {| fl_scanned := 0; fl_i := 0; fl_done := false |};
     pnext := FileLines_next lines;
     pdone := fl_done |}.

(** A sort that meets the contract of [sort.Slice] and is not stable. *)
Definition reversing_sort {A} (less : A -> A -> bool) (l : list A)
  : list A := stable_sort less (rev l).

(** ** Folding terminal operations: ForEach, Reduce, ReduceToOptional,
    Min, Max, Count and Sum *)

(** A terminal goroutine that folds what it receives into a local
    [result], as those of [Reduce], [Min], [Max], [Count] and [Sum] do:
    [op] is the body of the closure given to [terminalOp]. *)
Definition fold_consumer {T A} (op : A -> T -> A) (a0 : A) : consumer T :=
  {| c_local := A; c_shared := unit;
     c_local0 := a0; c_shared0 := tt;
     c_op := fun sh a od => (sh, op a (data od), true) |}.

(** [ForEach]: every goroutine calls the one [action]; the shared state
    is the log of its arguments. *)
Definition forEach_consumer (T : Type) : consumer T :=
  {| c_local := unit; c_shared := list T;
     c_local0 := tt; c_shared0 := [];
     c_op := fun log a od => (log ++ [data od], a, true) |}.

Definition ForEach_direct {T} (fuel : nat) (p : producer T) : run (list T) :=
  run_map (fun r => fst r) (terminalOp fuel (fun log t => log ++ [t]) [] p).

Definition ForEach_parallel {T} (s : Par.state (forEach_consumer T))
  : list T := Par.shared (Par.te s).

(** Method [Reduce]: every goroutine starts from [identity], and so
    does the caller, who folds the partial results in as they arrive. *)
Definition Reduce_direct {T} (fuel : nat) (identity : T)
    (accumulator : T -> T -> T) (p : producer T) : run T :=
  run_map (fun r => accumulator identity (fst r))
    (terminalOp fuel accumulator identity p).

Definition Reduce_parallel {T} (identity : T) (accumulator : T -> T -> T)
    (s : Par.state (fold_consumer accumulator identity)) : T :=
  fold_left accumulator (Par.results (Par.te s)) identity.

(** The locals [foundAny] and [result] of [ReduceToOptional], [Min] and
    [Max] as an option, and the bodies of their closures. *)
Definition reduce_step {T} (accumulator : T -> T -> T) (r : option T)
    (t : T) : option T :=
  match r with
  | None => Some t
  | Some x => Some (accumulator x t)
  end.

Definition min_step {T} (less : T -> T -> bool) (r : option T) (t : T)
  : option T :=
  match r with
  | None => Some t
  | Some x => if less t x then Some t else Some x
  end.

Definition max_step {T} (less : T -> T -> bool) (r : option T) (t : T)
  : option T :=
  match r with
  | None => Some t
  | Some x => if less x t then Some t else Some x
  end.

(** The caller's loop over the partial results: an empty one is
    skipped, the others go through the same body. *)
Definition merge_partial {T} (step : option T -> T -> option T)
    (acc : option T) (o : option T) : option T :=
  match o with
  | None => acc
  | Some v => step acc v
  end.

Definition ReduceToOptional_direct {T} (fuel : nat)
    (accumulator : T -> T -> T) (p : producer T) : run (option T) :=
  run_map (fun r => merge_partial (reduce_step accumulator) None (fst r))
    (terminalOp fuel (reduce_step accumulator) None p).

Definition Min_direct {T} (fuel : nat) (less : T -> T -> bool)
    (p : producer T) : run (option T) :=
  run_map (fun r => merge_partial (min_step less) None (fst r))
    (terminalOp fuel (min_step less) None p).

Definition Min_parallel {T} (less : T -> T -> bool)
    (s : Par.state (fold_consumer (min_step less) None)) : option T :=
  fold_left (merge_partial (min_step less)) (Par.results (Par.te s)) None.

Definition Max_direct {T} (fuel : nat) (less : T -> T -> bool)
    (p : producer T) : run (option T) :=
  run_map (fun r => merge_partial (max_step less) None (fst r))
    (terminalOp fuel (max_step less) None p).

Definition Max_parallel {T} (less : T -> T -> bool)
    (s : Par.state (fold_consumer (max_step less) None)) : option T :=
  fold_left (merge_partial (max_step less)) (Par.results (Par.te s)) None.

(** [Count]: [int] counters. *)
Definition count_step {T} (count : Z) (t : T) : Z := wrapInt (count + 1).

Definition Count_direct {T} (fuel : nat) (p : producer T) : run Z :=
  run_map (fun r => wrapInt (0 + fst r)) (terminalOp fuel count_step 0 p).

Definition Count_parallel {T}
    (s : Par.state (fold_consumer (@count_step T) 0)) : Z :=
  fold_left (fun count r => wrapInt (count + r)) (Par.results (Par.te s)) 0.

(** [Sum] at type [int]; on a stream that is not parallel the calling
    goroutine runs [terminalOp] itself. *)
Definition sum_step (sum t : Z) : Z := wrapInt (sum + t).

Definition Sum_direct (fuel : nat) (p : producer Z) : run Z :=
  run_map (fun r => fst r) (terminalOp fuel sum_step 0 p).

Definition Sum_parallel (s : Par.state (fold_consumer sum_step 0)) : Z :=
  fold_left sum_step (Par.results (Par.te s)) 0.

(** The view of a run of collecting goroutines as a run of folding
    ones: each slice is replaced by the fold of its elements. *)
Definition fold_term {T A} (op : A -> T -> A) (a0 : A)
    (t : Par.tstate (collect_consumer (@data T)))
  : Par.tstate (fold_consumer op a0) :=
  match t with
  | Par.TStart _ => Par.TStart _
  | Par.TWaiting _ l => Par.TWaiting (fold_consumer op a0) (fold_left op l a0)
  | Par.TExited _ l => Par.TExited (fold_consumer op a0) (fold_left op l a0)
  | Par.TDelivered _ => Par.TDelivered _
  end.

Definition fold_view {T A} (op : A -> T -> A) (a0 : A)
    (s : Par.state (collect_consumer (@data T)))
  : Par.state (fold_consumer op a0) :=
  {| Par.so := Par.so s;
     Par.sg := Par.sg s;
     Par.te := {| Par.terms := map (fold_term op a0) (Par.terms (Par.te s));
                  Par.tcount := Par.tcount (Par.te s);
                  Par.shared := tt;
                  Par.results :=
                    map (fun l => fold_left op l a0)
                      (Par.results (Par.te s));
                  Par.seen := Par.seen (Par.te s) |} |}.

(** [r] is a least element of [l] for the order of the keys ([None]:
    there is no element). *)
Definition least_by {T} (key : T -> Z) (r : option T) (l : list T) : Prop :=
  match r with
  | None => l = []
  | Some m => In m l /\ Forall (fun x => key m <= key x) l
  end.

(** The sum of a list of integers, unbounded. *)
Definition sumZ (l : list Z) : Z := fold_right Z.add 0 l.

(** ** Optional, Builder and SummaryStatistics *)

(** [type Optional[T any] struct { value T; present bool }]; [zero] is
    the zero value of [T], which the empty literal holds. *)
Module Optional.
Record t (T : Type) : Type := mk { value : T; present : bool }.

Section Ops.
Variable T : Type.
Variable zero : T.

Definition OptionalOf (v : T) : t T := {| value := v; present := true |}.
Definition OptionalEmpty : t T := {| value := zero; present := false |}.

Definition Get (o : t T) : outcome T :=
  if present o then Ok (value o) else Panic "value is not present".

Definition IsPresent (o : t T) : bool := present o.
Definition IsEmpty (o : t T) : bool := negb (present o).

(** [Filter]: the Optional returned, and the arguments [predicate] was
    called on. *)
Definition Filter (o : t T) (predicate : T -> bool) : t T * list T :=
  if present o then (o, [])
  else if predicate (value o) then (o, [value o])
       else (OptionalEmpty, [value o]).

(** [Or]: a supplier returns a pointer, [None] for nil. *)
Definition Or (o : t T) (supplier : option (t T)) : outcome (t T) :=
  if present o then Ok o
  else match supplier with
       | None => Panic "supplier.Get returns nil"
       | Some r => Ok r
       end.

Definition OrElse (o : t T) (other : T) : T :=
  if present o then value o else other.

Definition OrElsePanic (o : t T) : outcome T :=
  if present o then Ok (value o) else Panic "no value is present".

(** Method [Stream]. *)
Definition ToStream (o : t T) : Stream T :=
  if present o then Of [value o] else Empty T.
End Ops.

(** [OptionalMap] and [OptionalFlatMap] (optional_func.go); [zeroU] is
    the zero value of [U]. *)
Definition OptionalMap {T U} (zeroU : U) (o : t T) (mapper : T -> U)
  : t U :=
  if IsPresent o then {| value := zeroU; present := false |}
  else {| value := mapper (value o); present := true |}.

Definition OptionalFlatMap {T U} (zeroU : U) (o : t T)
    (mapper : T -> option (t U)) : outcome (t U) :=
  if negb (IsPresent o) then Ok {| value := zeroU; present := false |}
  else match mapper (value o) with
       | None => Panic "mapper returns nil"
       | Some r => Ok r
       end.
End Optional.

(** [type Builder[T any] struct { built bool; data []T }]: every method
    gives its outcome and the builder afterwards. *)
Record Builder (T : Type) : Type :=
  mkBuilder { b_built : bool; b_data : list T }.

Definition Builder_zero (T : Type) : Builder T :=
  {| b_built := false; b_data := [] |}.

Definition Add {T} (b : Builder T) (x : T) : outcome unit * Builder T :=
  if b_built b then (Panic "Already built state", b)
  else (Ok tt, {| b_built := b_built b; b_data := b_data b ++ [x] |}).

Definition Build {T} (b : Builder T) : outcome (Stream T) * Builder T :=
  if b_built b then (Panic "Already build state", b)
  else
    let b' := {| b_built := true; b_data := b_data b |} in
    if Nat.eqb (length (b_data b)) 0 then (Ok (Empty T), b')
    else (Ok (Of (b_data b)), b').

(** [Add] called on the elements of a list, one after the other, as
    long as none panics. *)
Fixpoint Add_all {T} (b : Builder T) (xs : list T)
  : outcome unit * Builder T :=
  match xs with
  | [] => (Ok tt, b)
  | x :: rest =>
      match Add b x with
      | (Ok _, b') => Add_all b' rest
      | (Panic msg, b') => (Panic msg, b')
      end
  end.

(** [alg.Min] and [alg.Max] (alg/alg.go). *)
Definition alg_Max (a b : Z) : Z := if a <? b then b else a.
Definition alg_Min (a b : Z) : Z := if a <? b then a else b.

(** [SummaryStatistics]: four [int64] fields. *)
Record SummaryStatistics : Type := mkStats {
  ss_count : Z;
  ss_sum : Z;
  ss_min : Z;
  ss_max : Z
}.

Definition NewSummaryStatistics : SummaryStatistics :=
  {| ss_count := 0; ss_sum := 0; ss_min := 2 ^ 63 - 1;
     ss_max := - 2 ^ 63 |}.

(** [accept], for a value already converted to [int64]. *)
Definition accept (i : SummaryStatistics) (v : Z) : SummaryStatistics :=
  {| ss_count := wrapInt (ss_count i + 1);
     ss_sum := wrapInt (ss_sum i + v);
     ss_min := alg_Min (ss_min i) v;
     ss_max := alg_Max (ss_max i) v |}.

Definition combine (i other : SummaryStatistics) : SummaryStatistics :=
  {| ss_count := wrapInt (ss_count i + ss_count other);
     ss_sum := wrapInt (ss_sum i + ss_sum other);
     ss_min := alg_Min (ss_min i) (ss_min other);
     ss_max := alg_Max (ss_max i) (ss_max other) |}.

(** The statistics of a sequence of values accepted in order. *)
Definition summarize (l : list Z) : SummaryStatistics :=
  fold_left accept l NewSummaryStatistics.

(** An [int64] value. *)
Definition is_int64 (z : Z) : Prop := - 2 ^ 63 <= z <= 2 ^ 63 - 1.

(** The elements up to and including the first one on which [stop]
    holds. *)
Fixpoint until_first {T} (stop : T -> bool) (l : list T) : list T :=
  match l with
  | [] => []
  | x :: rest => if stop x then [x] else x :: until_first stop rest
  end.

(** ** Pipelines of sources, [Parallel], [Limit] and [Skip] *)

(** [IterateN] as a link: a request that the goroutine never receives
    is never answered.  The stream literal has no [prevDone]. *)
Definition IterateN_producer {T} (seed : T) (hasNext : T -> bool)
    (next : T -> T) : producer T :=
  {| pstate := iterateN_state T;
     pcur := IterateN_init seed;
     pnext := fun s => match IterateN_next hasNext next s with
                       | Some a => a
                       | None => (NoAnswer, s)
                       end;
     pdone := fun _ => false |}.

Definition IterateN {T} (seed : T) (hasNext : T -> bool) (next : T -> T)
  : Stream T := source_stream (IterateN_producer seed hasNext next).

(** [FileLines] on a file that could be opened. *)
Definition FileLines (lines : list string) : Stream string :=
  source_stream (FileLines_producer lines).

(** Pipelines written with the library's sources, then any number of
    [Parallel], [Limit] and [Skip] calls, each applied to the stream the
    previous call returned.  A [Limit] in the middle has a positive
    size: its goroutine then neither panics nor closes as it starts, and
    the stream is as [Limit] returned it until it is consumed. *)
Inductive built (goMaxProcs : Z) : forall T : Type, Stream T -> Prop :=
| built_Of T (data : list T) : built goMaxProcs (Of data)
| built_Empty T : built goMaxProcs (Empty T)
| built_Iterate T (seed : T) f : built goMaxProcs (Iterate seed f)
| built_IterateN T (seed : T) hasNext next :
    built goMaxProcs (IterateN seed hasNext next)
| built_Generate T (s : nat -> T) : built goMaxProcs (Generate s)
| built_FileLines lines : built goMaxProcs (FileLines lines)
| built_Parallel T (gs gs' : Stream T) :
    built goMaxProcs gs -> Parallel goMaxProcs gs = Ok gs' ->
    built goMaxProcs gs'
| built_Limit T (gs : Stream T) n gs' :
    built goMaxProcs gs -> 0 < n -> Limit gs n = Ok gs' ->
    built goMaxProcs gs'
| built_Skip T (gs : Stream T) n gs' :
    built goMaxProcs gs -> Skip gs n = Ok gs' -> built goMaxProcs gs'.

(** ** [Empty().Parallel()] under [FindFirst] *)

(** The stream of [Empty] has no [prevDone].  Its goroutine answers
    every request with the closed channel and nothing else, as the
    goroutine of [Of()] does: its pipeline is that of [Of()] under the
    schedules in which no [drain] goroutine takes the [prevDone] case. *)
Definition without_prevDone (sched : list Par.actor) : bool :=
  forallb (fun a => match a with Par.Quit _ => false | _ => true end) sched.

Section LoneRequest.
Variable T : Type.
Variable m : nat.

(** A state of that pipeline under [FindFirst] in which no channel is
    closed and no item is anywhere. *)
Definition lone_state (ws : list (Par.wstate T)) (pc : Z) (done : bool)
    (srcq midq : nat) (t : Par.tstate (findFirst_consumer T))
  : Par.state (findFirst_consumer T) :=
  {| Par.so := {| Par.src := {| of_i := 0; of_done := done |};
                  Par.srcReq := srcq; Par.srcReqClosed := false;
                  Par.srcData := [] |};
     Par.sg := {| Par.workers := ws; Par.pcount := pc;
                  Par.sclosed := false; Par.midReq := midq;
                  Par.midReqClosed := false; Par.midData := [] |};
     Par.te := {| Par.terms := [t]; Par.tcount := 1; Par.shared := tt;
                  Par.results := []; Par.seen := [] |} |}.

(** Where the one request of [FindFirst] is: not sent yet; in
    [nextReq]; passed on by goroutine [j], which waits for the answer;
    answered by the closed channel; and, once goroutine [j] has called
    [close] and returned, nowhere. *)
Inductive lone_request : Par.state (findFirst_consumer T) -> Prop :=
| lone_start :
    lone_request
      (lone_state (repeat (Par.WIdle T) m) (Z.of_nat m) false 0 0
         (Par.TStart _))
| lone_sent :
    lone_request
      (lone_state (repeat (Par.WIdle T) m) (Z.of_nat m) false 0 1
         (Par.TWaiting (findFirst_consumer T) None))
| lone_asked j :
    (j < m)%nat ->
    lone_request
      (lone_state (upd j (Par.WAsked T) (repeat (Par.WIdle T) m))
         (Z.of_nat m) false 1 0
         (Par.TWaiting (findFirst_consumer T) None))
| lone_answered j :
    (j < m)%nat ->
    lone_request
      (lone_state (upd j (Par.WAsked T) (repeat (Par.WIdle T) m))
         (Z.of_nat m) true 0 0
         (Par.TWaiting (findFirst_consumer T) None))
| lone_left j :
    (j < m)%nat ->
    lone_request
      (lone_state (upd j (Par.WExited T) (repeat (Par.WIdle T) m))
         (Z.of_nat m - 1) true 0 0
         (Par.TWaiting (findFirst_consumer T) None)).
End LoneRequest.

(** ** Methods called on a stream *)

(** [ToSlice] called on a stream whose [parallelCount] is 1:
    [validateState], then one goroutine collects the items and the
    caller sorts them. *)
Definition ToSlice_sequential {T}
    (sorter : list (orderedData T) -> list (orderedData T))
    (fuel : nat) (gs : Stream T) : run (list T) :=
  match validateState gs (Ok tt) with
  | Panic msg => Crashed msg
  | Ok _ => ToSlice_direct sorter fuel (single_puller (chans gs))
  end.

(** The caller's part of [ToSlice] on a parallel stream: [results] holds
    the slices of the collecting goroutines in the order they arrive. *)
Definition ToSlice_combine {T}
    (sorter : list (orderedData T) -> list (orderedData T))
    (results : list (list (orderedData T))) : list T :=
  map (@data T) (sorter (concat results)).

(** The collecting goroutines of [ToSlice] over
    [FileLines(f).Parallel()].  The goroutine of [FileLines] is the one
    of [Of] over the lines of the file -- the same requests, the same
    closing of [nextData] and [prevDone] -- but for the number it
    sends, which is always 0, and the goroutines of [Parallel] pass the
    items on as they are: the pipeline is that of [Of] with every item
    numbered 0 when it is collected. *)
Definition fileLines_toSlice_consumer : consumer string :=
  collect_consumer
    (fun od : orderedData string => {| order := 0; data := data od |}).

(** [FindFirst] as a method: [validateState], then [terminalOpMatch] in
    the calling goroutine alone, whatever [parallelCount] is. *)
Definition FindFirst {T} (fuel : nat) (gs : Stream T) : run (option T) :=
  match validateState gs (Ok tt) with
  | Panic msg => Crashed msg
  | Ok _ => FindFirst_direct fuel (single_puller (chans gs))
  end.

(** * Properties *)

(** ** Close *)

(** C10. On a stream that is not closed, [Close] panics with
    "Not Implemented Yet" and leaves the stream as it was: nothing is
    closed and nothing else runs. *)
Theorem Close_panics_not_implemented :
  forall (T : Type) (gs : Stream T),
    closed gs = false ->
    Close gs = (Panic "Not Implemented Yet", gs).
Proof.
  intros T gs Hopen. unfold Close, validateState.
  now rewrite Hopen.
Qed.

Lemma Close_panics_not_implemented_witness :
  closed (Of [1; 2; 3]) = false /\
  Close (Of [1; 2; 3]) = (Panic "Not Implemented Yet", Of [1; 2; 3]).
Proof.
  split; [reflexivity|].
  apply (@Close_panics_not_implemented Z (Of [1; 2; 3])). reflexivity.
Defined.

(** ** The guard of Limit and Skip *)

Lemma built_open_unordered :
  forall gmp (T : Type) (gs : Stream T),
    built gmp gs -> closed gs = false /\ ordered gs = false.
Proof.
  intros gmp T gs Hb.
  induction Hb as [ | | | | | | T gs gs' Hb [IHc IHo] Heq
                    | T gs n gs' Hb [IHc IHo] Hn Heq
                    | T gs n gs' Hb [IHc IHo] Heq ];
    try (split; reflexivity).
  - unfold Parallel, validateState in Heq. rewrite IHc in Heq.
    destruct (parallel gs); inversion Heq; subst; auto.
  - unfold Limit, validateState in Heq. rewrite IHc, IHo in Heq.
    simpl in Heq. inversion Heq; subst; auto.
  - unfold Skip, validateState in Heq. rewrite IHc, IHo in Heq.
    simpl in Heq. inversion Heq; subst; auto.
Qed.

(** C9, as the code has it.  [Limit] and [Skip] panic on a stage whose
    [ordered] flag is set and whose [parallelCount] exceeds 1.  Nothing
    sets the flag: on every pipeline that starts from [Of], [Empty],
    [Iterate], [IterateN], [Generate] or [FileLines] and goes on with
    any number of [Parallel], [Limit] (of a positive size) and [Skip]
    calls, the guard stays silent and both return a stage with one
    worker. *)
Theorem Limit_Skip_guard :
  forall gmp (T : Type) (gs : Stream T) (n : Z),
    (closed gs = false -> ordered gs = true -> parallelCount gs > 1 ->
     Limit gs n = Panic "Limit doesn't support ordered parallel stream" /\
     Skip gs n = Panic "Skip doesn't support ordered parallel stream") /\
    (built gmp gs ->
     ordered gs = false /\
     (exists l, Limit gs n = Ok l /\ parallelCount l = 1) /\
     (exists l, Skip gs n = Ok l /\ parallelCount l = 1)).
Proof.
  intros gmp T gs n. split.
  - intros Hc Ho Hp. unfold Limit, Skip, validateState.
    rewrite Hc, Ho.
    assert ((parallelCount gs >? 1) = true) as -> by (apply Z.gtb_lt; lia).
    split; reflexivity.
  - intros Hb. destruct (built_open_unordered Hb) as [Hc Ho].
    split; [exact Ho|].
    unfold Limit, Skip, validateState. rewrite Hc, Ho. simpl.
    split; eexists; split; reflexivity.
Qed.

Lemma Limit_Skip_guard_witness :
  exists p, Parallel 4 (Of [1; 2; 3]) = Ok p /\ built 4 p /\
            ordered p = false /\
            (exists l, Limit p 2 = Ok l /\ parallelCount l = 1) /\
            (exists l, Skip p 2 = Ok l /\ parallelCount l = 1).
Proof.
  eexists. split; [reflexivity|].
  assert (Hb : built 4 (mkGS false true 4 false 4
                          (Fanout 4 (Of_producer [1; 2; 3])))).
  { eapply built_Parallel; [apply (built_Of 4 [1; 2; 3])|reflexivity]. }
  split; [exact Hb|].
  exact (proj2 (@Limit_Skip_guard 4 Z _ 2) Hb).
Defined.

(** C9 as stated fails: [Of(1, 2, 3).Parallel()] with four workers is a
    multi-worker parallel stage over an ordered source, built from the
    library's constructors, and neither [Limit] nor [Skip] panics on it. *)
Lemma Limit_Skip_guard_never_fires :
  exists p, Parallel 4 (Of [1; 2; 3]) = Ok p /\
            parallel p = true /\ parallelCount p > 1 /\
            (forall msg, Limit p 2 <> Panic msg) /\
            (forall msg, Skip p 2 <> Panic msg).
Proof.
  eexists. split; [reflexivity|]. simpl.
  repeat split; try lia; intros msg H; discriminate H.
Qed.

(** ** Limit *)

Lemma serve_fixed :
  forall (T S : Type) (next : S -> response T * S) (r : response T) (s : S)
         (n : nat),
    next s = (r, s) -> serve next n s = (repeat r n, s).
Proof.
  intros T S next r s n Hfix. induction n as [|n IH]; simpl.
  - reflexivity.
  - now rewrite Hfix, IH.
Qed.

Lemma serve_length :
  forall (T S : Type) (next : S -> response T * S) (n : nat) (s : S),
    length (fst (serve next n s)) = n.
Proof.
  intros T S next n. induction n as [|n IH]; intros s; simpl.
  - reflexivity.
  - destruct (next s) as [r s1]. specialize (IH s1).
    destruct (serve next n s1) as [rs s2]. simpl in *. now rewrite IH.
Qed.

Lemma map_const_repeat :
  forall (A B : Type) (b : B) (l : list A),
    map (fun _ => b) l = repeat b (length l).
Proof.
  intros A B b l. induction l as [|x l IH]; simpl; [reflexivity|].
  now rewrite IH.
Qed.

Lemma limit_running :
  forall (T : Type) (up : producer T) (r : nat) (count : Z) (c0 : nat)
         (u : pstate up),
    0 < count ->
    let res := serve (limit_next (up:=up)) r
                 {| locals := LimitRunning count; sent := c0;
                    upstream := u |} in
    fst res = forward_at_most (Z.to_nat count) (fst (serve (pnext up) r u)) /\
    (sent (snd res) <= c0 + Nat.min r (Z.to_nat count))%nat.
Proof.
  intros T up r. induction r as [|r IH]; intros count c0 u Hpos; simpl.
  - split; [now destruct (Z.to_nat count)|lia].
  - destruct (limit_next _) as [r0 s1] eqn:Hstep.
    unfold limit_next, getPrevData in Hstep. simpl in Hstep.
    destruct (pnext up u) as [a u1] eqn:Hu.
    destruct (serve (pnext up) r u1) as [rs u2] eqn:Hrs.
    assert (Hlen : length rs = r).
    { pose proof (serve_length (pnext up) r u1) as H.
      now rewrite Hrs in H. }
    destruct (Z.to_nat count) as [|n'] eqn:Hn; [lia|].
    destruct a as [od| |msg|]; inversion Hstep; subst r0 s1; clear Hstep.
    + destruct (count - 1 =? 0) eqn:Hz.
      * apply Z.eqb_eq in Hz.
        rewrite (@serve_fixed T _ (limit_next (up:=up)) EndOfData)
          by reflexivity.
        simpl. assert (n' = 0%nat) as -> by lia. split; [|lia].
        f_equal. subst r. destruct rs as [|x rs]; simpl; [reflexivity|].
        f_equal. now rewrite map_const_repeat.
      * apply Z.eqb_neq in Hz.
        destruct (IH (count - 1) (S c0) u1 ltac:(lia)) as [IH1 IH2].
        rewrite Hrs in IH1. simpl in IH1.
        destruct (serve (limit_next (up:=up)) r _) as [rs' st'].
        simpl in *. replace (Z.to_nat (count - 1)) with n' in * by lia.
        split; [now rewrite IH1|lia].
    + rewrite (@serve_fixed T _ (limit_next (up:=up)) EndOfData)
        by reflexivity.
      simpl. split; [|lia]. f_equal.
      now rewrite map_const_repeat, Hlen.
    + rewrite (@serve_fixed T _ (limit_next (up:=up)) (Panicked msg))
        by reflexivity.
      simpl. split; [|lia]. f_equal.
      now rewrite map_const_repeat, Hlen.
    + rewrite (@serve_fixed T _ (limit_next (up:=up)) NoAnswer)
        by reflexivity.
      simpl. split; [|lia]. f_equal.
      now rewrite map_const_repeat, Hlen.
Qed.

(** The goroutine [limit] over any upstream, after any number [r] of
    requests: a negative [maxSize] makes the goroutine panic as it
    starts, before it pulls; zero makes it close as it starts, with no
    request sent upstream; a positive
    one forwards the upstream's answers up to [maxSize] items, then
    closes, and never sends more than [maxSize] requests upstream. *)
Theorem Limit_forwards_at_most :
  forall (T : Type) (up : producer T) (maxSize : Z) (r : nat),
    let p := limit_producer up maxSize in
    let res := serve (pnext p) r (pcur p) in
    match maxSize ?= 0 with
    | Lt =>
        locals (pcur p) =
          LimitPanicked ("maxSize must not be negative: "
                         ++ show_int maxSize) /\
        fst res =
          repeat (Panicked ("maxSize must not be negative: "
                            ++ show_int maxSize)) r /\
        requests_sent (snd res) = 0%nat
    | Eq =>
        locals (pcur p) = LimitClosed /\
        fst res = repeat EndOfData r /\ requests_sent (snd res) = 0%nat
    | Gt =>
        fst res = forward_at_most (Z.to_nat maxSize) (emitted r up) /\
        (requests_sent (snd res) <= Nat.min r (Z.to_nat maxSize))%nat
    end.
Proof.
  intros T up maxSize r. simpl. unfold limit_init.
  destruct (maxSize ?= 0) eqn:Hcmp.
  - apply Z.compare_eq in Hcmp. subst maxSize. simpl.
    split; [reflexivity|].
    now rewrite (@serve_fixed T _ (limit_next (up:=up)) EndOfData).
  - rewrite Z.compare_lt_iff in Hcmp.
    assert ((maxSize <? 0) = true) as -> by (apply Z.ltb_lt; lia).
    split; [reflexivity|].
    now rewrite (@serve_fixed T _ (limit_next (up:=up))
                   (Panicked ("maxSize must not be negative: "
                              ++ show_int maxSize))).
  - rewrite Z.compare_gt_iff in Hcmp.
    assert ((maxSize <? 0) = false) as -> by (apply Z.ltb_ge; lia).
    assert ((maxSize =? 0) = false) as -> by (apply Z.eqb_neq; lia).
    apply (limit_running up r 0 (pcur up) Hcmp).
Qed.

(** ** Sequence numbers of the sources *)

Lemma skipn_nth_error :
  forall (A : Type) (l : list A) (i : nat) (x : A),
    nth_error l i = Some x -> skipn i l = x :: skipn (S i) l.
Proof.
  intros A l. induction l as [|y l IH]; intros [|i] x H; simpl in *;
    try discriminate.
  - now inversion H.
  - now apply IH.
Qed.

Lemma firstn_repeat_le :
  forall (A : Type) (e : A) (n k : nat),
    (n <= k)%nat -> firstn n (repeat e k) = repeat e n.
Proof.
  intros A e n. induction n as [|n IH]; intros [|k] H; simpl;
    try reflexivity; try lia.
  f_equal. apply IH. lia.
Qed.

Lemma firstn_app_repeat :
  forall (A : Type) (e : A) (l : list A) (n k1 k2 : nat),
    (n <= k1)%nat -> (n <= k2)%nat ->
    firstn n (l ++ repeat e k1) = firstn n (l ++ repeat e k2).
Proof.
  intros A e l. induction l as [|x l IH]; intros n k1 k2 H1 H2; simpl.
  - now rewrite !firstn_repeat_le.
  - destruct n as [|n]; simpl; [reflexivity|].
    f_equal. apply IH; lia.
Qed.

Lemma Of_serve :
  forall (T : Type) (data : list T) (n : nat) (st : of_state),
    of_done st = false -> (of_i st <= length data)%nat ->
    fst (serve (Of_next data) n st) =
    firstn n (map (@Item T) (items_from (of_i st) (skipn (of_i st) data))
              ++ repeat EndOfData n).
Proof.
  intros T data n. induction n as [|n IH]; intros [i d] Hd Hi;
    [reflexivity|]. cbn [of_done of_i] in *. subst d.
  cbn [serve]. unfold Of_next at 1. cbn [of_done of_i].
  destruct (Nat.eqb i (length data)) eqn:He.
  - apply Nat.eqb_eq in He. subst i. rewrite skipn_all.
    rewrite (@serve_fixed T _ (Of_next data) EndOfData) by reflexivity.
    cbn. f_equal. now rewrite firstn_repeat_le.
  - apply Nat.eqb_neq in He.
    destruct (nth_error data i) as [x|] eqn:Hx.
    + rewrite (skipn_nth_error _ _ Hx).
      assert (Hlt : (i < length data)%nat)
        by (apply nth_error_Some; congruence).
      specialize (IH {| of_i := S i; of_done := false |} eq_refl).
      cbn [of_i] in IH. specialize (IH ltac:(lia)).
      destruct (serve (Of_next data) n _) as [rs s2].
      cbn [fst] in *. rewrite IH.
      cbn [items_from map app firstn]. f_equal.
      apply firstn_app_repeat; lia.
    + apply nth_error_None in Hx. lia.
Qed.

Lemma Of_yields :
  forall (T : Type) (data : list T),
    yields (Of_producer data) (items_from 0 data).
Proof.
  intros T data n. unfold emitted. simpl.
  now rewrite Of_serve by (simpl; auto with arith).
Qed.

Lemma wrap64_small : forall z, 0 <= z < 2 ^ 64 -> wrap64 z = z.
Proof. intros z H. unfold wrap64. now apply Z.mod_small. Qed.

Lemma wrap64_succ : forall o j, wrap64 (wrap64 (o + 1) + j) = wrap64 (o + (1 + j)).
Proof.
  intros o j. unfold wrap64. rewrite Zplus_mod_idemp_l. f_equal. lia.
Qed.

Lemma items_from_nth :
  forall (T : Type) (l : list T) (k i : nat) (x : T),
    nth_error l i = Some x ->
    nth_error (items_from k l) i =
    Some {| order := wrap64 (Z.of_nat (k + i)); data := x |}.
Proof.
  intros T l. induction l as [|y l IH]; intros k [|i] x H; simpl in *;
    try discriminate.
  - inversion H. now rewrite Nat.add_0_r.
  - rewrite (IH (S k) i x H). do 3 f_equal. lia.
Qed.

Lemma items_from_length :
  forall (T : Type) (l : list T) (k : nat),
    length (items_from k l) = length l.
Proof.
  intros T l. induction l as [|x l IH]; intros k; simpl; [reflexivity|].
  now rewrite IH.
Qed.

Lemma answer_nth_error :
  forall (T : Type) (p : producer T) (i : nat),
    nth_error (emitted (S i) p) i = Some (answer p i).
Proof.
  intros T p i. unfold answer. apply nth_error_nth'.
  unfold emitted. rewrite serve_length. lia.
Qed.

Lemma Iterate_serve :
  forall (T : Type) (seed : T) (f : T -> T) (n j : nat) (v : T) (o : Z)
         (r : response T),
    nth_error
      (fst (serve (Iterate_next seed f) n
              {| it_useSeed := false; it_nextValue := v; it_order := o |}))
      j = Some r ->
    r = Item {| order := match j with O => o | S _ => wrap64 (o + Z.of_nat j) end;
                data := Nat.iter (S j) f v |}.
Proof.
  intros T seed f n. induction n as [|n IH]; intros j v o r H.
  - destruct j; discriminate H.
  - cbn [serve] in H. unfold Iterate_next at 1 in H. cbn in H.
    destruct (serve (Iterate_next seed f) n _) as [rs s2] eqn:Hs.
    destruct j as [|j]; cbn in H.
    + now inversion H.
    + pose proof (IH j (f v) (wrap64 (o + 1)) r) as IHj.
      rewrite Hs in IHj. specialize (IHj H). subst r. f_equal. f_equal.
      * destruct j as [|j]; [f_equal; lia|].
        rewrite wrap64_succ. f_equal. lia.
      * symmetry. apply (Nat.iter_succ_r (S j)).
Qed.

Lemma Generate_serve :
  forall (T : Type) (s : nat -> T) (n j c : nat) (o : Z) (r : response T),
    nth_error
      (fst (serve (Generate_next s) n {| gen_calls := c; gen_order := o |}))
      j = Some r ->
    r = Item {| order := match j with O => o | S _ => wrap64 (o + Z.of_nat j) end;
                data := s (c + j)%nat |}.
Proof.
  intros T s n. induction n as [|n IH]; intros j c o r H.
  - destruct j; discriminate H.
  - cbn [serve] in H. unfold Generate_next at 1 in H. cbn in H.
    destruct (serve (Generate_next s) n _) as [rs s2] eqn:Hs.
    destruct j as [|j]; cbn in H.
    + inversion H. now rewrite Nat.add_0_r.
    + pose proof (IH j (S c) (wrap64 (o + 1)) r) as IHj.
      rewrite Hs in IHj. specialize (IHj H). subst r. f_equal. f_equal.
      * destruct j as [|j]; [f_equal; lia|].
        rewrite wrap64_succ. f_equal. lia.
      * f_equal. lia.
Qed.

(** C2. The answer of [Of], [Iterate] and [Generate] to request number
    [i] (from 0) carries sequence number [i], as long as [i] fits the
    [uint64] counter: the numbers start at 0 and go up by one. *)
Theorem sources_number_from_zero :
  forall (T : Type) (i : nat),
    Z.of_nat i < 2 ^ 64 ->
    (forall (data : list T) (x : T),
        nth_error data i = Some x ->
        answer (Of_producer data) i =
        Item {| order := Z.of_nat i; data := x |}) /\
    (forall (seed : T) (f : T -> T),
        answer (Iterate_producer seed f) i =
        Item {| order := Z.of_nat i; data := Nat.iter i f seed |}) /\
    (forall (s : nat -> T),
        answer (Generate_producer s) i =
        Item {| order := Z.of_nat i; data := s i |}).
Proof.
  intros T i Hi. repeat split.
  - intros data x Hx.
    pose proof (answer_nth_error (Of_producer data) i) as H.
    rewrite (Of_yields data (S i)) in H.
    assert (Hlt : (i < length data)%nat)
      by (apply nth_error_Some; congruence).
    rewrite nth_error_firstn in H.
    assert ((i <? S i)%nat = true) as Hb by (apply Nat.ltb_lt; lia).
    rewrite Hb in H.
    rewrite nth_error_app1 in H
      by (now rewrite length_map, items_from_length).
    rewrite nth_error_map, (@items_from_nth T data 0 i x Hx) in H. cbn in H.
    inversion H as [H1]. now rewrite wrap64_small by lia.
  - intros seed f.
    pose proof (answer_nth_error (Iterate_producer seed f) i) as H.
    unfold emitted in H. cbn [pnext pcur Iterate_producer serve] in H.
    unfold Iterate_next at 1 in H. cbn in H.
    destruct (serve (Iterate_next seed f) i _) as [rs s2] eqn:Hs.
    destruct i as [|i]; cbn in H; [now inversion H|].
    pose proof (@Iterate_serve T seed f (S i) i seed 1
                  (answer (Iterate_producer seed f) (S i))) as Hi2.
    rewrite Hs in Hi2. rewrite (Hi2 H). f_equal. f_equal.
    destruct i as [|i]; [reflexivity|].
    rewrite wrap64_small; lia.
  - intros s.
    pose proof (answer_nth_error (Generate_producer s) i) as H.
    unfold emitted in H. cbn [pnext pcur Generate_producer] in H.
    rewrite (Generate_serve s _ _ _ _ H). f_equal. f_equal.
    destruct i as [|i]; [reflexivity|]. apply wrap64_small. lia.
Qed.

Lemma sources_number_from_zero_witness :
  Z.of_nat 2 < 2 ^ 64 /\
  answer (Of_producer [7; 8; 9]) 2 = Item {| order := 2; data := 9 |} /\
  answer (Iterate_producer 1 (Z.mul 2)) 2 = Item {| order := 2; data := 4 |} /\
  answer (Generate_producer (fun k => Z.of_nat k + 5)) 2 =
  Item {| order := 2; data := 7 |}.
Proof.
  assert (Hlt : Z.of_nat 2 < 2 ^ 64) by (vm_compute; reflexivity).
  split; [exact Hlt|].
  destruct (@sources_number_from_zero Z 2 Hlt) as [HOf [HIt HGen]].
  split; [apply (HOf [7; 8; 9] 9); reflexivity|].
  split; [apply (HIt 1 (Z.mul 2))|apply (HGen (fun k => Z.of_nat k + 5))].
Defined.

(** ** Skip *)

Lemma yields_from_cons :
  forall (T St : Type) (next : St -> response T * St) (u : St)
         (od : orderedData T) (ods : list (orderedData T)),
    yields_from next u (od :: ods) ->
    exists u', next u = (Item od, u') /\ yields_from next u' ods.
Proof.
  intros T St next u od ods H.
  destruct (next u) as [r u'] eqn:Hn. exists u'.
  pose proof (H 1%nat) as H1. cbn in H1. rewrite Hn in H1. cbn in H1.
  inversion H1; subst r. split; [reflexivity|].
  intros n. pose proof (H (S n)) as HS. cbn [serve] in HS.
  rewrite Hn in HS. destruct (serve next n u') as [rs s2].
  cbn in HS. inversion HS as [Hrs]. cbn.
  change (EndOfData :: repeat EndOfData n)
    with (repeat (@EndOfData T) (S n)).
  apply firstn_app_repeat; lia.
Qed.

Lemma yields_from_nil :
  forall (T St : Type) (next : St -> response T * St) (u : St),
    yields_from next u [] ->
    exists u', next u = (EndOfData, u') /\ yields_from next u' [].
Proof.
  intros T St next u H.
  destruct (next u) as [r u'] eqn:Hn. exists u'.
  pose proof (H 1%nat) as H1. cbn in H1. rewrite Hn in H1. cbn in H1.
  inversion H1; subst r. split; [reflexivity|].
  intros n. pose proof (H (S n)) as HS. cbn [serve] in HS.
  rewrite Hn in HS. destruct (serve next n u') as [rs s2].
  cbn in HS. inversion HS as [Hrs]. cbn.
  now rewrite firstn_repeat_le.
Qed.

Lemma skip_discard_yields :
  forall (T : Type) (up : producer T) (k : nat) (n : Z) (cnt : nat)
         (u : pstate up) (ods : list (orderedData T)),
    yields_from (pnext up) u ods ->
    exists u',
      skip_discard up k n cnt u =
      (if (k <=? length ods)%nat
       then (SkipRunning (n - Z.of_nat k), (cnt + k)%nat, u')
       else (SkipClosed, S (cnt + length ods), u')) /\
      yields_from (pnext up) u' (skipn k ods).
Proof.
  intros T up k. induction k as [|k IH]; intros n cnt u ods Hy.
  - exists u. cbn. rewrite Z.sub_0_r, Nat.add_0_r. now split.
  - destruct ods as [|od ods].
    + destruct (yields_from_nil Hy) as [u' [Hn Hy']].
      exists u'. cbn. rewrite Hn, Nat.add_0_r. now split.
    + destruct (yields_from_cons Hy) as [u' [Hn Hy']].
      destruct (IH (n - 1) (S cnt) u' ods Hy') as [u2 [Hd Hy2]].
      exists u2. cbn [skip_discard]. rewrite Hn, Hd.
      split; [|exact Hy2].
      cbn [length Nat.leb skipn].
      destruct (k <=? length ods)%nat.
      * replace (n - 1 - Z.of_nat k) with (n - Z.of_nat (S k)) by lia.
        now replace (S cnt + k)%nat with (cnt + S k)%nat by lia.
      * now replace (S cnt + length ods)%nat
          with (cnt + S (length ods))%nat by lia.
Qed.

Lemma skip_serve :
  forall (T : Type) (up : producer T) (r : nat) (n : Z) (cnt : nat)
         (u : pstate up) (ods : list (orderedData T)),
    yields_from (pnext up) u ods ->
    fst (serve (skip_next (up:=up)) r
           {| locals := SkipRunning n; sent := cnt; upstream := u |}) =
    firstn r (map (@Item T) (skipn (Z.to_nat n) ods) ++ repeat EndOfData r).
Proof.
  intros T up r. induction r as [|r IH]; intros n cnt u ods Hy;
    [reflexivity|].
  cbn [serve].
  destruct (skip_next _) as [a s1] eqn:Hstep.
  unfold skip_next in Hstep. cbn [locals sent upstream] in Hstep.
  destruct (@skip_discard_yields T up (Z.to_nat n) n cnt u ods Hy)
    as [u1 [Hd Hy1]].
  rewrite Hd in Hstep.
  destruct (Z.to_nat n <=? length ods)%nat eqn:Hle.
  - destruct (skipn (Z.to_nat n) ods) as [|od rest] eqn:Hsk.
    + destruct (yields_from_nil Hy1) as [u2 [Hn2 _]].
      rewrite Hn2 in Hstep. inversion Hstep; subst a s1.
      rewrite (@serve_fixed T _ (skip_next (up:=up)) EndOfData)
        by reflexivity.
      cbn. f_equal. now rewrite firstn_repeat_le.
    + destruct (yields_from_cons Hy1) as [u2 [Hn2 Hy2]].
      rewrite Hn2 in Hstep. inversion Hstep; subst a s1.
      specialize (IH (n - Z.of_nat (Z.to_nat n)) (S (cnt + Z.to_nat n))
                    u2 rest Hy2).
      replace (Z.to_nat (n - Z.of_nat (Z.to_nat n))) with 0%nat in IH
        by lia.
      cbn [skipn] in IH.
      destruct (serve (skip_next (up:=up)) r _) as [rs s2].
      cbn [fst] in *. rewrite IH. cbn. f_equal.
      change (EndOfData :: repeat EndOfData r)
        with (repeat (@EndOfData T) (S r)).
      apply firstn_app_repeat; lia.
  - inversion Hstep; subst a s1.
    rewrite (@serve_fixed T _ (skip_next (up:=up)) EndOfData)
      by reflexivity.
    apply Nat.leb_gt in Hle.
    rewrite skipn_all2 by lia. cbn. f_equal.
    now rewrite firstn_repeat_le.
Qed.

(** ** Sorting by sequence number *)

Lemma sorted_unique :
  forall (T : Type) (l l' : list (orderedData T)),
    strictly_ordered l ->
    StronglySorted (fun a b => order_less b a = false) l' ->
    Permutation l l' -> l = l'.
Proof.
  intros T l. induction l as [|x t IH]; intros l' Hs Hs' Hp.
  - apply Permutation_nil in Hp. now subst.
  - destruct l' as [|y t'].
    + apply Permutation_sym, Permutation_nil in Hp. discriminate.
    + inversion Hs as [|? ? Hst Hx]; subst.
      inversion Hs' as [|? ? Hst' Hy]; subst.
      assert (Hyx : y = x).
      { assert (Hin : In y (x :: t))
          by (eapply Permutation_in; [apply Permutation_sym, Hp|now left]).
        destruct Hin as [->|Hin]; [reflexivity|].
        assert (Hin' : In x (y :: t'))
          by (eapply Permutation_in; [apply Hp|now left]).
        destruct Hin' as [->|Hin']; [reflexivity|].
        rewrite Forall_forall in Hx, Hy.
        specialize (Hx y Hin). specialize (Hy x Hin').
        unfold order_less in Hy. apply Z.ltb_ge in Hy. lia. }
      subst y. f_equal. apply IH; auto.
      now apply Permutation_cons_inv with (a := x).
Qed.

Lemma sorter_fixes_ordered :
  forall (T : Type) (sorter : list (orderedData T) -> list (orderedData T))
         (l : list (orderedData T)),
    sorts (@order_less T) sorter -> strictly_ordered l -> sorter l = l.
Proof.
  intros T sorter l Hsort Hl. destruct (Hsort l) as [Hp Hs].
  symmetry. now apply sorted_unique.
Qed.

Lemma items_from_ordered :
  forall (T : Type) (l : list T) (k : nat),
    Z.of_nat (k + length l) <= 2 ^ 64 ->
    strictly_ordered (items_from k l) /\
    Forall (fun od => Z.of_nat k <= order od) (items_from k l).
Proof.
  intros T l. induction l as [|x l IH]; intros k Hk; cbn [items_from].
  - split; constructor.
  - cbn [length] in Hk.
    destruct (IH (S k) ltac:(lia)) as [IHs IHf].
    rewrite wrap64_small by lia. split.
    + constructor; [exact IHs|].
      eapply Forall_impl; [|exact IHf]. cbn. intros a Ha. lia.
    + constructor; [cbn; lia|].
      eapply Forall_impl; [|exact IHf]. cbn. intros a Ha. lia.
Qed.

(** The stable insertion sort meets the contract for any [less] that
    compares integer keys. *)
Lemma insert_after_perm :
  forall (A : Type) (less : A -> A -> bool) (x : A) (l : list A),
    Permutation (x :: l) (insert_after less x l).
Proof.
  intros A less x l. induction l as [|y l IH]; cbn; [reflexivity|].
  destruct (less x y); [reflexivity|].
  rewrite perm_swap. now constructor.
Qed.

Lemma insert_after_sorted :
  forall (A : Type) (key : A -> Z) (less : A -> A -> bool) (x : A)
         (l : list A),
    (forall a b, less a b = (key a <? key b)) ->
    StronglySorted (fun a b => less b a = false) l ->
    StronglySorted (fun a b => less b a = false) (insert_after less x l).
Proof.
  intros A key less x l Hk Hs. induction Hs as [|y l Hs IH Hy]; cbn.
  - repeat constructor.
  - destruct (less x y) eqn:Hxy.
    + constructor; [now constructor|].
      rewrite Hk in Hxy. apply Z.ltb_lt in Hxy.
      constructor; [rewrite Hk; apply Z.ltb_ge; lia|].
      eapply Forall_impl; [|exact Hy]. cbn. intros a Ha.
      rewrite Hk in *. apply Z.ltb_ge in Ha. apply Z.ltb_ge. lia.
    + constructor; [exact IH|].
      eapply Permutation_Forall; [apply insert_after_perm|].
      constructor; assumption.
Qed.

Lemma stable_sort_sorts :
  forall (A : Type) (key : A -> Z) (less : A -> A -> bool),
    (forall a b, less a b = (key a <? key b)) ->
    sorts less (stable_sort less).
Proof.
  intros A key less Hk l. unfold stable_sort.
  assert (H : forall acc,
             StronglySorted (fun a b => less b a = false) acc ->
             Permutation (acc ++ l)
               (fold_left (fun acc x => insert_after less x acc) l acc) /\
             StronglySorted (fun a b => less b a = false)
               (fold_left (fun acc x => insert_after less x acc) l acc)).
  { induction l as [|x l IH]; intros acc Hacc; cbn.
    - rewrite app_nil_r. now split.
    - destruct (IH (insert_after less x acc)) as [Hp Hs].
      + now apply insert_after_sorted with (key := key).
      + split; [|exact Hs].
        rewrite <- Hp. rewrite <- insert_after_perm. cbn.
        symmetry. apply Permutation_middle. }
  destruct (H [] (SSorted_nil _)) as [Hp Hs]. now split.
Qed.

Lemma run_map_map :
  forall (A B C : Type) (f : A -> B) (g : B -> C) (r : run A),
    run_map (fun a => g (f a)) r = run_map g (run_map f r).
Proof. intros A B C f g [a|msg| |]; reflexivity. Qed.

Lemma map_data_items_from :
  forall (T : Type) (l : list T) (k : nat),
    map (@data T) (items_from k l) = l.
Proof.
  intros T l. induction l as [|x l IH]; intros k; cbn; [reflexivity|].
  now rewrite IH.
Qed.

(** C6. Over an upstream that yields [ods] and then closes, [Skip(n)]
    yields [ods] without its first [n] items (nothing when there are
    fewer than [n]) and then closes; and
    [Of(0..999).Skip(10).Limit(90).ToSlice()] is the slice [10..99]. *)
Theorem Skip_discards_then_forwards :
  (forall (T : Type) (up : producer T) (ods : list (orderedData T)) (n : Z),
      yields up ods ->
      yields (skip_producer up n) (skipn (Z.to_nat n) ods)) /\
  (forall sorter : list (orderedData Z) -> list (orderedData Z),
      sorts (@order_less Z) sorter ->
      exists s1 s2 p,
        Skip (Of (upto 0 1000)) 10 = Ok s1 /\
        Limit s1 90 = Ok s2 /\
        chans s2 = Direct p /\
        ToSlice_direct sorter 91 p = Finished (upto 10 90)).
Proof.
  split.
  - intros T up ods n Hy r. unfold emitted.
    cbn [pnext pcur skip_producer]. now apply skip_serve.
  - intros sorter Hsort. do 3 eexists.
    split; [reflexivity|]. split; [reflexivity|]. split; [reflexivity|].
    unfold ToSlice_direct.
    rewrite (run_map_map (@fst _ _)
               (fun ods => map (@data Z) (sorter ods))).
    match goal with
    | |- run_map _ ?d = _ =>
        assert (Hd : d = Finished (items_from 10 (upto 10 90)))
          by (vm_compute; reflexivity);
        rewrite Hd
    end.
    cbn [run_map]. f_equal.
    rewrite (sorter_fixes_ordered Hsort).
    + apply map_data_items_from.
    + apply items_from_ordered. vm_compute. discriminate.
Qed.

Lemma Skip_discards_then_forwards_witness :
  yields (skip_producer (Of_producer [5; 6; 7]) 2)
    (skipn (Z.to_nat 2) (items_from 0 [5; 6; 7])) /\
  exists s1 s2 p,
    Skip (Of (upto 0 1000)) 10 = Ok s1 /\
    Limit s1 90 = Ok s2 /\
    chans s2 = Direct p /\
    ToSlice_direct (stable_sort (@order_less Z)) 91 p =
    Finished (upto 10 90).
Proof.
  split.
  - apply (proj1 Skip_discards_then_forwards Z (Of_producer [5; 6; 7])).
    apply Of_yields.
  - apply (proj2 Skip_discards_then_forwards).
    apply stable_sort_sorts with (key := @order Z). reflexivity.
Defined.

(** ** FlatMap *)

Lemma yields_pull_cons :
  forall (T : Type) (p : producer T) (od : orderedData T)
         (ods : list (orderedData T)),
    yields p (od :: ods) ->
    exists p', pull p = (Item od, p') /\ yields p' ods.
Proof.
  intros T p od ods H.
  destruct (@yields_from_cons T _ (pnext p) (pcur p) od ods H)
    as [u' [Hn Hy]].
  eexists. unfold pull. rewrite Hn. split; [reflexivity|exact Hy].
Qed.

Lemma yields_pull_nil :
  forall (T : Type) (p : producer T),
    yields p [] -> exists p', pull p = (EndOfData, p') /\ yields p' [].
Proof.
  intros T p H.
  destruct (@yields_from_nil T _ (pnext p) (pcur p) H) as [u' [Hn Hy]].
  eexists. unfold pull. rewrite Hn. split; [reflexivity|exact Hy].
Qed.

Lemma last_order_cons :
  forall (R : Type) (r : orderedData R) (ns : list (orderedData R)) (lo : Z),
    last_order (r :: ns) lo = last_order ns (order r).
Proof.
  intros R r ns lo. unfold last_order. cbn [rev].
  destruct (rev ns) as [|x l]; reflexivity.
Qed.

Section FlatMapProof.
Variables T R : Type.
Variable mapper : T -> Stream R.
Variable nested : T -> list (orderedData R).
Hypothesis nested_yields :
  forall x, yields (single_puller (chans (mapper x))) (nested x).

Lemma fm_inv_weaken :
  forall (s : flatmap_state T R) (out : list (orderedData R)) (b b' : nat),
    fm_inv nested s out b -> (b <= b')%nat -> fm_inv nested s out b'.
Proof.
  intros s out b b' [Hopen [us [cur [Hup [Hb H]]]]] Hle.
  split; [exact Hopen|]. exists us, cur.
  split; [exact Hup|]. split; [lia|exact H].
Qed.

Lemma flatMap_next_inv :
  forall (fuel : nat) (s : flatmap_state T R) (out : list (orderedData R))
         (b : nat),
    fm_inv nested s out b ->
    (b + match fm_rgs s with Some _ => 2 | None => 1 end <= fuel)%nat ->
    match out with
    | od :: tl =>
        exists s', flatMap_next mapper fuel s = Some (Item od, s') /\
                   fm_inv nested s' tl b
    | [] =>
        exists s', flatMap_next mapper fuel s = Some (EndOfData, s') /\
                   fm_closed s' = true
    end.
Proof.
  induction fuel as [|fuel IH]; intros s out b Hinv Hfuel.
  - destruct (fm_rgs s); lia.
  - destruct Hinv as [Hopen [us [cur [Hup [Hb [Hrgs Hout]]]]]].
    cbn [flatMap_next]. rewrite Hopen.
    destruct (fm_rgs s) as [rgs|] eqn:Hr; try rewrite Hr in Hfuel.
    + (* a nested stream is open *)
      destruct cur as [|r cur].
      * destruct (yields_pull_nil Hrgs) as [rgs' [Hp _]]. rewrite Hp.
        cbn [map app] in Hout.
        apply (IH _ out b); [|cbn; lia].
        split; [reflexivity|]. exists us, []. cbn.
        repeat split; auto.
      * destruct (yields_pull_cons Hrgs) as [rgs' [Hp Hy']]. rewrite Hp.
        subst out. cbn [map app]. eexists. split; [reflexivity|].
        split; [reflexivity|]. exists us, cur. cbn.
        repeat split; auto.
        now rewrite last_order_cons.
    + (* no nested stream: ask the upstream *)
      subst cur. cbn [map app] in Hout.
      destruct us as [|u us].
      * destruct (yields_pull_nil Hup) as [up' [Hp _]]. rewrite Hp.
        subst out. cbn. eexists. split; reflexivity.
      * destruct (yields_pull_cons Hup) as [up' [Hp Hy']]. rewrite Hp.
        cbn [map renumber] in Hout. cbn [length] in Hb.
        pose proof (nested_yields (data u)) as Hn.
        destruct (nested (data u)) as [|r cur] eqn:Hnu.
        -- destruct (yields_pull_nil Hn) as [rgs' [Hq _]]. rewrite Hq.
           cbn [map app] in Hout.
           match goal with
           | |- context [flatMap_next mapper fuel ?s1] =>
               assert (Hinv1 : fm_inv nested s1 out (pred b))
                 by (split; [reflexivity|]; exists us, []; cbn;
                     repeat split; auto; lia);
               pose proof (IH s1 out (pred b) Hinv1 ltac:(cbn; lia)) as Hrec
           end.
           destruct out as [|od tl].
           ++ exact Hrec.
           ++ destruct Hrec as [s' [Hs' Hi']]. exists s'.
              split; [exact Hs'|].
              apply fm_inv_weaken with (b := pred b); [exact Hi'|lia].
        -- destruct (yields_pull_cons Hn) as [rgs' [Hq Hy2]]. rewrite Hq.
           subst out. cbn [map app]. eexists. split; [reflexivity|].
           split; [reflexivity|]. exists us, cur. cbn.
           repeat split; auto; [lia|].
           now rewrite last_order_cons.
Qed.
End FlatMapProof.

Lemma flatMap_closed_emitted :
  forall (T R : Type) (mapper : T -> Stream R) (fuel n : nat)
         (s : flatmap_state T R),
    fm_closed s = true ->
    flatMap_emitted mapper (S fuel) n s = Some (repeat EndOfData n).
Proof.
  intros T R mapper fuel n. induction n as [|n IH]; intros s Hc;
    [reflexivity|].
  cbn [flatMap_emitted flatMap_next]. rewrite Hc.
  now rewrite (IH s Hc).
Qed.

Lemma flatMap_emitted_inv :
  forall (T R : Type) (mapper : T -> Stream R)
         (nested : T -> list (orderedData R)),
    (forall x, yields (single_puller (chans (mapper x))) (nested x)) ->
    forall (fuel n : nat) (s : flatmap_state T R)
           (out : list (orderedData R)) (b : nat),
      fm_inv nested s out b -> (b + 2 <= fuel)%nat ->
      flatMap_emitted mapper fuel n s =
      Some (firstn n (map (@Item R) out ++ repeat EndOfData n)).
Proof.
  intros T R mapper nested Hnest fuel n.
  induction n as [|n IH]; intros s out b Hinv Hfuel; [reflexivity|].
  cbn [flatMap_emitted].
  assert (Hf : (b + match fm_rgs s with Some _ => 2 | None => 1 end
                <= fuel)%nat) by (destruct (fm_rgs s); lia).
  pose proof (@flatMap_next_inv T R mapper nested Hnest fuel s out b
                Hinv Hf) as Hstep.
  destruct out as [|od tl].
  - destruct Hstep as [s' [Hs' Hc]]. rewrite Hs'.
    destruct fuel as [|fuel]; [lia|].
    rewrite (flatMap_closed_emitted mapper fuel n s' Hc).
    cbn. now rewrite firstn_repeat_le by lia.
  - destruct Hstep as [s' [Hs' Hi']]. rewrite Hs'.
    rewrite (IH s' tl b Hi' Hfuel). cbn. do 2 f_equal.
    change (EndOfData :: repeat EndOfData n)
      with (repeat (@EndOfData R) (S n)).
    apply firstn_app_repeat; lia.
Qed.

Lemma renumber_data :
  forall (R : Type) (nss : list (list (orderedData R))) (o lo : Z),
    map (@data R) (renumber o lo nss) = concat (map (map (@data R)) nss).
Proof.
  intros R nss. induction nss as [|ns rest IH]; intros o lo; cbn;
    [reflexivity|].
  rewrite map_app, IH. f_equal. rewrite map_map. reflexivity.
Qed.

Lemma shift_items_from :
  forall (R : Type) (l : list R) (k j : nat),
    map (shift (Z.of_nat j)) (items_from k l) = items_from (k + j) l.
Proof.
  intros R l. induction l as [|x l IH]; intros k j; cbn; [reflexivity|].
  rewrite (IH (S k) j). f_equal. unfold shift. cbn. f_equal.
  unfold wrap64. rewrite Zplus_mod_idemp_l. f_equal. lia.
Qed.

Lemma items_from_app :
  forall (R : Type) (l1 l2 : list R) (k : nat),
    items_from k (l1 ++ l2) =
    items_from k l1 ++ items_from (k + length l1) l2.
Proof.
  intros R l1. induction l1 as [|x l1 IH]; intros l2 k; cbn.
  - now rewrite Nat.add_0_r.
  - rewrite IH. do 3 f_equal. lia.
Qed.

Lemma items_from_last_order :
  forall (R : Type) (l : list R) (x : R) (k : nat) (lo : Z),
    last_order (items_from k (x :: l)) lo =
    wrap64 (Z.of_nat (k + length l)).
Proof.
  intros R l. induction l as [|y l IH]; intros x k lo.
  - cbn. now rewrite Nat.add_0_r.
  - cbn [items_from]. rewrite last_order_cons.
    cbn [items_from] in IH. rewrite (IH y (S k)).
    cbn [length]. do 2 f_equal. lia.
Qed.

Lemma strictly_ordered_app :
  forall (R : Type) (l1 l2 : list (orderedData R)) (bound : Z),
    strictly_ordered l1 -> strictly_ordered l2 ->
    Forall (fun od => order od < bound) l1 ->
    Forall (fun od => bound <= order od) l2 ->
    strictly_ordered (l1 ++ l2).
Proof.
  intros R l1 l2 bound H1 H2 Hlt Hge.
  induction H1 as [|x l1 Hs IH Hx]; cbn; [exact H2|].
  inversion Hlt as [|? ? Hxb Hlt']; subst.
  constructor; [now apply IH|].
  apply Forall_app. split; [exact Hx|].
  eapply Forall_impl; [|exact Hge]. cbn. intros a Ha. lia.
Qed.

Lemma last_order_bounds :
  forall (R : Type) (ns : list (orderedData R)) (lo : Z),
    numbered_upwards ns -> 0 <= lo ->
    0 <= last_order ns lo /\
    Forall (fun od => order od <= last_order ns lo) ns.
Proof.
  intros R ns. induction ns as [|r ns IH]; intros lo [Hs Hp] Hlo.
  - split; [exact Hlo|constructor].
  - rewrite last_order_cons.
    inversion Hs as [|? ? Hs' Hr]; subst.
    inversion Hp as [|? ? Hr0 Hp']; subst.
    destruct (IH (order r) (conj Hs' Hp') Hr0) as [IH0 IHf].
    split; [exact IH0|]. constructor; [|exact IHf].
    destruct ns as [|x ns]; [cbn; lia|].
    inversion Hr as [|? ? Hrx _]; subst.
    inversion IHf as [|? ? Hx _]; subst. lia.
Qed.

Lemma offset_end_ge :
  forall (R : Type) (nss : list (list (orderedData R))) (o lo : Z),
    Forall numbered_upwards nss -> 0 <= lo -> o <= offset_end o lo nss.
Proof.
  intros R nss. induction nss as [|ns nss IH]; intros o lo Hn Hlo; cbn.
  - lia.
  - inversion Hn as [|? ? Hns Hn']; subst.
    destruct (last_order_bounds Hns Hlo) as [H0 _].
    specialize (IH (o + (last_order ns lo + 1)) (last_order ns lo) Hn' H0).
    lia.
Qed.

Lemma shifted_ordered :
  forall (R : Type) (ns : list (orderedData R)) (o top : Z),
    numbered_upwards ns -> 0 <= o ->
    Forall (fun od => order od <= top) ns -> o + top < 2 ^ 64 ->
    strictly_ordered (map (shift o) ns) /\
    Forall (fun od => o <= order od <= o + top) (map (shift o) ns).
Proof.
  intros R ns o top [Hs Hp] Ho Ht Hb.
  induction Hs as [|r ns Hs IH Hr]; cbn [map].
  - split; constructor.
  - inversion Hp as [|? ? Hr0 Hp']; subst.
    inversion Ht as [|? ? Hrt Ht']; subst.
    destruct (IH Hp' Ht') as [IHs IHf].
    assert (Hw : forall od : orderedData R,
               0 <= order od -> order od <= top ->
               order (shift o od) = order od + o).
    { intros od H0 H1. unfold shift. cbn. apply wrap64_small. lia. }
    split.
    + constructor; [exact IHs|].
      apply Forall_forall. intros y Hy. apply in_map_iff in Hy.
      destruct Hy as [od [<- Hin]].
      rewrite Forall_forall in Hr, Hp', Ht'.
      rewrite !Hw by auto. specialize (Hr od Hin). lia.
    + constructor; [rewrite Hw by auto; lia|exact IHf].
Qed.

Lemma renumber_ordered :
  forall (R : Type) (nss : list (list (orderedData R))) (o lo : Z),
    Forall numbered_upwards nss -> 0 <= o -> 0 <= lo ->
    offset_end o lo nss < 2 ^ 64 ->
    strictly_ordered (renumber o lo nss) /\
    Forall (fun od => o <= order od) (renumber o lo nss).
Proof.
  intros R nss. induction nss as [|ns nss IH]; intros o lo Hn Ho Hlo Hb.
  - split; constructor.
  - inversion Hn as [|? ? Hns Hn']; subst.
    cbn [renumber offset_end] in *.
    destruct (last_order_bounds Hns Hlo) as [H0 Htop].
    pose proof (offset_end_ge (o + (last_order ns lo + 1)) Hn' H0) as Hge.
    rewrite wrap64_small by lia.
    destruct (IH (o + (last_order ns lo + 1)) (last_order ns lo) Hn'
                ltac:(lia) H0 Hb) as [IHs IHf].
    destruct (@shifted_ordered R ns o (last_order ns lo) Hns Ho Htop
                ltac:(lia)) as [Hs Hf].
    split.
    + apply strictly_ordered_app
        with (bound := o + (last_order ns lo + 1)); auto.
      eapply Forall_impl; [|exact Hf]. cbn. intros a Ha. lia.
    + apply Forall_app. split.
      * eapply Forall_impl; [|exact Hf]. cbn. intros a Ha. lia.
      * eapply Forall_impl; [|exact IHf]. cbn. intros a Ha. lia.
Qed.

Lemma renumber_slices_contiguous :
  forall (R : Type) (ls : list (list R)) (j : nat) (lo : Z),
    Forall (fun l => l <> []) ls ->
    Z.of_nat (j + length (concat ls)) < 2 ^ 64 ->
    renumber (Z.of_nat j) lo (map (items_from 0) ls) =
    items_from j (concat ls).
Proof.
  intros R ls. induction ls as [|l ls IH]; intros j lo Hne Hb;
    [reflexivity|].
  inversion Hne as [|? ? Hl Hne']; subst.
  destruct l as [|x l]; [congruence|].
  cbn [map renumber concat]. rewrite items_from_app.
  rewrite shift_items_from. cbn [Nat.add]. f_equal.
  rewrite items_from_last_order. cbn [Nat.add].
  cbn [concat] in Hb. rewrite length_app in Hb. cbn [length] in Hb.
  rewrite (@wrap64_small (Z.of_nat (length l))) by lia.
  replace (wrap64 (Z.of_nat j + (Z.of_nat (length l) + 1)))
    with (Z.of_nat (j + length (x :: l)))
    by (rewrite wrap64_small; cbn [length]; lia).
  apply IH; [exact Hne'|]. cbn [length]. lia.
Qed.

Lemma map_map_data_items :
  forall (R : Type) (ls : list (list R)),
    concat (map (map (@data R)) (map (items_from 0) ls)) = concat ls.
Proof.
  intros R ls. induction ls as [|l ls IH]; cbn; [reflexivity|].
  now rewrite map_data_items_from, IH.
Qed.

(** C7, as the code has it.  Over an upstream that yields [us], with a
    mapper whose stream for the item [x] yields [nested x], [FlatMap]
    returns a stream with one worker that sends every item of every
    nested sequence, in order, numbered by [order + offset] where
    [offset] grows by [lastOrder + 1] at the end of each nested
    sequence.  The numbers go up strictly whenever those of each nested
    sequence do and [offset] fits [uint64]; they are contiguous from 0
    when the nested sequences are numbered from 0 and none is empty. *)
Theorem FlatMap_renumbers :
  forall (T R : Type) (stream : Stream T) (us : list (orderedData T))
         (mapper : T -> Stream R) (nested : T -> list (orderedData R)),
    closed stream = false ->
    yields (single_puller (chans stream)) us ->
    (forall x, yields (single_puller (chans (mapper x))) (nested x)) ->
    let nss := map (fun u => nested (data u)) us in
    let out := renumber 0 0 nss in
    exists st,
      FlatMap stream mapper = Ok st /\
      parallel st = false /\ parallelCount st = 1 /\
      (forall n,
          flatMap_emitted mapper (length us + 2) n (chans st) =
          Some (firstn n (map (@Item R) out ++ repeat EndOfData n))) /\
      map (@data R) out = concat (map (map (@data R)) nss) /\
      (Forall numbered_upwards nss -> offset_end 0 0 nss < 2 ^ 64 ->
       strictly_ordered out) /\
      (forall ls : list (list R),
          nss = map (items_from 0) ls ->
          Forall (fun l => l <> []) ls ->
          Z.of_nat (length (concat ls)) < 2 ^ 64 ->
          out = items_from 0 (concat ls)).
Proof.
  intros T R stream us mapper nested Hopen Hup Hnest nss out.
  eexists. split.
  { unfold FlatMap, validateState. rewrite Hopen. reflexivity. }
  cbn [parallel parallelCount chans].
  split; [reflexivity|]. split; [reflexivity|]. split; [|split; [|split]].
  - intros n.
    apply flatMap_emitted_inv with (nested := nested) (b := length us).
    + exact Hnest.
    + split; [reflexivity|]. exists us, []. cbn.
      repeat split; auto.
    + lia.
  - subst out. apply renumber_data.
  - intros Hn Hb. apply renumber_ordered; auto; lia.
  - intros ls Hls Hne Hb. subst out. rewrite Hls.
    now apply (@renumber_slices_contiguous R ls 0 0).
Qed.

Lemma FlatMap_renumbers_witness :
  closed (Of [[1; 2]; [3]]) = false /\
  yields (single_puller (chans (Of [[1; 2]; [3]])))
    (items_from 0 [[1; 2]; [3]]) /\
  exists st,
    FlatMap (Of [[1; 2]; [3]]) (fun x => Of x) = Ok st /\
    parallel st = false /\ parallelCount st = 1 /\
    (forall n,
        flatMap_emitted (fun x => Of x) 4 n (chans st) =
        Some (firstn n
                (map (@Item Z) (items_from 0 [1; 2; 3])
                 ++ repeat EndOfData n))) /\
    strictly_ordered (items_from 0 [1; 2; 3]).
Proof.
  split; [reflexivity|]. split; [apply Of_yields|].
  destruct (@FlatMap_renumbers (list Z) Z (Of [[1; 2]; [3]])
              (items_from 0 [[1; 2]; [3]]) (fun x => Of x)
              (fun x => items_from 0 x) eq_refl
              (Of_yields [[1; 2]; [3]]) (fun x => Of_yields x))
    as [st [H1 [H2 [H3 [H4 [_ [H6 _]]]]]]].
  exists st. repeat split; try assumption.
  apply H6.
  - repeat constructor; cbn; lia.
  - vm_compute. reflexivity.
Defined.

(** C7 as stated fails.  With an empty slice in the middle the numbers
    are not contiguous: [FlatMap(Of({1, 2}, {}, {3}), Of)] sends its
    three items under the numbers 0, 1 and 4.  And the numbers go up
    only as far as those of the nested streams do: over the lines of a
    file, which [FileLines] all numbers 0, they stay at 0. *)
Lemma FlatMap_leaves_a_gap :
  (exists st,
      FlatMap (Of [[1; 2]; []; [3]]) (fun x => Of x) = Ok st /\
      flatMap_emitted (fun x : list Z => Of x) 5 4 (chans st) =
      Some [Item {| order := 0; data := 1 |};
            Item {| order := 1; data := 2 |};
            Item {| order := 4; data := 3 |};
            EndOfData]) /\
  (exists st,
      FlatMap (Of [["a"; "b"]]) FileLines = Ok st /\
      flatMap_emitted FileLines 3 3 (chans st) =
      Some [Item {| order := 0; data := "a" |};
            Item {| order := 0; data := "b" |};
            EndOfData])%string.
Proof.
  split; eexists; (split; [reflexivity|]); vm_compute; reflexivity.
Qed.

(** ** The parallel pipeline: facts about every reachable state *)

Lemma flat_map_upd :
  forall (A B : Type) (f : A -> list B) (ws : list A) (j : nat) (w0 w : A),
    nth_error ws j = Some w0 ->
    Permutation (f w0 ++ flat_map f (upd j w ws)) (f w ++ flat_map f ws).
Proof.
  intros A B f ws. induction ws as [|x ws IH]; intros [|j] w0 w H;
    cbn in *; try discriminate.
  - inversion H; subst. apply Permutation_app_swap_app.
  - specialize (IH j w0 w H).
    rewrite Permutation_app_swap_app.
    rewrite IH. apply Permutation_app_swap_app.
Qed.

Lemma flat_map_upd_length :
  forall (A B : Type) (f : A -> list B) (ws : list A) (j : nat) (w0 w : A),
    nth_error ws j = Some w0 ->
    (length (f w0) + length (flat_map f (upd j w ws)) =
     length (f w) + length (flat_map f ws))%nat.
Proof.
  intros A B f ws j w0 w H.
  pose proof (Permutation_length (flat_map_upd f ws j w H)) as Hl.
  now rewrite !length_app in Hl.
Qed.

Lemma flat_map_repeat_nil :
  forall (A B : Type) (f : A -> list B) (x : A) (n : nat),
    f x = [] -> flat_map f (repeat x n) = [].
Proof.
  intros A B f x n H. induction n as [|n IH]; cbn; [reflexivity|].
  now rewrite H, IH.
Qed.

Lemma flat_map_repeat_one :
  forall (A B : Type) (f : A -> list B) (x : A) (b : B) (n : nat),
    f x = [b] -> length (flat_map f (repeat x n)) = n.
Proof.
  intros A B f x b n H. induction n as [|n IH]; cbn; [reflexivity|].
  rewrite H. cbn. now rewrite IH.
Qed.

Lemma firstn_S_items :
  forall (T : Type) (data : list T) (i : nat) (x : T),
    nth_error data i = Some x ->
    firstn (S i) (items_from 0 data) =
    firstn i (items_from 0 data)
    ++ [{| order := wrap64 (Z.of_nat i); data := x |}].
Proof.
  intros T data i x H.
  pose proof (@items_from_nth T data 0 i x H) as Hn. cbn [Nat.add] in Hn.
  revert Hn. generalize (items_from 0 data) as l.
  generalize ({| order := wrap64 (Z.of_nat i); data := x |}) as od.
  clear. intros od l. revert i.
  induction l as [|y l IH]; intros [|i] H; cbn in *; try discriminate.
  - now inversion H.
  - f_equal. now apply IH.
Qed.

Lemma flat_map_nil_length :
  forall (A B C : Type) (f : A -> list B) (g : A -> list C) (ws : list A),
    (forall w, f w = [] -> g w = []) ->
    length (flat_map f ws) = 0%nat -> flat_map g ws = [].
Proof.
  intros A B C f g ws Hfg. induction ws as [|w ws IH]; cbn; intros H;
    [reflexivity|].
  rewrite length_app in H.
  assert (Hw : f w = []) by (destruct (f w); [reflexivity|cbn in H; lia]).
  rewrite (Hfg w Hw). cbn. apply IH. lia.
Qed.

Lemma flat_map_member_length :
  forall (A B : Type) (f : A -> list B) (ws : list A) (j : nat) (w0 : A),
    nth_error ws j = Some w0 ->
    (length (f w0) <= length (flat_map f ws))%nat.
Proof.
  intros A B f ws. induction ws as [|x ws IH]; intros [|j] w0 H;
    cbn in *; try discriminate; rewrite length_app.
  - inversion H; subst. lia.
  - specialize (IH j w0 H). lia.
Qed.

Module ParFacts.
Import Par.

Ltac fields :=
  cbn [so sg te src srcReq srcReqClosed srcData workers pcount sclosed
       midReq midReqClosed midData terms tcount shared results seen
       set_so of_i of_done].


Section Facts.
Variable T : Type.
Variable data : list T.
Variables m k : nat.
Variable C : consumer T.

Local Abbreviation state := (@Par.state T C).
Local Abbreviation sound := (@Par.sound T data C).

Lemma init_sound : sound (@init T m k C).
Proof.
  constructor; cbn; unfold held, asked, live, waiting.
  - lia.
  - now rewrite flat_map_repeat_nil.
  - lia.
  - intros _. now rewrite flat_map_repeat_nil.
  - reflexivity.
  - now rewrite flat_map_repeat_one with (b := tt).
  - discriminate.
  - now rewrite flat_map_repeat_one with (b := tt).
  - discriminate.
  - reflexivity.
Qed.

(** A goroutine of the stage returns through [close]: it was idle, or
    it was waiting on a source that is closed and empty. *)
Lemma close_sound :
  forall (s : state) (j : nat) (w0 : wstate T),
    sound s ->
    nth_error (workers (sg s)) j = Some w0 ->
    w0 = WIdle T \/
    (w0 = WAsked T /\ srcData (so s) = [] /\ of_done (src (so s)) = true) ->
    sound (close j s).
Proof.
  intros s j w0 Hs Hnth Hw0. destruct Hs.
  pose proof (flat_map_upd_length (@asking T) _ j (WExited T) Hnth) as Ha.
  pose proof (flat_map_upd_length (@alive T) _ j (WExited T) Hnth) as Hl.
  pose proof (flat_map_upd (@held_by T) _ j (WExited T) Hnth) as Hh.
  fold (held (workers (sg s))) in Hh.
  fold (held (upd j (WExited T) (workers (sg s)))) in Hh.
  unfold asked, live in *.
  assert (Hheld0 : held_by w0 = [])
    by (destruct Hw0 as [->|[-> _]]; reflexivity).
  assert (Halive0 : alive w0 = [tt])
    by (destruct Hw0 as [->|[-> _]]; reflexivity).
  rewrite Hheld0 in Hh. rewrite Halive0 in Hl.
  cbn [app held_by alive asking length] in Hh, Hl, Ha.
  unfold close.
  destruct (sclosed (sg s)) eqn:Hsc.
  { specialize (snd_sclosed0 eq_refl). lia. }
  destruct (pcount (sg s) - 1 >? 0) eqn:Hc;
    [apply Z.gtb_lt in Hc | rewrite Z.gtb_ltb in Hc; apply Z.ltb_ge in Hc];
    constructor; cbn [so sg te src srcReq srcReqClosed srcData workers
                      pcount sclosed midReq midReqClosed midData terms
                      tcount shared results seen];
    unfold asked, live; auto; try lia; try congruence.
  - now rewrite Hh.
  - destruct Hw0 as [->|[-> [Hsd _]]]; cbn in Ha; [lia|].
    rewrite Hsd. cbn. lia.
  - intros Hd. specialize (snd_tokens0 Hd).
    destruct Hw0 as [->|[-> [_ Hdone]]]; cbn in Ha; [lia|congruence].
  - now rewrite Hh.
  - destruct Hw0 as [->|[-> [Hsd _]]]; cbn in Ha; [lia|].
    rewrite Hsd. cbn. lia.
  - intros Hd. specialize (snd_tokens0 Hd).
    destruct Hw0 as [->|[-> [_ Hdone]]]; cbn in Ha; [lia|congruence].
Qed.
(** What the terminal side does to the state when goroutine [j] takes
    the item [od] off [nextData]. *)
Lemma terminalClose_sound :
  forall (s : state) (j : nat) (a a' : c_local C) (sh' : c_shared C)
         (sn md : list (orderedData T)),
    sound s ->
    nth_error (terms (te s)) j = Some (TWaiting C a) ->
    (sn = seen (te s) /\ md = midData (sg s) /\ sh' = shared (te s)) \/
    (exists od, sn = seen (te s) ++ [od] /\ midData (sg s) = od :: md) ->
    sound (terminalClose j a' sh' sn md s).
Proof.
  intros s j a a' sh' sn md Hs Hnth Hcase. destruct Hs.
  pose proof (flat_map_upd_length (@pending T C) _ j (TExited C a') Hnth)
    as Hp.
  unfold waiting in *. cbn [pending gone length] in Hp.
  unfold terminalClose.
  constructor; cbn [so sg te src srcReq srcReqClosed srcData workers
                    pcount sclosed midReq midReqClosed midData terms
                    tcount shared results seen];
    unfold waiting; auto.
  - destruct Hcase as [[-> [-> _]]|[od [-> Hmd]]]; [assumption|].
    rewrite Hmd in snd_items0. rewrite snd_items0.
    rewrite <- !app_assoc. apply Permutation_app_head. reflexivity.
  - destruct (tcount (te s) =? 0) eqn:Hz; [apply Z.eqb_eq in Hz|]; lia.
  - intros Hc. apply orb_true_iff in Hc. destruct Hc as [Hc|Hc].
    + specialize (snd_midReq0 Hc). lia.
    + destruct (tcount (te s) =? 0) eqn:Hz; [discriminate Hc|].
      cbn in Hc. apply negb_true_iff in Hc.
      rewrite Z.gtb_ltb in Hc. apply Z.ltb_ge in Hc. lia.
  - destruct Hcase as [[-> [_ ->]]|[od [-> _]]]; [assumption|].
    intros H. now destruct (seen (te s)).
Qed.

Lemma request_sound :
  forall (s s' : state) (j : nat) (t0 : tstate C) (a' : c_local C)
         (sh' : c_shared C) (sn md : list (orderedData T)),
    sound s ->
    nth_error (terms (te s)) j = Some t0 -> gone t0 = false ->
    (sn = seen (te s) /\ md = midData (sg s) /\ sh' = shared (te s)) \/
    (exists od, sn = seen (te s) ++ [od] /\ midData (sg s) = od :: md) ->
    request j a' sh' sn md s = Next s' ->
    sound s'.
Proof.
  intros s s' j t0 a' sh' sn md Hs Hnth Hg Hcase Hreq. destruct Hs.
  pose proof (flat_map_upd_length (@pending T C) _ j (TWaiting C a') Hnth)
    as Hp.
  unfold waiting in *. unfold pending at 1 3 in Hp. rewrite Hg in Hp.
  cbn [gone length] in Hp.
  unfold request in Hreq.
  destruct (midReqClosed (sg s)) eqn:Hmc; [discriminate|].
  inversion Hreq; subst s'; clear Hreq.
  constructor; cbn [so sg te src srcReq srcReqClosed srcData workers
                    pcount sclosed midReq midReqClosed midData terms
                    tcount shared results seen];
    unfold waiting; auto; try lia; try discriminate.
  - destruct Hcase as [[-> [-> _]]|[od [-> Hmd]]]; [assumption|].
    rewrite Hmd in snd_items0. rewrite snd_items0.
    rewrite <- !app_assoc. apply Permutation_app_head. reflexivity.
  - destruct Hcase as [[-> [_ ->]]|[od [-> _]]]; [assumption|].
    intros H. now destruct (seen (te s)).
Qed.
Lemma Of_next_cases :
  forall (st : of_state) (r : response T) (st' : of_state),
    of_done st = false -> (of_i st <= length data)%nat ->
    Of_next data st = (r, st') ->
    (r = EndOfData /\ of_i st = length data /\
     st' = {| of_i := of_i st; of_done := true |}) \/
    (exists x, nth_error data (of_i st) = Some x /\
               r = Item (mkOD (wrap64 (Z.of_nat (of_i st))) x) /\
               st' = {| of_i := S (of_i st); of_done := false |}).
Proof.
  intros [i d] r st' Hd Hi H. cbn in Hd, Hi. subst d.
  unfold Of_next in H. cbn in H.
  destruct (Nat.eqb i (length data)) eqn:He.
  - apply Nat.eqb_eq in He. inversion H; subst. left. auto.
  - apply Nat.eqb_neq in He.
    destruct (nth_error data i) as [x|] eqn:Hx.
    + inversion H; subst. right. exists x. auto.
    + apply nth_error_None in Hx. cbn in *. lia.
Qed.

Lemma step_src_sound :
  forall s s' : state,
    sound s -> step_src data s = Next s' -> sound s'.
Proof.
  intros s s' Hs Hstep. destruct Hs. unfold step_src in Hstep.
  destruct (of_done (src (so s))) eqn:Hd.
  - destruct (srcReq (so s)) as [|n] eqn:Hn; [discriminate|].
    inversion Hstep; subst s'; clear Hstep.
    constructor; fields; auto; intros; congruence.
  - destruct (srcReq (so s)) as [|n] eqn:Hn.
    + destruct (srcReqClosed (so s)) eqn:Hrc; [|discriminate].
      inversion Hstep; subst s'; clear Hstep.
      constructor; fields; auto; intros; congruence.
    + destruct (Of_next data (src (so s))) as [r st'] eqn:Hof.
      destruct (Of_next_cases _ Hd snd_index0 Hof)
        as [[-> [Hi ->]]|[x [Hx [-> ->]]]].
      * inversion Hstep; subst s'; clear Hstep.
        constructor; fields; auto; intros; congruence.
      * inversion Hstep; subst s'; clear Hstep.
        specialize (snd_tokens0 eq_refl).
        assert (Hlt : (of_i (src (so s)) < length data)%nat)
          by (apply nth_error_Some; congruence).
        constructor; fields; auto; try rewrite length_app; cbn [length];
          try lia.
        unfold items in *. rewrite (firstn_S_items _ _ Hx).
        rewrite snd_items0. rewrite <- !app_assoc. reflexivity.
Qed.

Lemma step_worker_sound :
  forall (j : nat) (s s' : state),
    sound s -> step_worker j s = Next s' -> sound s'.
Proof.
  intros j s s' Hs Hstep. unfold step_worker in Hstep.
  destruct (nth_error (workers (sg s)) j) as [[| |od|]|] eqn:Hnth;
    try discriminate.
  - (* idle *)
    destruct (midReq (sg s)) as [|n] eqn:Hn.
    + destruct (midReqClosed (sg s)); [|discriminate].
      inversion Hstep; subst s'. eapply close_sound; eauto.
    + destruct (srcReqClosed (so s)) eqn:Hrc; [discriminate|].
      inversion Hstep; subst s'; clear Hstep. destruct Hs.
      pose proof (flat_map_upd_length (@asking T) _ j (WAsked T) Hnth) as Ha.
      pose proof (flat_map_upd_length (@alive T) _ j (WAsked T) Hnth) as Hl.
      pose proof (flat_map_upd (@held_by T) _ j (WAsked T) Hnth) as Hh.
      cbn [app held_by alive asking length] in Hh, Hl, Ha.
      constructor; fields; unfold asked, live, held in *; auto; try lia;
        try congruence.
      * now rewrite Hh.
      * intros Hd. specialize (snd_tokens0 Hd). lia.
  - (* waiting for the source *)
    destruct (srcData (so s)) as [|od rest] eqn:Hsd.
    + destruct (of_done (src (so s))) eqn:Hd; [|discriminate].
      inversion Hstep; subst s'. eapply close_sound; eauto.
    + inversion Hstep; subst s'; clear Hstep. destruct Hs.
      pose proof (flat_map_upd_length (@asking T) _ j (WHolding od) Hnth)
        as Ha.
      pose proof (flat_map_upd_length (@alive T) _ j (WHolding od) Hnth)
        as Hl.
      pose proof (flat_map_upd (@held_by T) _ j (WHolding od) Hnth) as Hh.
      cbn [app held_by alive asking length] in Hh, Hl, Ha.
      rewrite Hsd in *. cbn [length] in *.
      constructor; fields; unfold asked, live, held in *; auto; try lia;
        try congruence.
      * rewrite snd_items0. rewrite Hh.
        apply Permutation_app_head, Permutation_app_head.
        symmetry. apply Permutation_middle.
      * intros Hd. specialize (snd_tokens0 Hd). lia.
      * intros Hq. specialize (snd_sclosed0 Hq). lia.
  - (* holding an item *)
    destruct (sclosed (sg s)) eqn:Hsc; [discriminate|].
    inversion Hstep; subst s'; clear Hstep. destruct Hs.
    pose proof (flat_map_upd_length (@asking T) _ j (WIdle T) Hnth) as Ha.
    pose proof (flat_map_upd_length (@alive T) _ j (WIdle T) Hnth) as Hl.
    pose proof (flat_map_upd (@held_by T) _ j (WIdle T) Hnth) as Hh.
    cbn [app held_by alive asking length] in Hh, Hl, Ha.
    constructor; fields; unfold asked, live, held in *; auto; try lia;
      try congruence.
    + rewrite snd_items0. rewrite <- Hh.
      apply Permutation_app_head. cbn.
      rewrite <- app_assoc. cbn. reflexivity.
    + intros Hd. specialize (snd_tokens0 Hd). lia.
Qed.

Lemma step_quit_sound :
  forall (j : nat) (s s' : state),
    sound s -> step_quit j s = Next s' -> sound s'.
Proof.
  intros j s s' Hs Hstep. unfold step_quit in Hstep.
  destruct (nth_error (workers (sg s)) j) as [[| |od|]|] eqn:Hnth;
    try discriminate.
  destruct (of_done (src (so s))); [|discriminate].
  inversion Hstep; subst s'. eapply close_sound; eauto.
Qed.
Lemma step_term_sound :
  forall (j : nat) (s s' : state),
    sound s -> step_term j s = Next s' -> sound s'.
Proof.
  intros j s s' Hs Hstep. unfold step_term in Hstep.
  destruct (nth_error (terms (te s)) j) as [[|a|a|]|] eqn:Hnth;
    try discriminate.
  - eapply request_sound; eauto.
  - destruct (midData (sg s)) as [|od rest] eqn:Hmd.
    + destruct (sclosed (sg s)); [|discriminate].
      inversion Hstep; subst s'.
      eapply terminalClose_sound; eauto.
    + destruct (c_op C (shared (te s)) a od) as [[sh' a'] continue].
      destruct continue.
      * eapply request_sound; eauto.
      * inversion Hstep; subst s'.
        eapply terminalClose_sound; eauto.
  - inversion Hstep; subst s'; clear Hstep. destruct Hs.
    pose proof (flat_map_upd_length (@pending T C) _ j (TDelivered C) Hnth)
      as Hp.
    cbn [pending gone length] in Hp.
    constructor; fields; unfold waiting in *; auto; try lia.
    intros Hq. specialize (snd_midReq0 Hq). lia.
Qed.

Lemma step_sound :
  forall (a : actor) (s s' : state),
    sound s -> step data a s = Next s' -> sound s'.
Proof.
  intros [|j|j|j] s s' Hs Hstep; cbn [step] in Hstep.
  - eapply step_src_sound; eauto.
  - eapply step_worker_sound; eauto.
  - eapply step_quit_sound; eauto.
  - eapply step_term_sound; eauto.
Qed.


(** *** Terminal operations that drain the stream to its end *)

Section Draining.
Hypothesis always_continue :
  forall sh a od, snd (c_op C sh a od) = true.

Local Abbreviation draining := (@Par.draining T data m k C).

Lemma init_draining : draining (@init T m k C).
Proof.
  constructor; cbn; unfold live, waiting.
  - right. repeat split;
      now rewrite flat_map_repeat_one with (b := tt).
  - rewrite flat_map_repeat_one with (b := tt) by reflexivity. lia.
Qed.

Lemma close_draining :
  forall (s : state) (j : nat),
    draining s ->
    of_done (src (so s)) = true \/ midReqClosed (sg s) = true ->
    draining (close j s).
Proof.
  intros s j [Hph Hleft] Hwhy. unfold close.
  assert (Hph1 : of_done (src (so s)) = true /\
                 of_i (src (so s)) = length data).
  { destruct Hph as [H|[Hd [_ [_ [Hm _]]]]]; [exact H|].
    destruct Hwhy; congruence. }
  destruct (sclosed (sg s)) eqn:Hsc;
    [|destruct (pcount (sg s) - 1 >? 0)];
    constructor; fields; auto;
    intros Hw; destruct (Hleft Hw); congruence.
Qed.

Lemma step_draining :
  forall (a : actor) (s s' : state),
    sound s -> draining s -> step data a s = Next s' -> draining s'.
Proof.
  intros [|j|j|j] s s' Hs Hdr Hstep; pose proof Hdr as [Hph Hleft];
    cbn [step] in Hstep.
  - (* the source *)
    unfold step_src in Hstep.
    destruct (of_done (src (so s))) eqn:Hd.
    + destruct (srcReq (so s)); [discriminate|].
      inversion Hstep; subst s'. constructor; fields; auto.
      rewrite Hd. destruct Hph as [H|[H _]]; [now left|congruence].
    + destruct Hph as [[H _]|Hph2]; [congruence|].
      destruct Hph2 as [_ [Hl [Hsc [Hm Hw]]]].
      destruct (srcReq (so s)).
      * rewrite (snd_closed Hs), Hsc in Hstep. discriminate.
      * destruct (Of_next data (src (so s))) as [r st'] eqn:Hof.
        destruct (Of_next_cases _ Hd (snd_index Hs) Hof)
          as [[-> [Hi ->]]|[x [Hx [-> ->]]]];
          inversion Hstep; subst s'; constructor; fields; auto.
        right. auto.
  - (* a goroutine of the stage *)
    unfold step_worker in Hstep.
    destruct (nth_error (workers (sg s)) j) as [[| |od|]|] eqn:Hnth;
      try discriminate.
    + destruct (midReq (sg s)).
      * destruct (midReqClosed (sg s)) eqn:Hm; [|discriminate].
        inversion Hstep; subst s'.
        apply close_draining; [exact Hdr|now right].
      * destruct (srcReqClosed (so s)); [discriminate|].
        inversion Hstep; subst s'.
        pose proof (flat_map_upd_length (@alive T) _ j (WAsked T) Hnth)
          as Hl.
        cbn [alive length] in Hl.
        constructor; fields; unfold live in *; auto.
        destruct Hph as [H|[H1 [H2 H3]]]; [now left|right].
        repeat split; try tauto. lia.
    + destruct (srcData (so s)) as [|od rest].
      * destruct (of_done (src (so s))) eqn:Hd; [|discriminate].
        inversion Hstep; subst s'.
        apply close_draining; [exact Hdr|now left].
      * inversion Hstep; subst s'.
        pose proof (flat_map_upd_length (@alive T) _ j (WHolding od) Hnth)
          as Hl.
        cbn [alive length] in Hl.
        constructor; fields; unfold live in *; auto.
        destruct Hph as [H|[H1 [H2 H3]]]; [now left|right].
        repeat split; try tauto. lia.
    + destruct (sclosed (sg s)) eqn:Hsc; [discriminate|].
      inversion Hstep; subst s'.
      pose proof (flat_map_upd_length (@alive T) _ j (WIdle T) Hnth) as Hl.
      cbn [alive length] in Hl.
      constructor; fields; unfold live in *.
      * destruct Hph as [H|[H1 [H2 H3]]]; [now left|right].
        repeat split; try tauto. lia.
      * intros Hw. destruct (Hleft Hw). congruence.
  - (* leaving on the closed done channel *)
    unfold step_quit in Hstep.
    destruct (nth_error (workers (sg s)) j) as [[| |od|]|]; try discriminate.
    destruct (of_done (src (so s))) eqn:Hd; [|discriminate].
    inversion Hstep; subst s'.
    apply close_draining; [exact Hdr|now left].
  - (* a terminal goroutine *)
    unfold step_term in Hstep.
    destruct (nth_error (terms (te s)) j) as [[|a|a|]|] eqn:Hnth;
      try discriminate.
    + unfold request in Hstep.
      destruct (midReqClosed (sg s)) eqn:Hm; [discriminate|].
      inversion Hstep; subst s'.
      pose proof (flat_map_upd_length (@pending T C) _ j
                    (TWaiting C (c_local0 C)) Hnth) as Hp.
      cbn [pending gone length] in Hp.
      constructor; fields; unfold waiting in *.
      * destruct Hph as [H|[H1 [H2 [H3 [H4 H5]]]]]; [now left|right].
        repeat split; auto. lia.
      * intros Hw. apply Hleft. lia.
    + destruct (midData (sg s)) as [|od rest] eqn:Hmd.
      * destruct (sclosed (sg s)) eqn:Hsc; [|discriminate].
        inversion Hstep; subst s'. unfold terminalClose.
        constructor; fields; auto.
        destruct Hph as [H|[_ [_ [H _]]]]; [now left|congruence].
      * pose proof (always_continue (shared (te s)) a od) as Hc.
        destruct (c_op C (shared (te s)) a od) as [[sh' a'] continue].
        cbn in Hc. subst continue.
        unfold request in Hstep.
        destruct (midReqClosed (sg s)) eqn:Hm; [discriminate|].
        inversion Hstep; subst s'.
        pose proof (flat_map_upd_length (@pending T C) _ j
                      (TWaiting C a') Hnth) as Hp.
        cbn [pending gone length] in Hp.
        constructor; fields; unfold waiting in *.
        -- destruct Hph as [H|[H1 [H2 [H3 [H4 H5]]]]]; [now left|right].
           repeat split; auto. lia.
        -- intros Hw. destruct Hleft as [_ Habs]; [lia|discriminate].
    + inversion Hstep; subst s'.
      pose proof (flat_map_upd_length (@pending T C) _ j (TDelivered C) Hnth)
        as Hp.
      cbn [pending gone length] in Hp.
      constructor; fields; unfold waiting in *.
      * destruct Hph as [H|[H1 [H2 [H3 [H4 H5]]]]]; [now left|right].
        repeat split; auto. lia.
      * intros Hw. apply Hleft. lia.
Qed.

Lemma exec_draining :
  forall (sched : list actor) (s s' : state),
    sound s -> draining s -> exec data sched s = Next s' ->
    sound s' /\ draining s'.
Proof.
  intros sched. induction sched as [|a sched IH]; intros s s' Hs Hd Hex;
    cbn [exec] in Hex.
  - inversion Hex; subst. now split.
  - destruct (step data a s) as [s1| |msg] eqn:Hstep; try discriminate.
    eapply IH; [| |exact Hex].
    + eapply step_sound; eauto.
    + eapply step_draining; eauto.
Qed.
End Draining.

Lemma close_te :
  forall (s : state) (j : nat), te (close j s) = te s.
Proof.
  intros s j. unfold close.
  destruct (sclosed (sg s)); [reflexivity|].
  now destruct (pcount (sg s) - 1 >? 0).
Qed.

Lemma stage_step_te :
  forall (a : actor) (s s' : state),
    (forall j, a <> Term j) ->
    step data a s = Next s' -> te s' = te s.
Proof.
  intros [|j|j|j] s s' Ha Hstep; cbn [step] in Hstep.
  - unfold step_src in Hstep.
    repeat match type of Hstep with
           | context [match ?x with _ => _ end] => destruct x
           end;
      try discriminate; now inversion Hstep.
  - unfold step_worker in Hstep.
    repeat match type of Hstep with
           | context [match ?x with _ => _ end] => destruct x
           end;
      try discriminate; inversion Hstep; subst s';
      try apply close_te; reflexivity.
  - unfold step_quit in Hstep.
    repeat match type of Hstep with
           | context [match ?x with _ => _ end] => destruct x
           end;
      try discriminate; inversion Hstep; subst s'; apply close_te.
  - now destruct (Ha j).
Qed.

Lemma complete_waiting :
  forall s : state, complete s = true -> waiting (terms (te s)) = 0%nat.
Proof.
  intros s. unfold complete, waiting.
  induction (terms (te s)) as [|t ts IH]; cbn; intros H; [reflexivity|].
  apply andb_true_iff in H. destruct H as [Ht Hts].
  destruct t; try discriminate. cbn. now apply IH.
Qed.

(** When the terminal goroutines are through, they have received every
    item of the slice. *)
Lemma drained_all_seen :
  forall s : state,
    (1 <= k)%nat -> sound s -> Par.draining data m k s ->
    complete s = true ->
    Permutation (items data) (seen (te s)).
Proof.
  intros s Hk Hs [Hph Hleft] Hc.
  pose proof (complete_waiting s Hc) as Hw.
  destruct (Hleft ltac:(lia)) as [Hsc Hmd].
  destruct Hph as [[Hd Hi]|[_ [_ [H _]]]]; [|congruence].
  pose proof (snd_sclosed Hs Hsc) as Hlive.
  pose proof (snd_items Hs) as Hit. rewrite Hi, Hmd in Hit.
  assert (Hheld : held (workers (sg s)) = []).
  { apply flat_map_nil_length with (f := @alive T); [|exact Hlive].
    intros [| |od|]; cbn; congruence. }
  assert (Hask : flat_map (@asking T) (workers (sg s)) = []).
  { apply flat_map_nil_length with (f := @alive T); [|exact Hlive].
    intros [| |od|]; cbn; congruence. }
  pose proof (snd_answers Hs) as Hans. unfold asked in Hans.
  rewrite Hask in Hans. cbn in Hans.
  assert (Hsd : srcData (so s) = [])
    by (destruct (srcData (so s)); [reflexivity|cbn in Hans; lia]).
  rewrite Hheld, Hsd, !app_nil_r in Hit. cbn in Hit.
  unfold items in *. rewrite firstn_all2 in Hit; [exact Hit|].
  rewrite items_from_length. lia.
Qed.
End Facts.

(** *** Goroutines that collect what they receive *)

Section Collect.
Variables T X : Type.
Variable f : orderedData T -> X.
Variable data : list T.

Local Abbreviation cstate := (@Par.state T (collect_consumer f)).

Lemma init_gathers :
  forall m k : nat, gathers (@init T m k (collect_consumer f)).
Proof.
  intros m k. unfold gathers. cbn.
  rewrite flat_map_repeat_nil; [constructor|reflexivity].
Qed.

Lemma step_gathers :
  forall (a : actor) (s s' : cstate),
    gathers s -> step data a s = Next s' -> gathers s'.
Proof.
  intros a s s' Hg Hstep.
  assert (Hstage : (forall j, a <> Term j) -> gathers s').
  { intros Ha. unfold gathers in *.
    now rewrite (@stage_step_te T data (collect_consumer f) a s s' Ha Hstep). }
  destruct a as [|j|j|j]; try (apply Hstage; intros ?; discriminate).
  clear Hstage. cbn [step] in Hstep. unfold step_term in Hstep. unfold gathers in *.
  destruct (nth_error (terms (te s)) j) as [[|a|a|]|] eqn:Hnth;
    try discriminate.
  - unfold request in Hstep.
    destruct (midReqClosed (sg s)); [discriminate|].
    inversion Hstep; subst s'; fields.
    pose proof (flat_map_upd (collected (f:=f)) _ j
                  (TWaiting (collect_consumer f) (c_local0 _)) Hnth) as Hp.
    cbn in Hp. now rewrite Hp.
  - destruct (midData (sg s)) as [|od rest].
    + destruct (sclosed (sg s)); [|discriminate].
      inversion Hstep; subst s'. unfold terminalClose; fields.
      pose proof (flat_map_upd (collected (f:=f)) _ j
                    (TExited (collect_consumer f) a) Hnth) as Hp.
      cbn [collected] in Hp. apply Permutation_app_inv_l in Hp.
      now rewrite Hp.
    + cbn [c_op collect_consumer] in Hstep. unfold request in Hstep.
      destruct (midReqClosed (sg s)); [discriminate|].
      inversion Hstep; subst s'; fields.
      pose proof (flat_map_upd (collected (f:=f)) _ j
                    (TWaiting (collect_consumer f) (a ++ [f od])) Hnth)
        as Hp.
      cbn [collected] in Hp. rewrite <- app_assoc in Hp.
      apply Permutation_app_inv_l in Hp.
      rewrite map_app, Hg, Hp. cbn.
      rewrite <- app_assoc. apply Permutation_app_head.
      symmetry. apply Permutation_cons_append.
  - inversion Hstep; subst s'; fields.
    pose proof (flat_map_upd (collected (f:=f)) _ j
                  (TDelivered (collect_consumer f)) Hnth) as Hp.
    cbn [collected app] in Hp.
    rewrite concat_app. cbn [concat]. rewrite app_nil_r.
    rewrite <- app_assoc. now rewrite Hg, Hp.
Qed.

Lemma exec_gathers :
  forall (sched : list actor) (s s' : cstate),
    gathers s -> exec data sched s = Next s' -> gathers s'.
Proof.
  intros sched. induction sched as [|a sched IH]; intros s s' Hg Hex;
    cbn [exec] in Hex.
  - now inversion Hex; subst.
  - destruct (step data a s) as [s1| |msg] eqn:Hstep; try discriminate.
    eapply IH; [|exact Hex]. eapply step_gathers; eauto.
Qed.

Lemma complete_collected :
  forall s : cstate,
    complete s = true -> flat_map (collected (f:=f)) (terms (te s)) = [].
Proof.
  intros s. unfold complete.
  induction (terms (te s)) as [|t ts IH]; cbn; intros H; [reflexivity|].
  apply andb_true_iff in H. destruct H as [Ht Hts].
  destruct t; try discriminate. cbn. now apply IH.
Qed.

(** Whatever the schedule, a collecting terminal operation over
    [Of(data...).Parallel()] ends with slices that hold, between them,
    [f] of every item exactly once. *)
Lemma collect_all :
  forall (m k : nat) (sched : list actor) (s : cstate),
    (1 <= k)%nat ->
    runs_to data m k sched s ->
    Permutation (map f (items data)) (concat (results (te s))).
Proof.
  intros m k sched s Hk [Hex Hc].
  destruct (@exec_draining T data m k (collect_consumer f)
              ltac:(reflexivity) sched _ s
              (init_sound data m k _) (init_draining data m k _) Hex)
    as [Hs Hd].
  pose proof (exec_gathers _ (init_gathers m k) Hex) as Hg.
  unfold gathers in Hg. rewrite (complete_collected s Hc) in Hg.
  rewrite app_nil_r in Hg. rewrite <- Hg.
  apply Permutation_map. now apply drained_all_seen with (m := m) (k := k).
Qed.
End Collect.

(** *** A schedule that runs the pipeline to its end *)

Section Schedule.
Variable T : Type.
Variable data : list T.
Variable C : consumer T.

Local Abbreviation shape := (@Par.shape T C).

Lemma term_starts :
  forall i done req sd ws lv mreq md ts wait sh res sn j,
    nth_error ts j = Some (TStart C) -> wait <> 0%nat ->
    step data (Term j)
      (shape i done req sd ws lv mreq md ts wait sh res sn) =
    Next (shape i done req sd ws lv (S mreq) md
            (upd j (TWaiting C (c_local0 C)) ts) wait sh res sn).
Proof.
  intros. cbn [step]. unfold step_term, request, shape. fields.
  rewrite H. apply Nat.eqb_neq in H0. now rewrite H0.
Qed.

Lemma worker_takes :
  forall i done req sd ws lv mreq md ts wait sh res sn j,
    nth_error ws j = Some (WIdle T) -> lv <> 0%nat ->
    step data (Worker j)
      (shape i done req sd ws lv (S mreq) md ts wait sh res sn) =
    Next (shape i done (S req) sd (upd j (WAsked T) ws) lv mreq md
            ts wait sh res sn).
Proof.
  intros. cbn [step]. unfold step_worker, shape. fields.
  rewrite H. apply Nat.eqb_neq in H0. now rewrite H0.
Qed.

Lemma source_sends :
  forall i req sd ws lv mreq md ts wait sh res sn x,
    nth_error data i = Some x ->
    step data Src
      (shape i false (S req) sd ws lv mreq md ts wait sh res sn) =
    Next (shape (S i) false req
            (sd ++ [mkOD (wrap64 (Z.of_nat i)) x])
            ws lv mreq md ts wait sh res sn).
Proof.
  intros. cbn [step]. unfold step_src, shape, Of_next. fields.
  assert (Hlt : (i < length data)%nat)
    by (apply nth_error_Some; congruence).
  assert (Nat.eqb i (length data) = false) as ->
    by (apply Nat.eqb_neq; lia).
  now rewrite H.
Qed.

Lemma source_ends :
  forall req sd ws lv mreq md ts wait sh res sn,
    step data Src
      (shape (length data) false (S req) sd ws lv mreq md ts wait sh
         res sn) =
    Next (shape (length data) true req sd ws lv mreq md ts wait sh
            res sn).
Proof.
  intros. cbn [step]. unfold step_src, shape, Of_next. fields.
  now rewrite Nat.eqb_refl.
Qed.

Lemma worker_receives :
  forall i done req od sd ws lv mreq md ts wait sh res sn j,
    nth_error ws j = Some (WAsked T) ->
    step data (Worker j)
      (shape i done req (od :: sd) ws lv mreq md ts wait sh res sn) =
    Next (shape i done req sd (upd j (WHolding od) ws) lv mreq md ts
            wait sh res sn).
Proof.
  intros. cbn [step]. unfold step_worker, shape. fields. now rewrite H.
Qed.

Lemma worker_sends :
  forall i done req sd ws lv mreq md ts wait sh res sn j od,
    nth_error ws j = Some (WHolding od) -> lv <> 0%nat ->
    step data (Worker j)
      (shape i done req sd ws lv mreq md ts wait sh res sn) =
    Next (shape i done req sd (upd j (WIdle T) ws) lv mreq
            (md ++ [od]) ts wait sh res sn).
Proof.
  intros. cbn [step]. unfold step_worker, shape. fields.
  rewrite H. apply Nat.eqb_neq in H0. now rewrite H0.
Qed.

Lemma close_shape :
  forall i done req sd ws lv mreq md ts wait sh res sn j,
    close j (shape i done req sd ws (S lv) mreq md ts wait sh res sn) =
    shape i done req sd (upd j (WExited T) ws) lv mreq md ts wait sh
      res sn.
Proof.
  intros. unfold close, shape. fields. cbn [Nat.eqb].
  replace (Z.of_nat (S lv) - 1) with (Z.of_nat lv) by lia.
  destruct lv as [|b]; cbn [Nat.eqb]; [reflexivity|].
  assert ((Z.of_nat (S b) >? 0) = true) as -> by (apply Z.gtb_lt; lia).
  reflexivity.
Qed.

Lemma worker_finds_closed :
  forall i req ws lv mreq md ts wait sh res sn j,
    nth_error ws j = Some (WAsked T) ->
    step data (Worker j)
      (shape i true req [] ws (S lv) mreq md ts wait sh res sn) =
    Next (shape i true req [] (upd j (WExited T) ws) lv mreq md ts
            wait sh res sn).
Proof.
  intros. cbn [step]. unfold step_worker.
  replace (nth_error (workers (sg (shape _ _ _ _ ws _ _ _ _ _ _ _ _))) j)
    with (Some (WAsked T)) by (symmetry; exact H).
  cbn [shape so srcData src of_done]. now rewrite close_shape.
Qed.

Lemma worker_quits :
  forall i req sd ws lv mreq md ts wait sh res sn j,
    nth_error ws j = Some (WIdle T) ->
    step data (Quit j)
      (shape i true req sd ws (S lv) mreq md ts wait sh res sn) =
    Next (shape i true req sd (upd j (WExited T) ws) lv mreq md ts
            wait sh res sn).
Proof.
  intros. cbn [step]. unfold step_quit.
  replace (nth_error (workers (sg (shape _ _ _ _ ws _ _ _ _ _ _ _ _))) j)
    with (Some (WIdle T)) by (symmetry; exact H).
  cbn [shape so src of_done]. now rewrite close_shape.
Qed.

Lemma terminalClose_shape :
  forall i done req sd ws lv mreq md ts wait sh res sn j a sh' sn' md',
    terminalClose j a sh' sn' md'
      (shape i done req sd ws lv mreq md ts (S wait) sh res sn) =
    shape i done req sd ws lv mreq md' (upd j (TExited C a) ts) wait sh'
      res sn'.
Proof.
  intros. unfold terminalClose, shape. fields. cbn [Nat.eqb orb].
  assert ((Z.of_nat (S wait) =? 0) = false) as ->
    by (apply Z.eqb_neq; lia).
  replace (Z.of_nat (S wait) - 1) with (Z.of_nat wait) by lia.
  cbn [negb andb].
  destruct wait as [|w]; cbn [Nat.eqb]; [reflexivity|].
  assert ((Z.of_nat (S w) >? 0) = true) as -> by (apply Z.gtb_lt; lia).
  reflexivity.
Qed.

Lemma term_receives :
  forall i done req sd ws lv mreq od md ts wait sh res sn j a sh' a',
    nth_error ts j = Some (TWaiting C a) -> wait <> 0%nat ->
    c_op C sh a od = (sh', a', true) ->
    step data (Term j)
      (shape i done req sd ws lv mreq (od :: md) ts wait sh res sn) =
    Next (shape i done req sd ws lv (S mreq) md
            (upd j (TWaiting C a') ts) wait sh' res (sn ++ [od])).
Proof.
  intros. cbn [step]. unfold step_term, request, shape. fields.
  rewrite H, H1. apply Nat.eqb_neq in H0. now rewrite H0.
Qed.

Lemma term_leaves :
  forall i done req sd ws mreq ts wait sh res sn j a,
    nth_error ts j = Some (TWaiting C a) ->
    step data (Term j)
      (shape i done req sd ws 0 mreq [] ts (S wait) sh res sn) =
    Next (shape i done req sd ws 0 mreq []
            (upd j (TExited C a) ts) wait sh res sn).
Proof.
  intros. cbn [step]. unfold step_term.
  set (s0 := shape i done req sd ws 0 mreq [] ts (S wait) sh res sn).
  change (nth_error (terms (te s0)) j) with (nth_error ts j). rewrite H.
  change (midData (sg s0)) with (@nil (orderedData T)).
  change (sclosed (sg s0)) with true.
  change (shared (te s0)) with sh. change (seen (te s0)) with sn.
  subst s0. cbv iota. now rewrite terminalClose_shape.
Qed.

Lemma term_delivers :
  forall i done req sd ws lv mreq md ts wait sh res sn j a,
    nth_error ts j = Some (TExited C a) ->
    step data (Term j)
      (shape i done req sd ws lv mreq md ts wait sh res sn) =
    Next (shape i done req sd ws lv mreq md
            (upd j (TDelivered C) ts) wait sh (res ++ [a]) sn).
Proof.
  intros. cbn [step]. unfold step_term, shape. fields. now rewrite H.
Qed.

Lemma exec_app :
  forall (s1 s2 : list actor) (s : Par.state C),
    exec data (s1 ++ s2) s =
    match exec data s1 s with
    | Next s' => exec data s2 s'
    | other => other
    end.
Proof.
  intros s1. induction s1 as [|a s1 IH]; intros s2 s; cbn; [reflexivity|].
  destruct (step data a s); auto.
Qed.

Lemma nth_error_middle :
  forall (A : Type) (l1 l2 : list A) (y : A),
    nth_error (l1 ++ y :: l2) (length l1) = Some y.
Proof.
  intros A l1 l2 y. induction l1 as [|x l1 IH]; cbn; auto.
Qed.

Lemma upd_middle :
  forall (A : Type) (l1 l2 : list A) (x y : A),
    upd (length l1) x (l1 ++ y :: l2) = (l1 ++ [x]) ++ l2.
Proof.
  intros A l1 l2 x y. induction l1 as [|z l1 IH]; cbn; [reflexivity|].
  now rewrite IH.
Qed.

(** The idle goroutines of the stage leave one after the other once the
    source has closed its done channel. *)
Lemma quits_run :
  forall (b : nat) (pre : list (wstate T)) i req sd mreq md ts wait sh res sn,
    exists ws,
      exec data (map Quit (seq (length pre) b))
        (shape i true req sd (pre ++ repeat (WIdle T) b) b mreq md ts wait
           sh res sn) =
      Next (shape i true req sd ws 0 mreq md ts wait sh res sn).
Proof.
  intros b. induction b as [|b IH]; intros pre i req sd mreq md ts wait sh
                                          res sn.
  - eexists. reflexivity.
  - cbn [seq map exec repeat].
    rewrite worker_quits by apply nth_error_middle.
    rewrite upd_middle.
    destruct (IH (pre ++ [WExited T]) i req sd mreq md ts wait sh res sn)
      as [ws Hws].
    rewrite length_app in Hws. cbn [length] in Hws.
    rewrite Nat.add_1_r in Hws. exists ws. exact Hws.
Qed.

(** The terminal goroutines that never got an item send their request,
    find [nextData] closed and leave. *)
Lemma latecomers_run :
  forall (b : nat) (pre : list (tstate C)) i done req sd ws mreq sh res sn,
    exists mreq',
      exec data (flat_map (fun j => [Term j; Term j]) (seq (length pre) b))
        (shape i done req sd ws 0 mreq [] (pre ++ repeat (TStart C) b) b
           sh res sn) =
      Next (shape i done req sd ws 0 mreq' []
              (pre ++ repeat (TExited C (c_local0 C)) b) 0 sh res sn).
Proof.
  intros b. induction b as [|b IH]; intros pre i done req sd ws mreq sh res
                                          sn.
  - eexists. reflexivity.
  - cbn [seq flat_map app exec repeat].
    rewrite term_starts by (try apply nth_error_middle; lia).
    rewrite upd_middle.
    rewrite term_leaves with (a := c_local0 C)
      by (rewrite <- app_assoc; apply nth_error_middle).
    rewrite <- app_assoc. cbn [app]. rewrite upd_middle.
    destruct (IH (pre ++ [TExited C (c_local0 C)]) i done req sd ws
                (S mreq) sh res sn) as [mreq' Hm].
    rewrite length_app in Hm. cbn [length] in Hm.
    rewrite Nat.add_1_r in Hm. exists mreq'. rewrite Hm.
    rewrite <- app_assoc. reflexivity.
Qed.

(** The results are handed over in the order of the goroutines. *)
Lemma deliveries_run :
  forall (locals : list (c_local C)) (pre : list (tstate C))
         i done req sd ws lv mreq md wait sh res sn,
    exec data (map Term (seq (length pre) (length locals)))
      (shape i done req sd ws lv mreq md
         (pre ++ map (TExited C) locals) wait sh res sn) =
    Next (shape i done req sd ws lv mreq md
            (pre ++ repeat (TDelivered C) (length locals)) wait sh
            (res ++ locals) sn).
Proof.
  intros locals. induction locals as [|a locals IH];
    intros pre i done req sd ws lv mreq md wait sh res sn.
  - cbn. now rewrite !app_nil_r.
  - cbn [length seq map exec repeat].
    rewrite term_delivers with (a := a) by apply nth_error_middle.
    rewrite upd_middle.
    pose proof (IH (pre ++ [TDelivered C]) i done req sd ws lv mreq md
                  wait sh (res ++ [a]) sn) as Hd.
    rewrite length_app in Hd. cbn [length] in Hd.
    rewrite Nat.add_1_r in Hd. rewrite Hd.
    rewrite <- !app_assoc. reflexivity.
Qed.

Section Existence.
Hypothesis continues :
  forall sh a od, In od (items_from 0 data) -> snd (c_op C sh a od) = true.

(** One goroutine of the stage and one terminal goroutine pass the
    items along, one at a time. *)
Lemma loop_runs :
  forall (rest : list T) (i : nat) sh a sn (m' k' : nat),
    (i <= length data)%nat -> skipn i data = rest ->
    exists sched sh' a' sn',
      exec data sched
        (shape i false 0 [] (WIdle T :: repeat (WIdle T) m') (S m') 1 []
           (TWaiting C a :: repeat (TStart C) k') (S k') sh [] sn) =
      Next
        (shape (length data) false 0 []
           (WIdle T :: repeat (WIdle T) m') (S m') 1 []
           (TWaiting C a' :: repeat (TStart C) k') (S k') sh' [] sn').
Proof.
  intros rest. induction rest as [|x rest IH];
    intros i sh a sn m' k' Hi Hsk.
  - assert (i = length data) as ->.
    { destruct (Nat.eq_dec i (length data)) as [|Hne]; [assumption|].
      assert (Hlt : (i < length data)%nat) by lia.
      apply nth_error_Some in Hlt.
      destruct (nth_error data i) as [y|] eqn:Hy; [|congruence].
      rewrite (skipn_nth_error _ _ Hy) in Hsk. discriminate. }
    exists [], sh, a, sn. reflexivity.
  - assert (Hx : nth_error data i = Some x).
    { clear - Hsk. revert i Hsk.
      induction data as [|y l IHl]; intros [|i] Hsk; cbn in *;
        try discriminate; [now inversion Hsk|now apply IHl]. }
    assert (Hin : In (mkOD (wrap64 (Z.of_nat i)) x) (items_from 0 data)).
    { eapply nth_error_In. apply (@items_from_nth T data 0 i x Hx). }
    pose proof (continues sh a _ Hin) as Hc.
    destruct (c_op C sh a (mkOD (wrap64 (Z.of_nat i)) x))
      as [[sh1 a1] c] eqn:Hop.
    cbn in Hc. subst c.
    assert (Hlt : (i < length data)%nat)
      by (apply nth_error_Some; congruence).
    destruct (IH (S i) sh1 a1 (sn ++ [mkOD (wrap64 (Z.of_nat i)) x]) m' k'
                ltac:(lia))
      as [sched [sh' [a' [sn' Hrun]]]].
    { rewrite (skipn_nth_error _ _ Hx) in Hsk. now inversion Hsk. }
    exists ([Worker 0; Src; Worker 0; Worker 0; Term 0] ++ sched),
      sh', a', sn'.
    rewrite exec_app. cbn [exec].
    rewrite worker_takes by (try reflexivity; lia). cbn [upd].
    rewrite (source_sends _ _ _ _ _ _ _ _ _ _ _ _ Hx). cbn [app].
    rewrite worker_receives by reflexivity. cbn [upd].
    rewrite worker_sends
      with (od := mkOD (wrap64 (Z.of_nat i)) x)
      by (try reflexivity; lia).
    cbn [upd app].
    erewrite term_receives
      by (first [exact Hop | reflexivity | lia]).
    cbn [upd]. exact Hrun.
Qed.

(** For every slice and every number of goroutines there is a schedule
    that takes the pipeline from its start to the end of the terminal
    operation. *)
Lemma full_run_exists :
  forall m k : nat,
    (1 <= m)%nat -> (1 <= k)%nat ->
    exists sched s, @runs_to T data m k C sched s.
Proof.
  intros [|m'] [|k'] Hm Hk; try lia.
  destruct (@loop_runs data 0%nat (c_shared0 C) (c_local0 C) [] m' k'
              ltac:(lia) eq_refl) as [loop [sh [a [sn Hloop]]]].
  destruct (quits_run m' [WExited T] (length data) 0 [] 0 []
              (TWaiting C a :: repeat (TStart C) k') (S k') sh [] sn)
    as [ws Hq].
  destruct (latecomers_run k' [TExited C a] (length data) true 0 [] ws 0
              sh [] sn) as [mreq' Hl].
  pose proof (deliveries_run (a :: repeat (c_local0 C) k') []
                (length data) true 0 [] ws 0 mreq' [] 0 sh [] sn) as Hd.
  cbn [length app] in Hq, Hl, Hd.
  rewrite map_cons, map_repeat in Hd.
  eexists
    ([Term 0] ++ loop ++ [Worker 0; Src; Worker 0]
     ++ map Quit (seq 1 m') ++ [Term 0]
     ++ flat_map (fun j => [Term j; Term j]) (seq 1 k')
     ++ map Term (seq 0 (length (a :: repeat (c_local0 C) k')))),
    _.
  split.
  - change (@init T (S m') (S k') C)
      with (shape 0 false 0 [] (WIdle T :: repeat (WIdle T) m') (S m') 0 []
              (TStart C :: repeat (TStart C) k') (S k') (c_shared0 C) [] []).
    rewrite exec_app. cbn [exec].
    rewrite term_starts by (try reflexivity; lia). cbn [upd].
    rewrite exec_app, Hloop.
    rewrite exec_app. cbn [exec].
    rewrite worker_takes by (try reflexivity; lia). cbn [upd].
    rewrite source_ends.
    rewrite worker_finds_closed by reflexivity. cbn [upd].
    rewrite exec_app, Hq.
    rewrite exec_app. cbn [exec].
    rewrite term_leaves with (a := a) by reflexivity. cbn [upd].
    rewrite exec_app, Hl. exact Hd.
  - unfold complete, shape. fields. cbn [app].
    apply forallb_forall. intros t Ht.
    apply repeat_spec in Ht. now subst t.
Qed.
End Existence.
End Schedule.

(** *** Before any terminal goroutine leaves *)

Section Early.
Variable T : Type.
Variable data : list T.
Variables m k : nat.
Variable C : consumer T.

Local Abbreviation state := (@Par.state T C).
Local Abbreviation undisturbed := (@Par.undisturbed T data m C).

Lemma init_undisturbed : undisturbed (@init T m k C).
Proof.
  intros _. right. cbn. unfold live.
  repeat split. now rewrite flat_map_repeat_one with (b := tt).
Qed.

Lemma close_undisturbed :
  forall (s : state) (j : nat),
    undisturbed s ->
    of_done (src (so s)) = true \/ midReqClosed (sg s) = true ->
    undisturbed (close j s).
Proof.
  intros s j Hu Hwhy. unfold Par.undisturbed. rewrite close_te.
  intros Hdep. specialize (Hu Hdep).
  assert (Hph1 : of_done (src (so s)) = true /\
                 of_i (src (so s)) = length data).
  { destruct Hu as [H|[Hd [_ [_ Hm]]]]; [exact H|].
    destruct Hwhy; congruence. }
  left. unfold close.
  destruct (sclosed (sg s)); [|destruct (pcount (sg s) - 1 >? 0)];
    fields; exact Hph1.
Qed.

Lemma step_undisturbed :
  forall (a : actor) (s s' : state),
    Par.sound data s -> undisturbed s -> step data a s = Next s' ->
    undisturbed s'.
Proof.
  intros [|j|j|j] s s' Hs Hu Hstep; cbn [step] in Hstep.
  - (* the source *)
    unfold Par.undisturbed.
    rewrite (@stage_step_te T data C Src s s') by
      (first [exact Hstep | intros ?; discriminate]).
    intros Hdep. specialize (Hu Hdep). unfold step_src in Hstep.
    destruct (of_done (src (so s))) eqn:Hd.
    + destruct (srcReq (so s)); [discriminate|].
      inversion Hstep; subst s'; fields. rewrite Hd.
      destruct Hu as [H|[H _]]; [now left|congruence].
    + destruct Hu as [[H _]|[_ [Hl [Hsc Hm]]]]; [congruence|].
      destruct (srcReq (so s)).
      * rewrite (snd_closed Hs), Hsc in Hstep. discriminate.
      * destruct (Of_next data (src (so s))) as [r st'] eqn:Hof.
        destruct (@Of_next_cases T data _ _ _ Hd (snd_index Hs) Hof)
          as [[-> [Hi ->]]|[x [Hx [-> ->]]]];
          inversion Hstep; subst s'; fields; auto.
  - (* a goroutine of the stage *)
    unfold step_worker in Hstep.
    destruct (nth_error (workers (sg s)) j) as [[| |od|]|] eqn:Hnth;
      try discriminate.
    + destruct (midReq (sg s)).
      * destruct (midReqClosed (sg s)) eqn:Hm; [|discriminate].
        inversion Hstep; subst s'.
        apply close_undisturbed; [exact Hu|now right].
      * destruct (srcReqClosed (so s)); [discriminate|].
        inversion Hstep; subst s'.
        pose proof (flat_map_upd_length (@alive T) _ j (WAsked T) Hnth)
          as Hl.
        cbn [alive length] in Hl.
        intros Hdep. specialize (Hu Hdep). fields. unfold live in *.
        destruct Hu as [H|[H1 [H2 H3]]]; [now left|right].
        repeat split; try tauto. lia.
    + destruct (srcData (so s)) as [|od rest].
      * destruct (of_done (src (so s))) eqn:Hd; [|discriminate].
        inversion Hstep; subst s'.
        apply close_undisturbed; [exact Hu|now left].
      * inversion Hstep; subst s'.
        pose proof (flat_map_upd_length (@alive T) _ j (WHolding od) Hnth)
          as Hl.
        cbn [alive length] in Hl.
        intros Hdep. specialize (Hu Hdep). fields. unfold live in *.
        destruct Hu as [H|[H1 [H2 H3]]]; [now left|right].
        repeat split; try tauto. lia.
    + destruct (sclosed (sg s)) eqn:Hsc; [discriminate|].
      inversion Hstep; subst s'.
      pose proof (flat_map_upd_length (@alive T) _ j (WIdle T) Hnth) as Hl.
      cbn [alive length] in Hl.
      intros Hdep. specialize (Hu Hdep). fields. unfold live in *.
      destruct Hu as [H|[H1 [H2 [H3 H4]]]]; [now left|right].
      repeat split; auto. lia.
  - (* leaving on the closed done channel *)
    unfold step_quit in Hstep.
    destruct (nth_error (workers (sg s)) j) as [[| |od|]|]; try discriminate.
    destruct (of_done (src (so s))) eqn:Hd; [|discriminate].
    inversion Hstep; subst s'.
    apply close_undisturbed; [exact Hu|now left].
  - (* a terminal goroutine *)
    unfold step_term in Hstep. unfold Par.undisturbed in *.
    destruct (nth_error (terms (te s)) j) as [[|a|a|]|] eqn:Hnth;
      try discriminate.
    + unfold request in Hstep.
      destruct (midReqClosed (sg s)) eqn:Hm; [discriminate|].
      inversion Hstep; subst s'.
      pose proof (flat_map_upd_length (@leaving T C) _ j
                    (TWaiting C (c_local0 C)) Hnth) as Hp.
      cbn [leaving gone length] in Hp.
      intros Hdep. fields. unfold departed in *. cbn [terms te] in Hdep.
      specialize (Hu ltac:(lia)). try rewrite Hm in Hu. exact Hu.
    + destruct (midData (sg s)) as [|od rest] eqn:Hmd.
      * destruct (sclosed (sg s)) eqn:Hsc; [|discriminate].
        inversion Hstep; subst s'. unfold terminalClose.
        pose proof (flat_map_upd_length (@leaving T C) _ j
                      (TExited C a) Hnth) as Hp.
        cbn [leaving gone length] in Hp.
        intros Hdep. unfold departed in *. cbn [terms te] in Hdep. lia.
      * destruct (c_op C (shared (te s)) a od) as [[sh' a'] continue].
        destruct continue.
        -- unfold request in Hstep.
           destruct (midReqClosed (sg s)) eqn:Hm; [discriminate|].
           inversion Hstep; subst s'.
           pose proof (flat_map_upd_length (@leaving T C) _ j
                         (TWaiting C a') Hnth) as Hp.
           cbn [leaving gone length] in Hp.
           intros Hdep. fields. unfold departed in *.
           cbn [terms te] in Hdep.
           specialize (Hu ltac:(lia)). try rewrite Hm in Hu. exact Hu.
        -- inversion Hstep; subst s'. unfold terminalClose.
           pose proof (flat_map_upd_length (@leaving T C) _ j
                         (TExited C a') Hnth) as Hp.
           cbn [leaving gone length] in Hp.
           intros Hdep. unfold departed in *. cbn [terms te] in Hdep. lia.
    + inversion Hstep; subst s'.
      pose proof (flat_map_upd_length (@leaving T C) _ j
                    (TDelivered C) Hnth) as Hp.
      pose proof (flat_map_member_length (@leaving T C) _ j Hnth) as Hq.
      cbn [leaving gone length] in Hp, Hq.
      intros Hdep. unfold departed in *. cbn [terms te] in Hdep. lia.
Qed.
End Early.

(** *** Terminal goroutines that take one item and leave *)

Section OneRequest.
Variable T : Type.
Variable data : list T.
Variable C : consumer T.
Hypothesis never_continue :
  forall sh a od, snd (c_op C sh a od) = false.

Local Abbreviation state := (@Par.state T C).
Local Abbreviation frugal := (@Par.frugal T C).

Lemma init_frugal : forall m k : nat, frugal (@init T m k C).
Proof.
  intros m k. unfold Par.frugal. cbn. lia.
Qed.

Lemma close_frugal :
  forall (s : state) (j : nat), frugal s -> frugal (close j s).
Proof.
  intros s j H. unfold Par.frugal in *. rewrite close_te.
  unfold close.
  destruct (sclosed (sg s)); [|destruct (pcount (sg s) - 1 >? 0)];
    fields; exact H.
Qed.

Lemma step_frugal :
  forall (a : actor) (s s' : state),
    Par.sound data s -> frugal s -> step data a s = Next s' -> frugal s'.
Proof.
  intros [|j|j|j] s s' Hs Hf Hstep; cbn [step] in Hstep.
  - unfold Par.frugal in *.
    rewrite (@stage_step_te T data C Src s s') by
      (first [exact Hstep | intros ?; discriminate]).
    unfold step_src in Hstep.
    destruct (of_done (src (so s))) eqn:Hd.
    + destruct (srcReq (so s)); [discriminate|].
      inversion Hstep; subst s'; fields. lia.
    + destruct (srcReq (so s)).
      * destruct (srcReqClosed (so s)); [|discriminate].
        inversion Hstep; subst s'; fields. lia.
      * destruct (Of_next data (src (so s))) as [r st'] eqn:Hof.
        destruct (@Of_next_cases T data _ _ _ Hd (snd_index Hs) Hof)
          as [[-> [Hi ->]]|[x [Hx [-> ->]]]];
          inversion Hstep; subst s'; fields; lia.
  - unfold step_worker in Hstep.
    destruct (nth_error (workers (sg s)) j) as [[| |od|]|]; try discriminate.
    + destruct (midReq (sg s)) eqn:Hmr.
      * destruct (midReqClosed (sg s)); [|discriminate].
        inversion Hstep; subst s'. now apply close_frugal.
      * destruct (srcReqClosed (so s)); [discriminate|].
        inversion Hstep; subst s'. unfold Par.frugal in *; fields. lia.
    + destruct (srcData (so s)).
      * destruct (of_done (src (so s))); [|discriminate].
        inversion Hstep; subst s'. now apply close_frugal.
      * inversion Hstep; subst s'. unfold Par.frugal in *; fields. lia.
    + destruct (sclosed (sg s)); [discriminate|].
      inversion Hstep; subst s'. unfold Par.frugal in *; fields. lia.
  - unfold step_quit in Hstep.
    destruct (nth_error (workers (sg s)) j) as [[| |od|]|]; try discriminate.
    destruct (of_done (src (so s))); [|discriminate].
    inversion Hstep; subst s'. now apply close_frugal.
  - unfold step_term in Hstep. unfold Par.frugal, started in *.
    destruct (nth_error (terms (te s)) j) as [[|a|a|]|] eqn:Hnth;
      try discriminate.
    + unfold request in Hstep.
      destruct (midReqClosed (sg s)); [discriminate|].
      inversion Hstep; subst s'; fields.
      pose proof (flat_map_upd_length (@begun T C) _ j
                    (TWaiting C (c_local0 C)) Hnth) as Hp.
      cbn [begun length] in Hp. lia.
    + pose proof (fun w => flat_map_upd_length (@begun T C)
                              (terms (te s)) j w Hnth) as Hp.
      destruct (midData (sg s)) as [|od rest].
      * destruct (sclosed (sg s)); [|discriminate].
        inversion Hstep; subst s'. unfold terminalClose; fields.
        specialize (Hp (TExited C a)). cbn [begun length] in Hp. lia.
      * pose proof (never_continue (shared (te s)) a od) as Hc.
        destruct (c_op C (shared (te s)) a od) as [[sh' a'] continue].
        cbn in Hc. subst continue.
        inversion Hstep; subst s'. unfold terminalClose; fields.
        specialize (Hp (TExited C a')). cbn [begun length] in Hp. lia.
    + inversion Hstep; subst s'; fields.
      pose proof (flat_map_upd_length (@begun T C) _ j
                    (TDelivered C) Hnth) as Hp.
      cbn [begun length] in Hp. lia.
Qed.
End OneRequest.

(** *** FindFirst *)

Section First.
Variable T : Type.
Variable xs : list T.
Variable m : nat.

Local Abbreviation fstate := (@Par.state T (findFirst_consumer T)).

Lemma init_finds_first :
  finds_first xs (@init T m 1 (findFirst_consumer T)).
Proof. unfold finds_first. cbn. auto. Qed.

Lemma step_finds_first :
  forall (a : actor) (s s' : fstate),
    Par.sound xs s -> Par.undisturbed xs m s -> Par.frugal s ->
    finds_first xs s -> step xs a s = Next s' -> finds_first xs s'.
Proof.
  intros a s s' Hs Hu Hf Hff Hstep.
  assert (Hstage : (forall j, a <> Term j) -> finds_first xs s').
  { intros Ha. unfold finds_first in *.
    now rewrite (@stage_step_te T xs _ a s s' Ha Hstep). }
  destruct a as [|j|j|j]; try (apply Hstage; intros ?; discriminate).
  clear Hstage. cbn [step] in Hstep. unfold step_term in Hstep.
  unfold finds_first in *. unfold Par.frugal, started in Hf.
  unfold Par.undisturbed, departed in Hu.
  destruct (terms (te s)) as [|t [|t2 ts]] eqn:Hts;
    try contradiction; [|destruct t as [|[?|]|?|]; contradiction].
  destruct j as [|j]; [|destruct j; discriminate].
  cbn [nth_error] in Hstep.
  destruct t as [|[x|]|a|]; try contradiction; try discriminate.
  - (* the first request *)
    unfold request in Hstep.
    destruct (midReqClosed (sg s)); [discriminate|].
    inversion Hstep; subst s'; fields. try rewrite Hts. cbn. exact Hff.
  - (* an item arrives, or the channel is closed *)
    destruct Hff as [Hres Hseen].
    destruct (midData (sg s)) as [|od rest] eqn:Hmd.
    + destruct (sclosed (sg s)) eqn:Hsc; [|discriminate].
      inversion Hstep; subst s'. unfold terminalClose; fields.
      try rewrite Hts. cbn [upd]. split; [exact Hres|].
      cbn in Hu. destruct (Hu eq_refl) as [[Hd Hi]|[_ [_ [H _]]]];
        [|congruence].
      pose proof (snd_sclosed Hs Hsc) as Hlive.
      pose proof (snd_items Hs) as Hit.
      rewrite Hi, Hmd, Hseen in Hit.
      assert (Hheld : held (workers (sg s)) = []).
      { apply flat_map_nil_length with (f := @alive T); [|exact Hlive].
        intros [| |od|]; cbn; congruence. }
      assert (Hask : flat_map (@asking T) (workers (sg s)) = []).
      { apply flat_map_nil_length with (f := @alive T); [|exact Hlive].
        intros [| |od|]; cbn; congruence. }
      pose proof (snd_answers Hs) as Hans. unfold asked in Hans.
      rewrite Hask in Hans. cbn in Hans.
      assert (Hsd : srcData (so s) = [])
        by (destruct (srcData (so s)); [reflexivity|cbn in Hans; lia]).
      rewrite Hheld, Hsd in Hit. cbn in Hit.
      unfold items in Hit.
      rewrite firstn_all2 in Hit by (rewrite items_from_length; lia).
      apply Permutation_sym, Permutation_nil in Hit.
      destruct xs; [reflexivity|discriminate].
    + cbn [c_op findFirst_consumer findFirst_closure] in Hstep.
      inversion Hstep; subst s'. unfold terminalClose; fields.
      try rewrite Hts. cbn [upd]. split; [exact Hres|].
      pose proof (snd_items Hs) as Hit. rewrite Hmd in Hit.
      assert (Hin : In od (firstn (of_i (src (so s))) (items xs))).
      { eapply Permutation_in; [apply Permutation_sym, Hit|].
        apply in_or_app. right. now left. }
      try rewrite Hts in Hf. cbn in Hf.
      assert (Hi : (of_i (src (so s)) <= 1)%nat) by lia.
      unfold items in Hin.
      destruct (of_i (src (so s))) as [|[|i]]; [destruct Hin| |lia].
      destruct xs as [|x l]; [destruct Hin|].
      cbn in Hin. destruct Hin as [<-|[]]. reflexivity.
  - (* the result is handed over *)
    destruct Hff as [Hres Ha].
    inversion Hstep; subst s'; fields. try rewrite Hts. rewrite Hres. cbn.
    now subst a.
Qed.

Lemma exec_finds_first :
  forall (sched : list actor) (s s' : fstate),
    Par.sound xs s -> Par.undisturbed xs m s -> Par.frugal s ->
    finds_first xs s -> exec xs sched s = Next s' -> finds_first xs s'.
Proof.
  intros sched. induction sched as [|a sched IH];
    intros s s' Hs Hu Hf Hff Hex; cbn [exec] in Hex.
  - now inversion Hex; subst.
  - destruct (step xs a s) as [s1| |msg] eqn:Hstep; try discriminate.
    apply (IH s1 s'); auto.
    + eapply step_sound; eauto.
    + eapply step_undisturbed; eauto.
    + eapply step_frugal; eauto; intros; reflexivity.
    + eapply step_finds_first; eauto.
Qed.

(** Whatever the schedule, [FindFirst] over [Of(xs...).Parallel()]
    returns the first element of [xs], or nothing when [xs] is empty. *)
Lemma FindFirst_parallel_first :
  forall (sched : list actor) (s : fstate),
    runs_to xs m 1 sched s -> FindFirst_parallel s = hd_error xs.
Proof.
  intros sched s [Hex Hc].
  pose proof (exec_finds_first sched (init_sound xs m 1 _)
                (@init_undisturbed T xs m 1 _)
                (@init_frugal T _ m 1) init_finds_first Hex) as Hff.
  unfold finds_first in Hff. unfold FindFirst_parallel.
  unfold complete in Hc.
  destruct (terms (te s)) as [|t [|t2 ts]]; try contradiction;
    [|destruct t as [|[?|]|?|]; contradiction].
  destruct t as [|[x|]|a|]; try discriminate. now rewrite Hff.
Qed.
End First.

Section FirstRun.
Variable T : Type.

Lemma term_breaks :
  forall (data : list T) (C : consumer T)
         i done req sd ws lv mreq od md ts wait sh res sn j a sh' a',
    nth_error ts j = Some (TWaiting C a) ->
    c_op C sh a od = (sh', a', false) ->
    step data (Term j)
      (@Par.shape T C i done req sd ws lv mreq (od :: md) ts (S wait) sh
         res sn) =
    Next (@Par.shape T C i done req sd ws lv mreq md
            (upd j (TExited C a') ts) wait sh' res (sn ++ [od])).
Proof.
  intros. cbn [step]. unfold step_term.
  set (s0 := Par.shape i done req sd ws lv mreq (od :: md) ts (S wait)
               sh res sn).
  change (nth_error (terms (te s0)) j) with (nth_error ts j). rewrite H.
  change (midData (sg s0)) with (od :: md).
  change (shared (te s0)) with sh. change (seen (te s0)) with sn.
  cbv iota. rewrite H0. subst s0. now rewrite terminalClose_shape.
Qed.

(** [FindFirst] over [Of(xs...).Parallel()] has a schedule that runs it
    to its end, whatever the number of goroutines of the stage. *)
Lemma first_run_exists :
  forall (xs : list T) (m : nat),
    (1 <= m)%nat ->
    exists sched s, @runs_to T xs m 1 (findFirst_consumer T) sched s.
Proof.
  intros [|x l] m Hm.
  - apply full_run_exists; auto; intros sh a od [].
  - destruct m as [|m']; [lia|].
    exists [Term 0; Worker 0; Src; Worker 0; Worker 0; Term 0; Term 0].
    eexists. split.
    + change (@init T (S m') 1 (findFirst_consumer T))
        with (@Par.shape T (findFirst_consumer T) 0 false 0 []
                (WIdle T :: repeat (WIdle T) m') (S m') 0 []
                [TStart (findFirst_consumer T)] 1 tt [] []).
      cbn [exec].
      rewrite term_starts by (try reflexivity; lia). cbn [upd].
      rewrite worker_takes by (try reflexivity; lia). cbn [upd].
      rewrite source_sends with (x := x) by reflexivity. cbn [app].
      rewrite worker_receives by reflexivity. cbn [upd].
      rewrite worker_sends
        with (od := mkOD (wrap64 (Z.of_nat 0)) x)
        by (try reflexivity; lia).
      cbn [upd app].
      erewrite term_breaks by reflexivity. cbn [upd].
      erewrite term_delivers by reflexivity. cbn [upd]. reflexivity.
    + reflexivity.
Qed.
End FirstRun.
End ParFacts.

(** ** ToSlice *)

Lemma terminalOpOrderedData_yields :
  forall (T A : Type) (op : A -> orderedData T -> A)
         (ods : list (orderedData T)) (a : A) (p : producer T),
    yields p ods ->
    exists p',
      terminalOpOrderedData (S (length ods)) op a p =
      Finished (fold_left op ods a, p').
Proof.
  intros T A op ods. induction ods as [|od ods IH]; intros a p Hy.
  - destruct (yields_pull_nil Hy) as [p' [Hp _]].
    exists p'. cbn. now rewrite Hp.
  - destruct (yields_pull_cons Hy) as [p' [Hp Hy']].
    destruct (IH (op a od) p' Hy') as [p2 H2].
    exists p2. cbn [length terminalOpOrderedData fold_left].
    now rewrite Hp.
Qed.

Lemma fold_left_snoc :
  forall (A B : Type) (f : A -> B) (l : list A) (acc : list B),
    fold_left (fun acc x => acc ++ [f x]) l acc = acc ++ map f l.
Proof.
  intros A B f l. induction l as [|x l IH]; intros acc; cbn.
  - now rewrite app_nil_r.
  - rewrite IH. now rewrite <- app_assoc.
Qed.

Lemma Parallel_Of :
  forall (T : Type) (data : list T) (gmp : Z),
    Parallel gmp (Of data) =
    Ok {| closed := false; parallel := true; parallelCount := gmp;
          ordered := false; terminalCloseCount := gmp;
          chans := Fanout gmp (Of_producer data) |}.
Proof. reflexivity. Qed.

(** Over [Of], [ToSlice] gives back the slice handed to [Of], in its
    order: on the sequential stream, and on [Of(data...).Parallel()] for every
    number of goroutines and every schedule, whichever sort meeting the
    contract of [sort.Slice] is used; and the parallel pipeline has a
    schedule that runs it to the end. *)
Theorem ToSlice_restores_encounter_order :
  forall (T : Type) (data : list T)
         (sorter : list (orderedData T) -> list (orderedData T)),
    Z.of_nat (length data) <= maxInt ->
    sorts (@order_less T) sorter ->
    ToSlice_direct sorter (S (length data)) (Of_producer data) =
    Finished data /\
    forall gmp : nat,
      (1 <= gmp)%nat ->
      (exists st,
          Parallel (Z.of_nat gmp) (Of data) = Ok st /\
          parallelCount st = Z.of_nat gmp /\
          chans st = Fanout (Z.of_nat gmp) (Of_producer data)) /\
      (exists sched s,
          @Par.runs_to T data gmp gmp (toSlice_consumer T) sched s) /\
      (forall sched s,
          @Par.runs_to T data gmp gmp (toSlice_consumer T) sched s ->
          ToSlice_parallel sorter s = data).
Proof.
  intros T data sorter Hlen Hsort.
  assert (Hord : strictly_ordered (items_from 0 data)).
  { apply items_from_ordered. unfold maxInt in Hlen. cbn [Nat.add]. lia. }
  split.
  - unfold ToSlice_direct.
    destruct (@terminalOpOrderedData_yields T _
                (fun ods od => ods ++ [od]) (items_from 0 data) []
                (Of_producer data) (Of_yields data)) as [p' Hrun].
    rewrite items_from_length in Hrun. rewrite Hrun. cbn [run_map fst].
    rewrite (fold_left_snoc (fun od => od)). cbn [app]. rewrite map_id.
    rewrite (sorter_fixes_ordered Hsort Hord).
    now rewrite map_data_items_from.
  - intros gmp Hg. split; [|split].
    + eexists. rewrite Parallel_Of. repeat split.
    + apply ParFacts.full_run_exists; auto; intros; reflexivity.
    + intros sched s Hrun. unfold ToSlice_parallel.
      pose proof (@ParFacts.collect_all T _ (fun od => od) data gmp gmp
                    sched s Hg Hrun) as Hperm.
      rewrite map_id in Hperm.
      destruct (Hsort (concat (Par.results (Par.te s)))) as [Hp Hs].
      rewrite <- (@sorted_unique T (items_from 0 data)
                    (sorter (concat (Par.results (Par.te s)))) Hord Hs).
      * apply map_data_items_from.
      * now rewrite <- Hp.
Qed.

Lemma ToSlice_restores_encounter_order_witness :
  ToSlice_direct (stable_sort (@order_less Z)) 4 (Of_producer [3; 1; 2]) =
  Finished [3; 1; 2] /\
  exists sched s,
    @Par.runs_to Z [3; 1; 2] 2 2 (toSlice_consumer Z) sched s /\
    ToSlice_parallel (stable_sort (@order_less Z)) s = [3; 1; 2].
Proof.
  assert (Hlen : Z.of_nat (length [3; 1; 2]) <= maxInt)
    by (vm_compute; discriminate).
  assert (Hsort : sorts (@order_less Z) (stable_sort (@order_less Z)))
    by (apply stable_sort_sorts with (key := @order Z); reflexivity).
  destruct (@ToSlice_restores_encounter_order Z [3; 1; 2]
              (stable_sort (@order_less Z)) Hlen Hsort) as [Hseq Hpar].
  split; [exact Hseq|].
  destruct (Hpar 2%nat ltac:(lia)) as [_ [[sched [s Hrun]] Hall]].
  exists sched, s. split; [exact Hrun|]. exact (Hall sched s Hrun).
Defined.

(** ** Sorted *)

(** C3, as the code has it.  [Sorted] drains its upstream to the end,
    sorts what it got with a sort that meets the contract of
    [slices.SortFunc], and returns the stream [Of] makes of the result:
    sequential, numbered from 0.  On [Of(xs...).Parallel()] this holds
    for every number of goroutines and every schedule, and a schedule
    that runs to the end exists. *)
Theorem Sorted_sorts_and_renumbers :
  forall (T : Type) (cmp : T -> T -> Z) (sorter : list T -> list T)
         (xs : list T),
    sorts (cmp_less cmp) sorter ->
    (forall (p : producer T) (ods : list (orderedData T)),
        yields p ods -> map (@data T) ods = xs ->
        exists st,
          Sorted_direct sorter (S (length ods)) p = Finished st /\
          sorted_source cmp xs st) /\
    forall gmp : nat,
      (1 <= gmp)%nat ->
      (exists sched s,
          @Par.runs_to T xs gmp gmp (sorted_consumer T) sched s) /\
      (forall sched s,
          @Par.runs_to T xs gmp gmp (sorted_consumer T) sched s ->
          sorted_source cmp xs (Sorted_parallel sorter s)).
Proof.
  intros T cmp sorter xs Hsort.
  assert (Hof : forall l, Permutation xs l ->
                          sorted_source cmp xs (Of (sorter l))).
  { intros l Hl. destruct (Hsort l) as [Hp Hs].
    exists (sorter l). repeat split; auto.
    - now rewrite Hl.
    - apply Of_yields. }
  split.
  - intros p ods Hy Hxs. unfold Sorted_direct, terminalOp.
    destruct (@terminalOpOrderedData_yields T _
                (fun a od => a ++ [data od]) ods [] p Hy) as [p' Hrun].
    rewrite Hrun. cbn [run_map fst].
    rewrite (fold_left_snoc (@data T)). cbn [app]. rewrite Hxs.
    eexists. split; [reflexivity|]. now apply Hof.
  - intros gmp Hg. split.
    + apply ParFacts.full_run_exists; auto; intros; reflexivity.
    + intros sched s Hrun. unfold Sorted_parallel. apply Hof.
      pose proof (@ParFacts.collect_all T _ (@data T) xs gmp gmp
                    sched s Hg Hrun) as Hperm.
      unfold Par.items in Hperm.
      now rewrite map_data_items_from in Hperm.
Qed.

Lemma Sorted_sorts_and_renumbers_witness :
  exists st,
    Sorted_direct (stable_sort (cmp_less Z.sub)) 4 (Of_producer [3; 1; 2]) =
    Finished st /\
    sorted_source Z.sub [3; 1; 2] st.
Proof.
  assert (Hsort : sorts (cmp_less Z.sub) (stable_sort (cmp_less Z.sub))).
  { apply stable_sort_sorts with (key := fun z : Z => z).
    intros a b. unfold cmp_less.
    destruct (Z.ltb_spec (a - b) 0), (Z.ltb_spec a b); auto; lia. }
  destruct (@Sorted_sorts_and_renumbers Z Z.sub _ [3; 1; 2] Hsort)
    as [Hseq _].
  apply (Hseq (Of_producer [3; 1; 2]) (items_from 0 [3; 1; 2])).
  - apply Of_yields.
  - reflexivity.
Defined.

(** C3 as stated fails: on [Of((1,10), (1,20)).Parallel()] with two
    goroutines and a comparison of the first components, there is a
    schedule after which [Sorted], even with a stable sort, returns the
    two equal elements in the reverse of their encounter order. *)
Lemma Sorted_parallel_loses_encounter_order :
  exists sched s,
    @Par.runs_to (Z * Z) [(1, 10); (1, 20)] 2 2 (sorted_consumer (Z * Z))
      sched s /\
    Sorted_parallel (stable_sort (cmp_less cmp_fst)) s =
    Of [(1, 20); (1, 10)].
Proof.
  exists [Par.Term 0; Par.Term 1;
          Par.Worker 0; Par.Src; Par.Worker 0; Par.Worker 0; Par.Term 1;
          Par.Worker 0; Par.Src; Par.Worker 0; Par.Worker 0; Par.Term 0;
          Par.Worker 0; Par.Src; Par.Worker 0; Par.Quit 1;
          Par.Term 0; Par.Term 1; Par.Term 0; Par.Term 1].
  eexists. split; [split|].
  - vm_compute. reflexivity.
  - reflexivity.
  - unfold Sorted_parallel. apply f_equal. vm_compute. reflexivity.
Qed.

(** ** FindFirst *)

(** [FindFirst] returns the first element of the stream in encounter
    order, and nothing on an empty stream: on a sequential stream that
    closes, and on [Of(xs...).Parallel()] for every number of goroutines
    and every schedule of its single terminal goroutine, so that any two
    runs return the same; and the parallel pipeline has a run. *)
Theorem FindFirst_returns_first :
  forall (T : Type) (xs : list T),
    (forall (p : producer T) (ods : list (orderedData T)),
        yields p ods -> map (@data T) ods = xs ->
        FindFirst_direct 1 p = Finished (hd_error xs)) /\
    forall gmp : nat,
      (1 <= gmp)%nat ->
      (exists sched s,
          @Par.runs_to T xs gmp 1 (findFirst_consumer T) sched s) /\
      (forall sched s,
          @Par.runs_to T xs gmp 1 (findFirst_consumer T) sched s ->
          FindFirst_parallel s = hd_error xs) /\
      (forall sched1 s1 sched2 s2,
          @Par.runs_to T xs gmp 1 (findFirst_consumer T) sched1 s1 ->
          @Par.runs_to T xs gmp 1 (findFirst_consumer T) sched2 s2 ->
          FindFirst_parallel s1 = FindFirst_parallel s2).
Proof.
  intros T xs. split.
  - intros p ods Hy Hxs. unfold FindFirst_direct. cbn [terminalOpMatch].
    destruct ods as [|od ods].
    + destruct (yields_pull_nil Hy) as [p' [Hp _]]. rewrite Hp.
      now subst xs.
    + destruct (yields_pull_cons Hy) as [p' [Hp _]]. rewrite Hp.
      now subst xs.
  - intros gmp Hg. split; [|split].
    + now apply ParFacts.first_run_exists.
    + intros sched s Hrun.
      exact (ParFacts.FindFirst_parallel_first Hrun).
    + intros sched1 s1 sched2 s2 H1 H2.
      rewrite (ParFacts.FindFirst_parallel_first H1).
      now rewrite (ParFacts.FindFirst_parallel_first H2).
Qed.

Lemma FindFirst_returns_first_witness :
  FindFirst_direct 1 (Of_producer [7; 8]) = Finished (Some 7) /\
  exists sched s,
    @Par.runs_to Z [7; 8] 2 1 (findFirst_consumer Z) sched s /\
    FindFirst_parallel s = Some 7.
Proof.
  destruct (@FindFirst_returns_first Z [7; 8]) as [Hseq Hpar].
  split.
  - apply (Hseq (Of_producer [7; 8]) (items_from 0 [7; 8])).
    + apply Of_yields.
    + reflexivity.
  - destruct (Hpar 2%nat ltac:(lia)) as [[sched [s Hrun]] [Hall _]].
    exists sched, s. split; [exact Hrun|]. exact (Hall sched s Hrun).
Defined.

(** ** The match family on an empty source *)




(** * Further properties of the pipeline *)

(** ** No send on a closed channel *)

Lemma Of_next_never_panics :
  forall (T : Type) (data : list T) (st : of_state) (msg : string),
    fst (Of_next data st) <> Panicked msg.
Proof.
  intros T data st msg. unfold Of_next.
  destruct (of_done st); [discriminate|].
  destruct (Nat.eqb (of_i st) (length data)); [discriminate|].
  destruct (nth_error data (of_i st)); discriminate.
Qed.

Lemma step_never_panics :
  forall (T : Type) (data : list T) (C : consumer T) (a : Par.actor)
         (s : Par.state C) (msg : string),
    Par.sound data s -> Par.step data a s <> Par.GoPanic C msg.
Proof.
  intros T data C a s msg Hs.
  destruct a as [|j|j|j]; cbn [Par.step].
  - unfold Par.step_src.
    destruct (of_done (Par.src (Par.so s))).
    + destruct (Par.srcReq (Par.so s)); discriminate.
    + destruct (Par.srcReq (Par.so s)).
      * destruct (Par.srcReqClosed (Par.so s)); discriminate.
      * pose proof (@Of_next_never_panics T data (Par.src (Par.so s))) as Hn.
        destruct (Of_next data (Par.src (Par.so s))) as [[od| |m0|] st'];
          try discriminate.
        exfalso. now apply (Hn m0).
  - unfold Par.step_worker.
    destruct (nth_error (Par.workers (Par.sg s)) j) as [[| |od|]|] eqn:Hnth;
      try discriminate.
    + pose proof (flat_map_member_length (@Par.alive T) _ j Hnth) as Hl.
      cbn [Par.alive length] in Hl.
      destruct (Par.midReq (Par.sg s)).
      * destruct (Par.midReqClosed (Par.sg s)); discriminate.
      * destruct (Par.srcReqClosed (Par.so s)) eqn:Hc; [|discriminate].
        rewrite (Par.snd_closed Hs) in Hc.
        pose proof (Par.snd_sclosed Hs Hc) as H0.
        unfold Par.live in H0. lia.
    + destruct (Par.srcData (Par.so s)); [|discriminate].
      destruct (of_done (Par.src (Par.so s))); discriminate.
    + pose proof (flat_map_member_length (@Par.alive T) _ j Hnth) as Hl.
      cbn [Par.alive length] in Hl.
      destruct (Par.sclosed (Par.sg s)) eqn:Hc; [|discriminate].
      pose proof (Par.snd_sclosed Hs Hc) as H0.
      unfold Par.live in H0. lia.
  - unfold Par.step_quit.
    destruct (nth_error (Par.workers (Par.sg s)) j) as [[| |od|]|];
      try discriminate.
    destruct (of_done (Par.src (Par.so s))); discriminate.
  - unfold Par.step_term, Par.request.
    destruct (nth_error (Par.terms (Par.te s)) j) as [[|a|a|]|] eqn:Hnth;
      try discriminate;
      pose proof (flat_map_member_length (@Par.pending T C) _ j Hnth) as Hl;
      cbn [Par.pending Par.gone length] in Hl.
    + destruct (Par.midReqClosed (Par.sg s)) eqn:Hc; [|discriminate].
      pose proof (Par.snd_midReq Hs Hc) as H0.
      unfold Par.waiting in H0. lia.
    + destruct (Par.midData (Par.sg s)) as [|od rest].
      * destruct (Par.sclosed (Par.sg s)); discriminate.
      * destruct (c_op C (Par.shared (Par.te s)) a od) as [[sh' a'] c].
        destruct c; [|discriminate].
        destruct (Par.midReqClosed (Par.sg s)) eqn:Hc; [|discriminate].
        pose proof (Par.snd_midReq Hs Hc) as H0.
        unfold Par.waiting in H0. lia.
Qed.

(** X1. Whatever the terminal operation, the slice, the numbers of
    goroutines and the schedule, no goroutine of the pipeline
    [Of(data...).Parallel()] ever sends on a closed channel or panics. *)
Theorem pipeline_never_panics :
  forall (T : Type) (data : list T) (m k : nat) (C : consumer T)
         (sched : list Par.actor) (msg : string),
    Par.exec data sched (Par.init m k C) <> Par.GoPanic C msg.
Proof.
  intros T data m k C sched msg.
  assert (H : forall s, Par.sound data s ->
                        Par.exec data sched s <> Par.GoPanic C msg).
  { induction sched as [|a sched IH]; intros s Hs; cbn [Par.exec].
    - discriminate.
    - destruct (Par.step data a s) as [s1| |m0] eqn:Hstep.
      + apply IH. eapply ParFacts.step_sound; eauto.
      + discriminate.
      + exfalso. now apply (@step_never_panics T data C a s m0). }
  apply H. apply ParFacts.init_sound.
Qed.

(** ** Every goroutine is released *)

Lemma live_zero_all_exited :
  forall (T : Type) (ws : list (Par.wstate T)),
    Par.live ws = 0%nat -> Forall (fun w => w = Par.WExited T) ws.
Proof.
  intros T ws. unfold Par.live.
  induction ws as [|w ws IH]; cbn; intros H; constructor.
  - destruct w; cbn in H; try lia. reflexivity.
  - apply IH. rewrite length_app in H. lia.
Qed.

(** X2. When a terminal operation that drains the stream to its end
    (one that never stops requesting early) is through, every [drain]
    goroutine of the stage has returned, the channels of the stage and
    of the source are closed, and no item is left in a channel. *)
Theorem drain_releases_every_goroutine :
  forall (T : Type) (data : list T) (m k : nat) (C : consumer T)
         (sched : list Par.actor) (s : Par.state C),
    (forall sh a od, snd (c_op C sh a od) = true) ->
    (1 <= k)%nat ->
    Par.runs_to data m k sched s ->
    Forall (fun w => w = Par.WExited T) (Par.workers (Par.sg s)) /\
    Par.pcount (Par.sg s) = 0 /\
    Par.sclosed (Par.sg s) = true /\
    Par.srcReqClosed (Par.so s) = true /\
    of_done (Par.src (Par.so s)) = true /\
    Par.srcData (Par.so s) = [] /\
    Par.midData (Par.sg s) = [].
Proof.
  intros T data m k C sched s Hcont Hk [Hex Hc].
  destruct (@ParFacts.exec_draining T data m k C Hcont sched _ s
              (ParFacts.init_sound data m k C)
              (ParFacts.init_draining data m k C) Hex) as [Hs Hd].
  pose proof (ParFacts.complete_waiting s Hc) as Hw.
  destruct (Par.dr_left Hd ltac:(lia)) as [Hsc Hmd].
  pose proof (Par.snd_sclosed Hs Hsc) as Hlive.
  assert (Hask : flat_map (@Par.asking T) (Par.workers (Par.sg s)) = []).
  { apply flat_map_nil_length with (f := @Par.alive T); [|exact Hlive].
    intros [| |od|]; cbn; congruence. }
  pose proof (Par.snd_answers Hs) as Hans. unfold Par.asked in Hans.
  rewrite Hask in Hans. cbn in Hans.
  repeat split.
  - now apply live_zero_all_exited.
  - rewrite (Par.snd_pcount Hs), Hlive. reflexivity.
  - exact Hsc.
  - now rewrite (Par.snd_closed Hs).
  - destruct (Par.dr_phase Hd) as [[H _]|[_ [_ [H _]]]]; congruence.
  - destruct (Par.srcData (Par.so s)); [reflexivity|cbn in Hans; lia].
  - exact Hmd.
Qed.

Lemma drain_releases_every_goroutine_witness :
  exists sched s,
    @Par.runs_to Z [4; 5; 6] 3 3 (toSlice_consumer Z) sched s /\
    Forall (fun w => w = Par.WExited Z) (Par.workers (Par.sg s)) /\
    Par.sclosed (Par.sg s) = true.
Proof.
  destruct (@ParFacts.full_run_exists Z [4; 5; 6] (toSlice_consumer Z)
              (fun _ _ _ _ => eq_refl) 3 3 ltac:(lia) ltac:(lia))
    as [sched [s Hrun]].
  exists sched, s. split; [exact Hrun|].
  destruct (@drain_releases_every_goroutine Z [4; 5; 6] 3 3
              (toSlice_consumer Z) sched s (fun _ _ _ => eq_refl)
              ltac:(lia) Hrun) as [H1 [_ [H3 _]]].
  split; assumption.
Defined.

(** ** Filter *)

Lemma filter_loop_spec :
  forall (T : Type) (up : producer T) (predicate : T -> bool)
         (ods : list (orderedData T)) (fuel cnt : nat) (u : pstate up),
    yields_from (pnext up) u ods ->
    (length ods < fuel)%nat ->
    let keep := filter (fun od => predicate (data od)) ods in
    (exists od rest cnt' u',
        filter_loop up predicate fuel cnt u =
          Some (Item od, {| locals := StRunning; sent := cnt';
                            upstream := u' |}) /\
        keep = od :: filter (fun od => predicate (data od)) rest /\
        yields_from (pnext up) u' rest /\
        (length rest < length ods)%nat /\
        (cnt' + length rest <= cnt + length ods)%nat) \/
    (exists s',
        filter_loop up predicate fuel cnt u = Some (EndOfData, s') /\
        locals s' = StClosed /\ keep = [] /\
        sent s' = S (cnt + length ods)).
Proof.
  intros T up predicate ods.
  induction ods as [|od ods IH]; intros fuel cnt u Hy Hf;
    (destruct fuel as [|fuel]; [cbn in Hf; lia|]); cbn [filter_loop].
  - destruct (yields_from_nil Hy) as [u' [Hn _]]. rewrite Hn.
    right. eexists. repeat split. cbn. lia.
  - destruct (yields_from_cons Hy) as [u' [Hn Hy']]. rewrite Hn.
    cbn [filter data]. destruct (predicate (data od)) eqn:Hp.
    + left. exists od, ods, (S cnt), u'.
      repeat split; auto; cbn; lia.
    + destruct (IH fuel (S cnt) u' Hy' ltac:(cbn in Hf; lia))
        as [[od' [rest [cnt' [u2 [H1 [H2 [H3 [H4 H5]]]]]]]]
           |[s' [H1 [H2 [H3 H4]]]]].
      * left. exists od', rest, cnt', u2.
        repeat split; auto; cbn; lia.
      * right. exists s'. repeat split; auto. cbn. lia.
Qed.

Lemma filter_closed_serve :
  forall (T : Type) (up : producer T) (predicate : T -> bool)
         (fuel n : nat) (s : stage_state up stage_phase),
    locals s = StClosed ->
    serve_fuelled (filter_next predicate fuel) n s
    = Some (repeat EndOfData n, s).
Proof.
  intros T up predicate fuel n s Hs.
  induction n as [|n IH]; cbn; [reflexivity|].
  unfold filter_next at 1. rewrite Hs. now rewrite IH.
Qed.

(** X3. [Filter(predicate)] over an upstream that gives finitely many
    items: with enough turns for its inner loop, the goroutine answers
    with the items the predicate accepts, in the order received and
    under the sequence numbers they came with, then closes; it sends
    upstream at most one request more than there are items. *)
Theorem Filter_keeps_matching :
  forall (T : Type) (up : producer T) (predicate : T -> bool)
         (ods : list (orderedData T)) (fuel n : nat),
    yields up ods ->
    (length ods < fuel)%nat ->
    exists s',
      serve_fuelled (filter_next predicate fuel) n (filter_init up) =
      Some (firstn n (map (@Item T)
                        (filter (fun od => predicate (data od)) ods)
                      ++ repeat EndOfData n), s') /\
      (requests_sent s' <= S (length ods))%nat.
Proof.
  intros T up predicate ods fuel n Hy Hf. unfold filter_init.
  assert (G : forall n ods cnt u,
             yields_from (pnext up) u ods -> (length ods < fuel)%nat ->
             exists s',
               serve_fuelled (filter_next predicate fuel) n
                 {| locals := StRunning; sent := cnt; upstream := u |} =
               Some (firstn n (map (@Item T)
                                 (filter (fun od => predicate (data od)) ods)
                               ++ repeat EndOfData n), s') /\
               (sent s' <= cnt + S (length ods))%nat).
  { clear. intros n. induction n as [|n IH]; intros ods cnt u Hy Hf.
    - eexists. split; [reflexivity|cbn; lia].
    - cbn [serve_fuelled]. unfold filter_next at 1.
      cbn [locals sent upstream].
      destruct (@filter_loop_spec T up predicate ods fuel cnt u Hy Hf)
        as [[od [rest [cnt' [u' [H1 [H2 [H3 [H4 H5]]]]]]]]
           |[s' [H1 [H2 [H3 H4]]]]]; rewrite H1.
      + destruct (IH rest cnt' u' H3 ltac:(lia)) as [s2 [E2 L2]].
        rewrite E2. exists s2. split; [|lia]. rewrite H2.
        cbn [map app firstn]. do 3 f_equal.
        change (EndOfData :: repeat EndOfData n)
          with (repeat (@EndOfData T) (S n)).
        symmetry. apply firstn_app_repeat; lia.
      + rewrite filter_closed_serve by exact H2. exists s'.
        split; [|lia]. rewrite H3. cbn. do 3 f_equal.
        now rewrite firstn_repeat_le. }
  destruct (G n ods 0%nat (pcur up) Hy Hf) as [s' [E L]].
  exists s'. split; [exact E|exact L].
Qed.

Lemma Filter_keeps_matching_witness :
  exists s',
    serve_fuelled (filter_next (up := Of_producer [1; 2; 3; 4])
                     Z.even 5) 3
      (filter_init (Of_producer [1; 2; 3; 4])) =
    Some ([Item {| order := 1; data := 2 |};
           Item {| order := 3; data := 4 |}; EndOfData], s') /\
    (requests_sent s' <= 5)%nat.
Proof.
  exact (@Filter_keeps_matching Z (Of_producer [1; 2; 3; 4]) Z.even
           (items_from 0 [1; 2; 3; 4]) 5 3
           (Of_yields [1; 2; 3; 4]) ltac:(cbn; lia)).
Defined.

(** X4. A [Filter] whose predicate rejects every item of an upstream
    that never closes receives for ever: however many turns its inner
    loop is given, the first request stays unanswered. *)
Theorem Filter_rejecting_all_never_answers :
  forall (T : Type) (up : producer T) (predicate : T -> bool),
    (forall n r, In r (emitted n up) ->
                 exists od, r = Item od /\ predicate (data od) = false) ->
    forall fuel, filter_next predicate fuel (filter_init up) = None.
Proof.
  intros T up predicate H fuel. unfold filter_next, filter_init.
  cbn [locals sent upstream]. unfold emitted in H.
  generalize 0%nat as cnt. revert H. generalize (pcur up) as u.
  induction fuel as [|fuel IH]; intros u H cnt; [reflexivity|].
  cbn [filter_loop]. destruct (pnext up u) as [r u'] eqn:Hn.
  destruct (H 1%nat r) as [od [-> Hp]].
  { cbn. rewrite Hn. cbn. now left. }
  rewrite Hp. apply IH. intros n r Hin. apply (H (S n)).
  cbn [serve]. rewrite Hn.
  destruct (serve (pnext up) n u') as [rs s2]. cbn in *. now right.
Qed.

Lemma Filter_rejecting_all_never_answers_witness :
  filter_next (up := Generate_producer (fun _ => 7)) (fun z => z <? 0) 1000
    (filter_init (Generate_producer (fun _ => 7))) = None.
Proof.
  apply Filter_rejecting_all_never_answers.
  intros n r Hin. apply In_nth_error in Hin. destruct Hin as [j Hj].
  apply Generate_serve in Hj. subst r. eexists. split; reflexivity.
Defined.

(** ** Peek *)

Lemma peek_closed_serve :
  forall (T : Type) (up : producer T) (n : nat)
         (s : stage_state up (stage_phase * list T)),
    fst (locals s) = StClosed ->
    serve (peek_next (up := up)) n s = (repeat EndOfData n, s).
Proof.
  intros T up n s Hs. apply serve_fixed. unfold peek_next. now rewrite Hs.
Qed.

Lemma peek_serve :
  forall (T : Type) (up : producer T) (r : nat)
         (ods : list (orderedData T)) (log : list T) (cnt : nat)
         (u : pstate up),
    yields_from (pnext up) u ods ->
    let res := serve (peek_next (up := up)) r
                 {| locals := (StRunning, log); sent := cnt;
                    upstream := u |} in
    fst res = firstn r (map (@Item T) ods ++ repeat EndOfData r) /\
    snd (locals (snd res)) = log ++ map (@data T) (firstn r ods) /\
    sent (snd res) = (cnt + Nat.min r (S (length ods)))%nat.
Proof.
  intros T up r. induction r as [|r IH]; intros ods log cnt u Hy.
  - cbn. rewrite app_nil_r. repeat split. lia.
  - cbn [serve].
    destruct (peek_next _) as [a s1] eqn:Hstep.
    unfold peek_next, getPrevData in Hstep.
    cbn [locals sent upstream fst snd] in Hstep.
    destruct ods as [|od ods].
    + destruct (yields_from_nil Hy) as [u' [Hn _]]. rewrite Hn in Hstep.
      inversion Hstep; subst a s1.
      rewrite peek_closed_serve by reflexivity. cbn.
      rewrite app_nil_r. repeat split; [|lia].
      f_equal. now rewrite firstn_repeat_le.
    + destruct (yields_from_cons Hy) as [u' [Hn Hy']]. rewrite Hn in Hstep.
      inversion Hstep; subst a s1.
      destruct (IH ods (log ++ [data od]) (S cnt) u' Hy') as [H1 [H2 H3]].
      destruct (serve (peek_next (up := up)) r _) as [rs s2].
      cbn [fst snd] in *. rewrite H1, H2, H3.
      repeat split.
      * cbn [map app firstn]. f_equal.
        change (EndOfData :: repeat EndOfData r)
          with (repeat (@EndOfData T) (S r)).
        symmetry. apply firstn_app_repeat; lia.
      * cbn [firstn map]. now rewrite <- app_assoc.
      * cbn [length]. lia.
Qed.

(** X5. [Peek(action)] forwards the items of its upstream unchanged and
    calls [action] on an item when, and only when, that item has been
    requested from it: after [r] requests the action has been called on
    the first [r] items, in order, and on nothing else. *)
Theorem Peek_acts_on_requested_items :
  forall (T : Type) (up : producer T) (ods : list (orderedData T))
         (r : nat),
    yields up ods ->
    let p := peek_producer up in
    emitted r p = firstn r (map (@Item T) ods ++ repeat EndOfData r) /\
    snd (locals (snd (serve (pnext p) r (pcur p)))) =
      map (@data T) (firstn r ods).
Proof.
  intros T up ods r Hy.
  destruct (@peek_serve T up r ods [] 0%nat (pcur up) Hy) as [H1 [H2 _]].
  split; [exact H1|exact H2].
Qed.

Lemma Peek_acts_on_requested_items_witness :
  let p := peek_producer (Of_producer [5; 6; 7]) in
  emitted 2 p = [Item {| order := 0; data := 5 |};
                 Item {| order := 1; data := 6 |}] /\
  snd (locals (snd (serve (pnext p) 2 (pcur p)))) = [5; 6].
Proof.
  exact (@Peek_acts_on_requested_items Z (Of_producer [5; 6; 7])
           (items_from 0 [5; 6; 7]) 2 (Of_yields [5; 6; 7])).
Defined.

Lemma limit_pulls :
  forall (T : Type) (up : producer T) (r : nat)
         (ods : list (orderedData T)) (count : Z) (c0 : nat)
         (u : pstate up),
    yields_from (pnext up) u ods ->
    0 < count ->
    let res := serve (limit_next (up := up)) r
                 {| locals := LimitRunning count; sent := c0;
                    upstream := u |} in
    let j := Nat.min (Nat.min r (Z.to_nat count)) (S (length ods)) in
    sent (snd res) = (c0 + j)%nat /\
    upstream (snd res) = snd (serve (pnext up) j u).
Proof.
  intros T up r. induction r as [|r IH]; intros ods count c0 u Hy Hpos.
  - cbn. split; [lia|reflexivity].
  - cbn [serve].
    destruct (limit_next _) as [a s1] eqn:Hstep.
    unfold limit_next, getPrevData in Hstep.
    cbn [locals sent upstream] in Hstep.
    destruct (Z.to_nat count) as [|c'] eqn:Hc; [lia|].
    destruct ods as [|od ods].
    + destruct (yields_from_nil Hy) as [u' [Hn _]]. rewrite Hn in Hstep.
      inversion Hstep; subst a s1.
      rewrite (@serve_fixed T _ (limit_next (up := up)) EndOfData)
        by reflexivity.
      cbn [length fst snd sent upstream].
      replace (Nat.min (Nat.min (S r) (S c')) 1) with 1%nat by lia.
      cbn. rewrite Hn. split; [lia|reflexivity].
    + destruct (yields_from_cons Hy) as [u' [Hn Hy']]. rewrite Hn in Hstep.
      destruct (count - 1 =? 0) eqn:Hz; inversion Hstep; subst a s1.
      * apply Z.eqb_eq in Hz.
        rewrite (@serve_fixed T _ (limit_next (up := up)) EndOfData)
          by reflexivity.
        assert (c' = 0%nat) as -> by lia.
        cbn [length fst snd sent upstream].
        replace (Nat.min (Nat.min (S r) 1) (S (S (length ods))))
          with 1%nat by lia.
        cbn. rewrite Hn. split; [lia|reflexivity].
      * apply Z.eqb_neq in Hz.
        destruct (IH ods (count - 1) (S c0) u' Hy' ltac:(lia)) as [H1 H2].
        destruct (serve (limit_next (up := up)) r _) as [rs s2].
        cbn [fst snd] in *.
        replace (Z.to_nat (count - 1)) with c' in * by lia.
        cbn [length].
        replace (Nat.min (Nat.min (S r) (S c')) (S (S (length ods))))
          with (S (Nat.min (Nat.min r c') (S (length ods)))) by lia.
        split; [lia|]. rewrite H2. cbn [serve]. rewrite Hn.
        now destruct (serve (pnext up) _ u').
Qed.

(** X6. [Peek(action).Limit(maxSize)] is lazy: whatever the number [r]
    of requests sent to the limited stream, the action has been called
    on the first [min r maxSize] items of the upstream and on no other,
    although the upstream may hold more. *)
Theorem Peek_under_Limit_is_lazy :
  forall (T : Type) (up : producer T) (ods : list (orderedData T))
         (maxSize : Z) (r : nat),
    yields up ods ->
    0 < maxSize ->
    let p := limit_producer (peek_producer up) maxSize in
    snd (locals (upstream (snd (serve (pnext p) r (pcur p))))) =
      map (@data T) (firstn (Nat.min r (Z.to_nat maxSize)) ods).
Proof.
  intros T up ods maxSize r Hy Hpos. cbn.
  unfold limit_init.
  assert ((maxSize <? 0) = false) as -> by (apply Z.ltb_ge; lia).
  assert ((maxSize =? 0) = false) as -> by (apply Z.eqb_neq; lia).
  assert (Hyp : yields_from (pnext (peek_producer up))
                  (pcur (peek_producer up)) ods).
  { intros n. apply (@peek_serve T up n ods [] 0%nat (pcur up) Hy). }
  destruct (@limit_pulls T (peek_producer up) r ods maxSize 0%nat
              (pcur (peek_producer up)) Hyp Hpos) as [_ H2].
  cbn in H2. cbn. rewrite H2.
  destruct (@peek_serve T up
              (Nat.min (Nat.min r (Z.to_nat maxSize)) (S (length ods)))
              ods [] 0%nat (pcur up) Hy) as [_ [H3 _]].
  cbn in H3. rewrite H3. f_equal.
  destruct (Nat.le_gt_cases (Nat.min r (Z.to_nat maxSize)) (S (length ods)))
    as [Hle|Hgt].
  - now rewrite Nat.min_l by exact Hle.
  - rewrite Nat.min_r by lia.
    rewrite !firstn_all2 by lia. reflexivity.
Qed.

Lemma Peek_under_Limit_is_lazy_witness :
  let p := limit_producer (peek_producer (Of_producer [5; 6; 7; 8])) 2 in
  snd (locals (upstream (snd (serve (pnext p) 4 (pcur p))))) = [5; 6].
Proof.
  exact (@Peek_under_Limit_is_lazy Z (Of_producer [5; 6; 7; 8])
           (items_from 0 [5; 6; 7; 8]) 2 4 (Of_yields [5; 6; 7; 8])
           ltac:(lia)).
Defined.

(** ** Map *)

Lemma ToSlice_direct_ordered :
  forall (T : Type) (p : producer T) (ods : list (orderedData T))
         (sorter : list (orderedData T) -> list (orderedData T)),
    yields p ods -> strictly_ordered ods ->
    sorts (@order_less T) sorter ->
    ToSlice_direct sorter (S (length ods)) p = Finished (map (@data T) ods).
Proof.
  intros T p ods sorter Hy Hord Hsort. unfold ToSlice_direct.
  destruct (@terminalOpOrderedData_yields T _
              (fun ods od => ods ++ [od]) ods [] p Hy) as [p' Hrun].
  rewrite Hrun. cbn [run_map fst].
  rewrite (fold_left_snoc (fun od => od)). cbn [app]. rewrite map_id.
  now rewrite (sorter_fixes_ordered Hsort Hord).
Qed.

Lemma map_closed_serve :
  forall (T R : Type) (up : producer T) (mapper : T -> R) (n : nat)
         (s : stage_state up stage_phase),
    locals s = StClosed ->
    serve (map_next mapper) n s = (repeat EndOfData n, s).
Proof.
  intros T R up mapper n s Hs. apply serve_fixed.
  unfold map_next. now rewrite Hs.
Qed.

Lemma map_serve :
  forall (T R : Type) (up : producer T) (mapper : T -> R) (r : nat)
         (ods : list (orderedData T)) (cnt : nat) (u : pstate up),
    yields_from (pnext up) u ods ->
    fst (serve (map_next mapper) r
           {| locals := StRunning; sent := cnt; upstream := u |}) =
    firstn r (map (@Item R)
                (map (fun od => {| order := order od;
                                   data := mapper (data od) |}) ods)
              ++ repeat EndOfData r).
Proof.
  intros T R up mapper r. induction r as [|r IH]; intros ods cnt u Hy;
    [reflexivity|].
  cbn [serve].
  destruct (map_next mapper _) as [a s1] eqn:Hstep.
  unfold map_next, getPrevData in Hstep.
  cbn [locals sent upstream] in Hstep.
  destruct ods as [|od ods].
  - destruct (yields_from_nil Hy) as [u' [Hn _]]. rewrite Hn in Hstep.
    inversion Hstep; subst a s1.
    rewrite map_closed_serve by reflexivity. cbn. f_equal.
    now rewrite firstn_repeat_le.
  - destruct (yields_from_cons Hy) as [u' [Hn Hy']]. rewrite Hn in Hstep.
    inversion Hstep; subst a s1.
    specialize (IH ods (S cnt) u' Hy').
    destruct (serve (map_next mapper) r _) as [rs s2].
    cbn [fst] in *. rewrite IH. cbn [map app firstn]. f_equal.
    change (EndOfData :: repeat EndOfData r)
      with (repeat (@EndOfData R) (S r)).
    symmetry. apply firstn_app_repeat; lia.
Qed.

Lemma strictly_ordered_map :
  forall (T R : Type) (f : T -> R) (ods : list (orderedData T)),
    strictly_ordered ods ->
    strictly_ordered
      (map (fun od => {| order := order od; data := f (data od) |}) ods).
Proof.
  intros T R f ods H. unfold strictly_ordered in *.
  induction H as [|od ods Hs IH Hf]; cbn; constructor; [exact IH|].
  rewrite Forall_map. eapply Forall_impl; [|exact Hf]. cbn. auto.
Qed.

(** X7. [Map(stream, mapper)] answers with the items of its upstream in
    the order received, each under the sequence number it came with and
    with [mapper] applied to its data, then closes. *)
Theorem Map_keeps_sequence_numbers :
  forall (T R : Type) (up : producer T) (mapper : T -> R)
         (ods : list (orderedData T)),
    yields up ods ->
    yields (map_producer up mapper)
      (map (fun od => {| order := order od; data := mapper (data od) |})
         ods).
Proof.
  intros T R up mapper ods Hy n. unfold emitted. cbn [map_producer pnext pcur].
  now apply map_serve.
Qed.

Lemma Map_keeps_sequence_numbers_witness :
  yields (map_producer (Of_producer [1; 2; 3]) (Z.mul 10))
    [{| order := 0; data := 10 |}; {| order := 1; data := 20 |};
     {| order := 2; data := 30 |}].
Proof.
  exact (@Map_keeps_sequence_numbers Z Z (Of_producer [1; 2; 3]) (Z.mul 10)
           (items_from 0 [1; 2; 3]) (Of_yields [1; 2; 3])).
Defined.

(** X8. [Map(Of(xs...), f).ToSlice()] is the slice of the images,
    and mapping twice is mapping with the composition:
    [Map(Map(Of(xs...), f), g).ToSlice()] is [xs] mapped by [g] after
    [f]. *)
Theorem ToSlice_of_Map :
  forall (T R Q : Type) (xs : list T) (f : T -> R) (g : R -> Q)
         (sorterR : list (orderedData R) -> list (orderedData R))
         (sorterQ : list (orderedData Q) -> list (orderedData Q)),
    Z.of_nat (length xs) <= maxInt ->
    sorts (@order_less R) sorterR ->
    sorts (@order_less Q) sorterQ ->
    ToSlice_direct sorterR (S (length xs))
      (map_producer (Of_producer xs) f) = Finished (map f xs) /\
    ToSlice_direct sorterQ (S (length xs))
      (map_producer (map_producer (Of_producer xs) f) g) =
    Finished (map (fun x => g (f x)) xs).
Proof.
  intros T R Q xs f g sorterR sorterQ Hlen HsR HsQ.
  assert (Hord : strictly_ordered (items_from 0 xs)).
  { apply items_from_ordered. unfold maxInt in Hlen. cbn [Nat.add]. lia. }
  pose proof (Of_yields xs) as Hy0.
  pose proof (@map_serve T R (Of_producer xs) f) as M1.
  assert (Hy1 : yields (map_producer (Of_producer xs) f)
                  (map (fun od => {| order := order od; data := f (data od) |})
                     (items_from 0 xs))).
  { intros n. apply M1. exact Hy0. }
  assert (Hy2 : yields (map_producer (map_producer (Of_producer xs) f) g)
                  (map (fun od => {| order := order od; data := g (data od) |})
                     (map (fun od => {| order := order od;
                                        data := f (data od) |})
                        (items_from 0 xs)))).
  { intros n.
    apply (@map_serve R Q (map_producer (Of_producer xs) f) g).
    exact Hy1. }
  split.
  - rewrite <- (items_from_length xs 0).
    rewrite <- (length_map (fun od => {| order := order od;
                                         data := f (data od) |})).
    rewrite (ToSlice_direct_ordered Hy1 (strictly_ordered_map f Hord) HsR).
    rewrite map_map. cbn [data].
    rewrite <- (map_map (@data T) f). now rewrite map_data_items_from.
  - rewrite <- (items_from_length xs 0).
    rewrite <- (length_map (fun od => {| order := order od;
                                         data := f (data od) |})).
    rewrite <- (length_map (fun od => {| order := order od;
                                         data := g (data od) |})).
    rewrite (ToSlice_direct_ordered Hy2
               (strictly_ordered_map g (strictly_ordered_map f Hord)) HsQ).
    rewrite !map_map. cbn [data].
    rewrite <- (map_map (@data T) (fun x => g (f x))).
    now rewrite map_data_items_from.
Qed.

Lemma ToSlice_of_Map_witness :
  ToSlice_direct (stable_sort (@order_less Z)) 4
    (map_producer (Of_producer [1; 2; 3]) (Z.mul 10)) =
  Finished [10; 20; 30] /\
  ToSlice_direct (stable_sort (@order_less bool)) 4
    (map_producer (map_producer (Of_producer [1; 2; 3]) (Z.mul 10))
       Z.even) =
  Finished [true; true; true].
Proof.
  apply (@ToSlice_of_Map Z Z bool [1; 2; 3] (Z.mul 10) Z.even
           (stable_sort (@order_less Z)) (stable_sort (@order_less bool))).
  - vm_compute. discriminate.
  - apply stable_sort_sorts with (key := @order Z). reflexivity.
  - apply stable_sort_sorts with (key := @order bool). reflexivity.
Defined.

(** ** Concat *)

Lemma concat_serve_b :
  forall (T : Type) (a b : producer T) (r : nat)
         (bs : list (orderedData T)) (ua : pstate a) (ub : pstate b)
         (off lo : Z),
    yields_from (pnext b) ub bs ->
    fst (serve (concat_next (a := a) (b := b)) r
           {| cc_a := ua; cc_b := ub; cc_switchedToB := true;
              cc_offset := off; cc_lastOrder := lo;
              cc_phase := StRunning |}) =
    firstn r (map (@Item T) (map (shift off) bs) ++ repeat EndOfData r).
Proof.
  intros T a b r. induction r as [|r IH]; intros bs ua ub off lo Hy;
    [reflexivity|].
  cbn [serve].
  destruct (concat_next _) as [x s1] eqn:Hstep.
  unfold concat_next in Hstep.
  cbn [cc_phase cc_switchedToB cc_b cc_a cc_offset cc_lastOrder] in Hstep.
  destruct bs as [|d bs].
  - destruct (yields_from_nil Hy) as [u' [Hn _]]. rewrite Hn in Hstep.
    cbn in Hstep. inversion Hstep; subst x s1.
    rewrite (@serve_fixed T _ (concat_next (a := a) (b := b)) EndOfData)
      by reflexivity.
    cbn. f_equal. now rewrite firstn_repeat_le.
  - destruct (yields_from_cons Hy) as [u' [Hn Hy']]. rewrite Hn in Hstep.
    cbn in Hstep. inversion Hstep; subst x s1.
    specialize (IH bs ua u' off (order d) Hy').
    destruct (serve (concat_next (a := a) (b := b)) r _) as [rs s2].
    cbn [fst] in *. rewrite IH. cbn [map app firstn]. f_equal.
    change (EndOfData :: repeat EndOfData r)
      with (repeat (@EndOfData T) (S r)).
    symmetry. apply firstn_app_repeat; lia.
Qed.

Lemma concat_serve_a :
  forall (T : Type) (a b : producer T) (r : nat)
         (xs bs : list (orderedData T)) (ua : pstate a) (ub : pstate b)
         (off lo : Z),
    yields_from (pnext a) ua xs ->
    yields_from (pnext b) ub bs ->
    fst (serve (concat_next (a := a) (b := b)) r
           {| cc_a := ua; cc_b := ub; cc_switchedToB := false;
              cc_offset := off; cc_lastOrder := lo;
              cc_phase := StRunning |}) =
    firstn r (map (@Item T)
                (map (shift off) xs
                 ++ map (shift (wrap64 (last_order xs lo + 1))) bs)
              ++ repeat EndOfData r).
Proof.
  intros T a b r. induction r as [|r IH]; intros xs bs ua ub off lo Ha Hb;
    [reflexivity|].
  cbn [serve].
  destruct (concat_next _) as [x s1] eqn:Hstep.
  unfold concat_next in Hstep.
  cbn [cc_phase cc_switchedToB cc_b cc_a cc_offset cc_lastOrder] in Hstep.
  destruct xs as [|d xs].
  - destruct (yields_from_nil Ha) as [ua' [Hn _]]. rewrite Hn in Hstep.
    cbn [map app]. change (last_order [] lo) with lo.
    destruct bs as [|e bs].
    + destruct (yields_from_nil Hb) as [ub' [Hnb _]]. rewrite Hnb in Hstep.
      cbn in Hstep. inversion Hstep; subst x s1.
      rewrite (@serve_fixed T _ (concat_next (a := a) (b := b)) EndOfData)
        by reflexivity.
      cbn. f_equal. now rewrite firstn_repeat_le.
    + destruct (yields_from_cons Hb) as [ub' [Hnb Hb']].
      rewrite Hnb in Hstep. cbn in Hstep. inversion Hstep; subst x s1.
      pose proof (@concat_serve_b T a b r bs ua' ub'
                    (wrap64 (lo + 1)) (order e) Hb') as Hs.
      destruct (serve (concat_next (a := a) (b := b)) r _) as [rs s2].
      cbn [fst] in *. rewrite Hs. cbn [map app firstn]. f_equal.
      change (EndOfData :: repeat EndOfData r)
        with (repeat (@EndOfData T) (S r)).
      symmetry. apply firstn_app_repeat; lia.
  - destruct (yields_from_cons Ha) as [ua' [Hn Ha']]. rewrite Hn in Hstep.
    inversion Hstep; subst x s1.
    specialize (IH xs bs ua' ub off (order d) Ha' Hb).
    destruct (serve (concat_next (a := a) (b := b)) r _) as [rs s2].
    cbn [fst] in *. rewrite IH. rewrite last_order_cons.
    cbn [map app firstn]. f_equal.
    change (EndOfData :: repeat EndOfData r)
      with (repeat (@EndOfData T) (S r)).
    symmetry. apply firstn_app_repeat; lia.
Qed.

(** X9. [Concat(a, b)] answers with the items of [a], numbered as they
    came, then with the items of [b], their sequence numbers moved up by
    one more than the last number seen from [a] (by 1 when [a] gave
    nothing), then closes. *)
Theorem Concat_appends_and_renumbers :
  forall (T : Type) (a b : producer T) (xs bs : list (orderedData T)),
    yields a xs -> yields b bs ->
    yields (Concat_producer a b)
      (map (shift 0) xs ++ map (shift (wrap64 (last_order xs 0 + 1))) bs).
Proof.
  intros T a b xs bs Ha Hb n. unfold emitted.
  cbn [Concat_producer pnext pcur]. now apply concat_serve_a.
Qed.

Lemma Concat_appends_and_renumbers_witness :
  yields (Concat_producer (Of_producer [7; 8]) (Of_producer [9]))
    [{| order := 0; data := 7 |}; {| order := 1; data := 8 |};
     {| order := 2; data := 9 |}].
Proof.
  exact (@Concat_appends_and_renumbers Z (Of_producer [7; 8])
           (Of_producer [9]) (items_from 0 [7; 8]) (items_from 0 [9])
           (Of_yields [7; 8]) (Of_yields [9])).
Defined.

Lemma shift_zero_items_from :
  forall (T : Type) (l : list T) (k : nat),
    map (shift 0) (items_from k l) = items_from k l.
Proof.
  intros T l k. change 0 with (Z.of_nat 0).
  rewrite (shift_items_from l k 0). now rewrite Nat.add_0_r.
Qed.

Lemma last_order_items_from :
  forall (T : Type) (l : list T),
    Z.of_nat (length l) < 2 ^ 64 ->
    wrap64 (last_order (items_from 0 l) 0 + 1) =
    Z.of_nat (Nat.max 1 (length l)).
Proof.
  intros T [|x l] H.
  - reflexivity.
  - rewrite items_from_last_order. cbn [length Nat.add] in *.
    rewrite (wrap64_small (z := Z.of_nat (length l))) by lia.
    rewrite wrap64_small by lia. lia.
Qed.

(** X10. [Concat(Of(l1...), Of(l2...))]: the items of [l2] follow those
    of [l1] and are numbered from the length of [l1], or from 1 when
    [l1] is empty (the numbering then starts with a gap); in both cases
    [ToSlice] gives [l1] followed by [l2]. *)
Theorem Concat_of_slices :
  forall (T : Type) (l1 l2 : list T)
         (sorter : list (orderedData T) -> list (orderedData T)),
    Z.of_nat (length l1 + length l2) <= maxInt ->
    sorts (@order_less T) sorter ->
    let p := Concat_producer (Of_producer l1) (Of_producer l2) in
    yields p (items_from 0 l1 ++ items_from (Nat.max 1 (length l1)) l2) /\
    ToSlice_direct sorter (S (length l1 + length l2)) p =
    Finished (l1 ++ l2).
Proof.
  intros T l1 l2 sorter Hlen Hsort p. unfold maxInt in Hlen.
  assert (Hy : yields p (items_from 0 l1
                         ++ items_from (Nat.max 1 (length l1)) l2)).
  { pose proof (@concat_serve_a T (Of_producer l1) (Of_producer l2)) as H.
    intros n.
    refine (eq_trans (H n (items_from 0 l1) (items_from 0 l2) _ _ 0 0
                        (Of_yields l1) (Of_yields l2)) _).
    rewrite shift_zero_items_from.
    rewrite last_order_items_from by lia.
    now rewrite shift_items_from. }
  split; [exact Hy|].
  assert (Hord : strictly_ordered
                   (items_from 0 l1
                    ++ items_from (Nat.max 1 (length l1)) l2)).
  { destruct l1 as [|x l1].
    - cbn [items_from app length Nat.max].
      apply items_from_ordered. cbn [length Nat.add] in Hlen. lia.
    - replace (Nat.max 1 (length (x :: l1)))
        with (0 + length (x :: l1))%nat by (cbn [length]; lia).
      rewrite <- items_from_app. apply items_from_ordered.
      rewrite length_app. lia. }
  replace (length l1 + length l2)%nat
    with (length (items_from 0 l1
                  ++ items_from (Nat.max 1 (length l1)) l2))
    by (now rewrite length_app, !items_from_length).
  rewrite (ToSlice_direct_ordered Hy Hord Hsort).
  now rewrite map_app, !map_data_items_from.
Qed.

Lemma Concat_of_slices_witness :
  let p := Concat_producer (Of_producer []) (Of_producer [4; 5]) in
  yields p [{| order := 1; data := 4 |}; {| order := 2; data := 5 |}] /\
  ToSlice_direct (stable_sort (@order_less Z)) 3 p = Finished [4; 5].
Proof.
  apply (@Concat_of_slices Z [] [4; 5] (stable_sort (@order_less Z))).
  - vm_compute. discriminate.
  - apply stable_sort_sorts with (key := @order Z). reflexivity.
Defined.

(** ** Distinct *)

Section DistinctProof.
Variable T : Type.
Variable eqb : T -> T -> bool.
Variable up : producer T.

Lemma distinct_loop_spec :
  forall (ods : list (orderedData T)) (fuel : nat) (seen : list T)
         (cnt : nat) (u : pstate up),
    yields_from (pnext up) u ods ->
    (length ods < fuel)%nat ->
    (exists od rest cnt' u',
        distinct_loop eqb up fuel seen cnt u =
          Some (Item od, {| locals := (StRunning, data od :: seen);
                            sent := cnt'; upstream := u' |}) /\
        first_occurrences eqb seen ods =
          od :: first_occurrences eqb (data od :: seen) rest /\
        yields_from (pnext up) u' rest /\
        (length rest < length ods)%nat) \/
    (exists s',
        distinct_loop eqb up fuel seen cnt u = Some (EndOfData, s') /\
        fst (locals s') = StClosed /\
        first_occurrences eqb seen ods = []).
Proof.
  intros ods. induction ods as [|od ods IH]; intros fuel seen cnt u Hy Hf;
    (destruct fuel as [|fuel]; [cbn in Hf; lia|]); cbn [distinct_loop].
  - destruct (yields_from_nil Hy) as [u' [Hn _]]. rewrite Hn.
    right. eexists. repeat split.
  - destruct (yields_from_cons Hy) as [u' [Hn Hy']]. rewrite Hn.
    cbn [first_occurrences]. destruct (seen_has eqb seen (data od)).
    + destruct (IH fuel seen (S cnt) u' Hy' ltac:(cbn in Hf; lia))
        as [[od' [rest [cnt' [u2 [H1 [H2 [H3 H4]]]]]]]
           |[s' [H1 [H2 H3]]]].
      * left. exists od', rest, cnt', u2. repeat split; auto. cbn. lia.
      * right. exists s'. repeat split; auto.
    + left. exists od, ods, (S cnt), u'. repeat split; auto.
Qed.

Lemma distinct_closed_serve :
  forall (fuel n : nat) (s : stage_state up (stage_phase * list T)),
    fst (locals s) = StClosed ->
    serve_fuelled (distinct_next eqb fuel) n s
    = Some (repeat EndOfData n, s).
Proof.
  intros fuel n s Hs. induction n as [|n IH]; cbn; [reflexivity|].
  unfold distinct_next at 1. rewrite Hs. now rewrite IH.
Qed.

Lemma distinct_serve :
  forall (fuel n : nat) (ods : list (orderedData T)) (seen : list T)
         (cnt : nat) (u : pstate up),
    yields_from (pnext up) u ods -> (length ods < fuel)%nat ->
    exists s',
      serve_fuelled (distinct_next eqb fuel) n
        {| locals := (StRunning, seen); sent := cnt; upstream := u |} =
      Some (firstn n (map (@Item T) (first_occurrences eqb seen ods)
                      ++ repeat EndOfData n), s').
Proof.
  intros fuel n. induction n as [|n IH]; intros ods seen cnt u Hy Hf.
  - eexists. reflexivity.
  - cbn [serve_fuelled]. unfold distinct_next at 1.
    cbn [locals sent upstream fst snd].
    destruct (@distinct_loop_spec ods fuel seen cnt u Hy Hf)
      as [[od [rest [cnt' [u' [H1 [H2 [H3 H4]]]]]]]
         |[s' [H1 [H2 H3]]]]; rewrite H1.
    + destruct (IH rest (data od :: seen) cnt' u' H3 ltac:(lia))
        as [s2 E2].
      rewrite E2. exists s2. rewrite H2.
      cbn [map app firstn]. do 3 f_equal.
      change (EndOfData :: repeat EndOfData n)
        with (repeat (@EndOfData T) (S n)).
      symmetry. apply firstn_app_repeat; lia.
    + rewrite distinct_closed_serve by exact H2. exists s'.
      rewrite H3. cbn. do 3 f_equal. now rewrite firstn_repeat_le.
Qed.

Hypothesis eqb_spec : forall x y, eqb x y = true <-> x = y.

Lemma seen_has_In :
  forall (seen : list T) (x : T), seen_has eqb seen x = true <-> In x seen.
Proof.
  intros seen x. unfold seen_has. rewrite existsb_exists. split.
  - intros [y [Hy He]]. apply eqb_spec in He. now subst.
  - intros H. exists x. split; [exact H|]. now apply eqb_spec.
Qed.

Lemma first_occurrences_fresh :
  forall (ods : list (orderedData T)) (seen : list T),
    NoDup (map (@data T) (first_occurrences eqb seen ods)) /\
    forall x, In x (map (@data T) (first_occurrences eqb seen ods)) ->
              ~ In x seen /\ In x (map (@data T) ods).
Proof.
  intros ods. induction ods as [|od ods IH]; intros seen;
    cbn [first_occurrences map].
  - split; [constructor|]. intros x [].
  - destruct (seen_has eqb seen (data od)) eqn:Hsn.
    + destruct (IH seen) as [Hn Hi]. split; [exact Hn|].
      intros x Hx. destruct (Hi x Hx). split; [assumption|now right].
    + destruct (IH (data od :: seen)) as [Hn Hi]. cbn [map]. split.
      * constructor; [|exact Hn]. intros Hx.
        destruct (Hi _ Hx) as [Hns _]. apply Hns. now left.
      * intros x [<-|Hx].
        -- split; [|now left]. intros Hin.
           apply seen_has_In in Hin. congruence.
        -- destruct (Hi x Hx) as [Hns Hin]. split; [|now right].
           intros H. apply Hns. now right.
Qed.

Lemma first_occurrences_complete :
  forall (ods : list (orderedData T)) (seen : list T) (x : T),
    In x (map (@data T) ods) ->
    In x seen \/ In x (map (@data T) (first_occurrences eqb seen ods)).
Proof.
  intros ods. induction ods as [|od ods IH]; intros seen x;
    cbn [first_occurrences map]; [intros []|].
  intros [<-|Hx].
  - destruct (seen_has eqb seen (data od)) eqn:Hsn.
    + left. now apply seen_has_In.
    + right. now left.
  - destruct (seen_has eqb seen (data od)) eqn:Hsn.
    + now apply IH.
    + destruct (IH (data od :: seen) x Hx) as [[<-|H]|H].
      * right. now left.
      * now left.
      * right. now right.
Qed.
End DistinctProof.

(** X11. [Distinct] over an upstream that gives finitely many items,
    for an element type on which [==] is equality: with enough turns for
    its inner loop it answers with the first occurrence of every value,
    in the order received and under the sequence numbers they came
    with, then closes; no value comes twice and none is lost. *)
Theorem Distinct_keeps_first_occurrences :
  forall (T : Type) (eqb : T -> T -> bool) (up : producer T)
         (ods : list (orderedData T)) (fuel n : nat),
    (forall x y, eqb x y = true <-> x = y) ->
    yields up ods ->
    (length ods < fuel)%nat ->
    let out := first_occurrences eqb [] ods in
    (exists s',
        serve_fuelled (distinct_next eqb fuel) n (distinct_init up) =
        Some (firstn n (map (@Item T) out ++ repeat EndOfData n), s')) /\
    NoDup (map (@data T) out) /\
    (forall x, In x (map (@data T) ods) <-> In x (map (@data T) out)) /\
    (forall od, In od out -> In od ods).
Proof.
  intros T eqb up ods fuel n Heq Hy Hf out. repeat split.
  - exact (@distinct_serve T eqb up fuel n ods [] 0%nat (pcur up) Hy Hf).
  - apply (@first_occurrences_fresh T eqb Heq).
  - intros Hx.
    destruct (@first_occurrences_complete T eqb Heq ods [] x Hx)
      as [[]|H]; exact H.
  - intros Hx. now apply (@first_occurrences_fresh T eqb Heq ods []).
  - clear. unfold out. generalize (@nil T) as seen.
    induction ods as [|o ods IH]; intros seen od; cbn; [auto|].
    destruct (seen_has eqb seen (data o)).
    + intros H. right. now apply (IH seen).
    + intros [<-|H]; [now left|]. right. now apply (IH (data o :: seen)).
Qed.

Lemma Distinct_keeps_first_occurrences_witness :
  exists s',
    serve_fuelled (distinct_next (up := Of_producer [3; 1; 3; 2; 1])
                     Z.eqb 6) 4
      (distinct_init (Of_producer [3; 1; 3; 2; 1])) =
    Some ([Item {| order := 0; data := 3 |};
           Item {| order := 1; data := 1 |};
           Item {| order := 3; data := 2 |}; EndOfData], s').
Proof.
  exact (proj1 (@Distinct_keeps_first_occurrences Z Z.eqb
                  (Of_producer [3; 1; 3; 2; 1])
                  (items_from 0 [3; 1; 3; 2; 1]) 6 4 Z.eqb_eq
                  (Of_yields [3; 1; 3; 2; 1]) ltac:(cbn; lia))).
Defined.

(** ** IterateN *)

Lemma wrap64_next :
  forall k : nat, wrap64 (wrap64 (Z.of_nat k) + 1) = wrap64 (Z.of_nat (S k)).
Proof.
  intros k. unfold wrap64. rewrite Zplus_mod_idemp_l. f_equal. lia.
Qed.

Lemma iterates_cons :
  forall (T : Type) (f : T -> T) (c : T) (j : nat),
    map (fun i => Nat.iter i f c) (seq 0 (S j)) =
    c :: map (fun i => Nat.iter i f (f c)) (seq 0 j).
Proof.
  intros T f c j. cbn [seq map Nat.iter nat_rect]. f_equal.
  rewrite <- seq_shift, map_map. apply map_ext. intros i.
  apply (Nat.iter_succ_r i).
Qed.

Lemma serve_fuelled_S :
  forall (T St : Type) (next : St -> option (response T * St)) (n : nat)
         (s : St),
    serve_fuelled next (S n) s =
    match next s with
    | None => None
    | Some (r, s1) =>
        match serve_fuelled next n s1 with
        | None => None
        | Some (rs, s2) => Some (r :: rs, s2)
        end
    end.
Proof. reflexivity. Qed.

Lemma IterateN_serve :
  forall (T : Type) (hasNext : T -> bool) (next : T -> T) (j : nat)
         (v : T) (ap : bool) (k : nat),
    let c := if ap then next v else v in
    (forall i, (i < j)%nat -> hasNext (Nat.iter i next c) = true) ->
    hasNext (Nat.iter j next c) = false ->
    exists s',
      serve_fuelled (IterateN_next hasNext next) (S j)
        {| itn_nextValue := v; itn_applyNext := ap;
           itn_order := wrap64 (Z.of_nat k); itn_returned := false |} =
      Some (map (@Item T)
              (items_from k (map (fun i => Nat.iter i next c) (seq 0 j)))
            ++ [EndOfData], s') /\
      itn_returned s' = true.
Proof.
  intros T hasNext next j. induction j as [|j IH]; intros v ap k c Hyes Hno.
  - cbn in Hno. cbn. unfold IterateN_next. cbn. fold c. rewrite Hno. cbn.
    eexists. split; reflexivity.
  - assert (H0 : hasNext c = true) by (apply (Hyes 0%nat); lia).
    rewrite serve_fuelled_S. unfold IterateN_next at 1.
    cbn [itn_returned itn_applyNext itn_nextValue itn_order]. fold c.
    rewrite H0. cbn [negb]. rewrite wrap64_next.
    destruct (IH c true (S k)) as [s' [E R]].
    + intros i Hi. cbn. rewrite <- (Nat.iter_succ_r i). apply Hyes. lia.
    + cbn. rewrite <- (Nat.iter_succ_r j). exact Hno.
    + rewrite E. exists s'. split; [|exact R].
      rewrite iterates_cons. reflexivity.
Qed.

(** X12. [IterateN(seed, hasNext, next)] answers with [seed],
    [next(seed)], ... numbered from 0 as long as [hasNext] holds of the
    value, closes at the first value that fails it, and then is gone: a
    further request is never received. *)
Theorem IterateN_stops_at_first_failure :
  forall (T : Type) (seed : T) (hasNext : T -> bool) (next : T -> T)
         (j : nat),
    (forall i, (i < j)%nat -> hasNext (Nat.iter i next seed) = true) ->
    hasNext (Nat.iter j next seed) = false ->
    exists s',
      serve_fuelled (IterateN_next hasNext next) (S j) (IterateN_init seed) =
      Some (map (@Item T)
              (items_from 0
                 (map (fun i => Nat.iter i next seed) (seq 0 j)))
            ++ [EndOfData], s') /\
      IterateN_next hasNext next s' = None.
Proof.
  intros T seed hasNext next j Hyes Hno.
  destruct (@IterateN_serve T hasNext next j seed false 0%nat Hyes Hno)
    as [s' [E R]].
  exists s'. split; [exact E|]. unfold IterateN_next. now rewrite R.
Qed.

Lemma IterateN_stops_at_first_failure_witness :
  exists s',
    serve_fuelled (IterateN_next (fun z => z <? 40) (Z.mul 2)) 4
      (IterateN_init 5) =
    Some ([Item {| order := 0; data := 5 |};
           Item {| order := 1; data := 10 |};
           Item {| order := 2; data := 20 |}; EndOfData], s') /\
    IterateN_next (fun z => z <? 40) (Z.mul 2) s' = None.
Proof.
  apply (@IterateN_stops_at_first_failure Z 5 (fun z => z <? 40)
           (Z.mul 2) 3).
  - intros i Hi.
    destruct i as [|[|[|i]]]; [reflexivity|reflexivity|reflexivity|lia].
  - reflexivity.
Defined.

(** ** Iterate under Limit, Range and RangeClosed *)

Lemma limit_of_items :
  forall (T : Type) (up : producer T) (r : nat)
         (ods : list (orderedData T)) (count : Z) (cnt : nat)
         (u : pstate up),
    0 < count -> Z.to_nat count = length ods ->
    fst (serve (pnext up) (length ods) u) = map (@Item T) ods ->
    fst (serve (limit_next (up := up)) r
           {| locals := LimitRunning count; sent := cnt; upstream := u |}) =
    firstn r (map (@Item T) ods ++ repeat EndOfData r).
Proof.
  intros T up r. induction r as [|r IH]; intros ods count cnt u Hpos Hc Hu;
    [reflexivity|].
  cbn [serve].
  destruct (limit_next _) as [x s1] eqn:Hstep.
  unfold limit_next, getPrevData in Hstep.
  cbn [locals sent upstream] in Hstep.
  destruct ods as [|od ods]; [cbn in Hc; lia|].
  cbn [length serve map] in Hu.
  destruct (pnext up u) as [a0 u1] eqn:Hn.
  destruct (serve (pnext up) (length ods) u1) as [rs u2] eqn:Hrs.
  cbn [fst] in Hu. inversion Hu; subst a0 rs.
  destruct (count - 1 =? 0) eqn:Hz; inversion Hstep; subst x s1.
  - apply Z.eqb_eq in Hz.
    rewrite (@serve_fixed T _ (limit_next (up := up)) EndOfData)
      by reflexivity.
    destruct ods as [|od' ods]; [|cbn [length] in Hc; lia].
    cbn [fst map app firstn]. f_equal.
    rewrite firstn_repeat_le by lia. reflexivity.
  - apply Z.eqb_neq in Hz.
    specialize (IH ods (count - 1) (S cnt) u1 ltac:(lia)
                  ltac:(cbn [length] in Hc; lia)).
    rewrite Hrs in IH. specialize (IH eq_refl).
    destruct (serve (limit_next (up := up)) r _) as [rs' s2].
    cbn [fst] in *. rewrite IH. cbn [map app firstn]. f_equal.
    change (EndOfData :: repeat EndOfData r)
      with (repeat (@EndOfData T) (S r)).
    symmetry. apply firstn_app_repeat; lia.
Qed.

Lemma Iterate_serve_items :
  forall (T : Type) (seed : T) (f : T -> T) (n : nat) (v : T) (k : nat),
    fst (serve (Iterate_next seed f) n
           {| it_useSeed := false; it_nextValue := v;
              it_order := wrap64 (Z.of_nat k) |}) =
    map (@Item T)
      (items_from k (map (fun i => Nat.iter i f (f v)) (seq 0 n))).
Proof.
  intros T seed f n. induction n as [|n IH]; intros v k; [reflexivity|].
  cbn [serve]. unfold Iterate_next at 1.
  cbn [it_useSeed it_nextValue it_order]. rewrite wrap64_next.
  specialize (IH (f v) (S k)).
  destruct (serve (Iterate_next seed f) n _) as [rs s2] eqn:E.
  cbn [fst] in *. rewrite IH. rewrite iterates_cons. reflexivity.
Qed.

Lemma Iterate_emitted_items :
  forall (T : Type) (seed : T) (f : T -> T) (n : nat),
    emitted n (Iterate_producer seed f) =
    map (@Item T)
      (items_from 0 (map (fun i => Nat.iter i f seed) (seq 0 n))).
Proof.
  intros T seed f [|n]; [reflexivity|].
  unfold emitted. cbn [Iterate_producer pnext pcur pstate serve].
  unfold Iterate_next at 1. cbn [it_useSeed it_nextValue it_order].
  pose proof (@Iterate_serve_items T seed f n seed 1) as H.
  change (wrap64 (0 + 1)) with (wrap64 (Z.of_nat 1)).
  destruct (serve (Iterate_next seed f) n
              {| it_useSeed := false; it_nextValue := seed;
                 it_order := wrap64 (Z.of_nat 1) |}) as [rs s2].
  cbn [fst] in *. rewrite H. rewrite iterates_cons. reflexivity.
Qed.

(** X13. [Iterate(seed, f).Limit(maxSize)] with a positive [maxSize]
    makes the endless stream finite: it answers with [seed], [f(seed)],
    ..., [maxSize] items numbered from 0, and then closes. *)
Theorem Iterate_Limit_is_finite :
  forall (T : Type) (seed : T) (f : T -> T) (maxSize : Z),
    0 < maxSize ->
    yields (limit_producer (Iterate_producer seed f) maxSize)
      (items_from 0
         (map (fun i => Nat.iter i f seed) (seq 0 (Z.to_nat maxSize)))).
Proof.
  intros T seed f maxSize Hpos n. unfold emitted.
  cbn [limit_producer pnext pcur]. unfold limit_init.
  assert ((maxSize <? 0) = false) as -> by (apply Z.ltb_ge; lia).
  assert ((maxSize =? 0) = false) as -> by (apply Z.eqb_neq; lia).
  apply limit_of_items.
  - exact Hpos.
  - now rewrite items_from_length, length_map, length_seq.
  - rewrite items_from_length, length_map, length_seq.
    apply Iterate_emitted_items.
Qed.

Lemma Iterate_Limit_is_finite_witness :
  yields (limit_producer (Iterate_producer 1 (Z.mul 3)) 3)
    [{| order := 0; data := 1 |}; {| order := 1; data := 3 |};
     {| order := 2; data := 9 |}].
Proof.
  exact (@Iterate_Limit_is_finite Z 1 (Z.mul 3) 3 ltac:(lia)).
Defined.

Lemma wrapInt_small :
  forall z, - 2 ^ 63 <= z <= maxInt -> wrapInt z = z.
Proof.
  intros z H. unfold wrapInt, maxInt in *.
  rewrite Z.mod_small by lia. lia.
Qed.

Lemma iter_succ_int :
  forall (i : nat) (a : Z),
    - 2 ^ 63 <= a -> a + Z.of_nat i <= maxInt ->
    Nat.iter i (fun t => wrapInt (t + 1)) a = a + Z.of_nat i.
Proof.
  intros i. induction i as [|i IH]; intros a Ha Hb.
  - cbn. lia.
  - cbn [Nat.iter nat_rect]. change (nat_rect _ _ _ i)
      with (Nat.iter i (fun t => wrapInt (t + 1)) a).
    rewrite IH by lia. rewrite wrapInt_small by lia. lia.
Qed.

Lemma count_up_yields :
  forall (a n : Z),
    - 2 ^ 63 <= a -> 0 <= n -> a + n - 1 <= maxInt ->
    yields (limit_producer (Iterate_producer a (fun t => wrapInt (t + 1))) n)
      (items_from 0 (map (fun i => a + Z.of_nat i) (seq 0 (Z.to_nat n)))).
Proof.
  intros a n Ha Hn Hb.
  destruct (Z.eq_dec n 0) as [->|Hnz].
  - intros r. unfold emitted. cbn [limit_producer pnext pcur].
    change (limit_init 0) with LimitClosed.
    erewrite serve_fixed by reflexivity.
    cbn. now rewrite firstn_repeat_le.
  - intros r.
    unfold emitted. cbn [limit_producer pnext pcur]. unfold limit_init.
    assert ((n <? 0) = false) as -> by (apply Z.ltb_ge; lia).
    assert ((n =? 0) = false) as -> by (apply Z.eqb_neq; lia).
    apply limit_of_items.
    + lia.
    + now rewrite items_from_length, length_map, length_seq.
    + rewrite items_from_length, length_map, length_seq.
      refine (eq_trans (Iterate_emitted_items a _ (Z.to_nat n)) _).
      do 2 f_equal. apply map_ext_in. intros i Hi.
      apply in_seq in Hi. apply iter_succ_int; lia.
Qed.

(** X14. For [int] bounds with [start <= end] and a span that fits an
    [int], [Range(start, end)] answers with [start], [start+1], ...,
    [end-1], numbered from 0, and [RangeClosed(start, end)] with the
    same and [end].  Once the goroutine [limit] has started, the stream
    of [RangeClosed], and that of [Range] when [start < end], is open
    and sequential as it was returned; when [start = end], [Range] is
    [Limit(0)]: nothing is sent, and the goroutine has marked the
    stream closed, with [parallelCount] 0. *)
Theorem Range_counts_up :
  forall a b : Z,
    - 2 ^ 63 <= a -> a <= b -> b <= maxInt -> b - a < maxInt ->
    (exists st st',
        Range a b = Ok st /\
        yields (single_puller (chans st))
          (items_from 0
             (map (fun i => a + Z.of_nat i) (seq 0 (Z.to_nat (b - a))))) /\
        limit_started (wrapInt (b - a)) st = Ok st' /\
        (a < b -> st' = st /\ closed st' = false /\ parallelCount st' = 1) /\
        (a = b -> closed st' = true /\ parallelCount st' = 0)) /\
    (exists st,
        RangeClosed a b = Ok st /\
        yields (single_puller (chans st))
          (items_from 0
             (map (fun i => a + Z.of_nat i)
                (seq 0 (Z.to_nat (b - a + 1))))) /\
        limit_started (wrapInt (wrapInt (b - a) + 1)) st = Ok st /\
        closed st = false /\ parallelCount st = 1).
Proof.
  intros a b Ha Hab Hb Hspan. split.
  - destruct (Z.eq_dec a b) as [Heq|Hne].
    + eexists. eexists. split; [reflexivity|]. split; [|split; [|split]].
      * cbn [chans single_puller newGenericStream Iterate source_stream].
        rewrite wrapInt_small by (unfold maxInt in *; lia).
        apply count_up_yields; lia.
      * rewrite wrapInt_small by (unfold maxInt in *; lia).
        unfold limit_started.
        assert ((b - a <? 0) = false) as -> by (apply Z.ltb_ge; lia).
        assert ((b - a =? 0) = true) as -> by (apply Z.eqb_eq; lia).
        reflexivity.
      * intros Hlt. lia.
      * intros _. split; reflexivity.
    + eexists. eexists. split; [reflexivity|]. split; [|split; [|split]].
      * cbn [chans single_puller newGenericStream Iterate source_stream].
        rewrite wrapInt_small by (unfold maxInt in *; lia).
        apply count_up_yields; lia.
      * pose proof (@wrapInt_small (b - a)
                      ltac:(unfold maxInt in *; lia)) as Hw.
        unfold limit_started.
        destruct (wrapInt (b - a) <? 0) eqn:E1;
          [apply Z.ltb_lt in E1; lia|].
        destruct (wrapInt (b - a) =? 0) eqn:E2;
          [apply Z.eqb_eq in E2; lia|].
        reflexivity.
      * intros _. split; [reflexivity|]. split; reflexivity.
      * intros Heq. lia.
  - eexists. split; [reflexivity|]. split; [|split; [|split]].
    + cbn [chans single_puller newGenericStream Iterate source_stream].
      rewrite (wrapInt_small (z := b - a)) by (unfold maxInt in *; lia).
      rewrite wrapInt_small by (unfold maxInt in *; lia).
      apply count_up_yields; lia.
    + rewrite (wrapInt_small (z := b - a)) by (unfold maxInt in *; lia).
      rewrite wrapInt_small by (unfold maxInt in *; lia).
      unfold limit_started.
      assert ((b - a + 1 <? 0) = false) as -> by (apply Z.ltb_ge; lia).
      assert ((b - a + 1 =? 0) = false) as -> by (apply Z.eqb_neq; lia).
      reflexivity.
    + reflexivity.
    + reflexivity.
Qed.

Lemma Range_counts_up_witness :
  (exists st st',
      Range 3 6 = Ok st /\
      yields (single_puller (chans st))
        [{| order := 0; data := 3 |}; {| order := 1; data := 4 |};
         {| order := 2; data := 5 |}] /\
      limit_started 3 st = Ok st' /\
      closed st' = false /\ parallelCount st' = 1) /\
  (exists st st',
      Range 3 3 = Ok st /\
      yields (single_puller (chans st)) [] /\
      limit_started 0 st = Ok st' /\
      closed st' = true /\ parallelCount st' = 0) /\
  (exists st,
      RangeClosed 3 6 = Ok st /\
      yields (single_puller (chans st))
        [{| order := 0; data := 3 |}; {| order := 1; data := 4 |};
         {| order := 2; data := 5 |}; {| order := 3; data := 6 |}]).
Proof.
  split; [|split].
  - destruct (@Range_counts_up 3 6 ltac:(lia) ltac:(lia)
                ltac:(unfold maxInt; lia) ltac:(unfold maxInt; lia))
      as [[st [st' [H1 [H2 [H3 [H4 _]]]]]] _].
    exists st, st'. destruct (H4 ltac:(lia)) as [_ [H5 H6]].
    repeat split; assumption.
  - destruct (@Range_counts_up 3 3 ltac:(lia) ltac:(lia)
                ltac:(unfold maxInt; lia) ltac:(unfold maxInt; lia))
      as [[st [st' [H1 [H2 [H3 [_ H4]]]]]] _].
    exists st, st'. destruct (H4 eq_refl) as [H5 H6].
    repeat split; assumption.
  - destruct (@Range_counts_up 3 6 ltac:(lia) ltac:(lia)
                ltac:(unfold maxInt; lia) ltac:(unfold maxInt; lia))
      as [_ [st [H1 [H2 _]]]].
    exists st. split; assumption.
Defined.

(** X15. [Range(start, end)] on [int] bounds whose difference is
    negative as an [int] -- [end] below [start], or [end] so far above
    [start] that the difference wraps around -- returns a stream, and
    the goroutine behind it panics as it starts: every request is met
    by the panic of [limit]. *)
Theorem Range_negative_span_panics :
  forall a b : Z,
    - 2 ^ 63 <= a <= maxInt -> - 2 ^ 63 <= b <= maxInt ->
    (- 2 ^ 63 <= b - a < 0 \/ maxInt < b - a) ->
    let n := wrapInt (b - a) in
    n < 0 /\
    exists st,
      Range a b = Ok st /\
      forall r,
        emitted r (single_puller (chans st)) =
        repeat (Panicked ("maxSize must not be negative: " ++ show_int n)) r.
Proof.
  intros a b Ha Hb Hspan n.
  assert (Hn : n < 0).
  { unfold n, wrapInt, maxInt in *. destruct Hspan as [H|H].
    - rewrite Z.mod_small by lia. lia.
    - replace (b - a + 2 ^ 63) with (b - a - 2 ^ 63 + 1 * 2 ^ 64) by lia.
      rewrite Z.mod_add by lia. rewrite Z.mod_small by lia. lia. }
  split; [exact Hn|].
  eexists. split; [reflexivity|]. intros r.
  cbn [chans single_puller newGenericStream Iterate source_stream].
  unfold emitted. cbn [limit_producer pnext pcur]. unfold limit_init.
  fold n. assert ((n <? 0) = true) as -> by (apply Z.ltb_lt; lia).
  now erewrite serve_fixed by reflexivity.
Qed.

Lemma Range_negative_span_panics_witness :
  wrapInt (maxInt - (-2)) < 0 /\
  exists st,
    Range (-2) maxInt = Ok st /\
    forall r,
      emitted r (single_puller (chans st)) =
      repeat (Panicked ("maxSize must not be negative: "
                        ++ show_int (wrapInt (maxInt - (-2))))) r.
Proof.
  apply (@Range_negative_span_panics (-2) maxInt);
    unfold maxInt; lia.
Defined.

(** ** FileLines *)

Lemma FileLines_serve :
  forall (lines : list string) (n : nat) (st : fileLines_state),
    fl_done st = false -> fl_i st = 0 ->
    fst (serve (FileLines_next lines) n st) =
    firstn n (map (@Item string)
                (map (fun text => {| order := 0; data := text |})
                   (skipn (fl_scanned st) lines))
              ++ repeat EndOfData n).
Proof.
  intros lines n. induction n as [|n IH]; intros [k i d] Hd Hi;
    [reflexivity|]. cbn [fl_done fl_i fl_scanned] in *. subst d i.
  cbn [serve]. unfold FileLines_next at 1. cbn [fl_done fl_i fl_scanned].
  destruct (nth_error lines k) as [text|] eqn:Hk.
  - rewrite (skipn_nth_error _ _ Hk).
    specialize (IH {| fl_scanned := S k; fl_i := 0; fl_done := false |}
                  eq_refl eq_refl).
    destruct (serve (FileLines_next lines) n _) as [rs s2].
    cbn [fst fl_scanned] in *. rewrite IH.
    cbn [map app firstn]. f_equal.
    apply firstn_app_repeat; lia.
  - apply nth_error_None in Hk. rewrite skipn_all2 by exact Hk.
    rewrite (@serve_fixed string _ (FileLines_next lines) EndOfData)
      by reflexivity.
    cbn. f_equal. now rewrite firstn_repeat_le.
Qed.

Lemma FileLines_yields :
  forall lines : list string,
    yields (FileLines_producer lines)
      (map (fun text => {| order := 0; data := text |}) lines).
Proof.
  intros lines n. unfold emitted.
  cbn [FileLines_producer pnext pcur pstate].
  now rewrite FileLines_serve.
Qed.

Lemma insert_after_last :
  forall (A : Type) (less : A -> A -> bool) (x : A) (l : list A),
    (forall y, In y l -> less x y = false) ->
    insert_after less x l = l ++ [x].
Proof.
  intros A less x l. induction l as [|y l IH]; intros H; cbn;
    [reflexivity|].
  rewrite (H y) by now left. f_equal. apply IH. intros z Hz.
  apply H. now right.
Qed.

Lemma stable_sort_keeps_ties :
  forall (A : Type) (less : A -> A -> bool) (l : list A),
    (forall a b, In a l -> In b l -> less a b = false) ->
    stable_sort less l = l.
Proof.
  intros A less l H. unfold stable_sort.
  assert (G : forall rest acc,
             (forall a b, In a (acc ++ rest) -> In b (acc ++ rest) ->
                          less a b = false) ->
             fold_left (fun acc x => insert_after less x acc) rest acc =
             acc ++ rest).
  { induction rest as [|x rest IH]; intros acc Hl; cbn.
    - now rewrite app_nil_r.
    - rewrite insert_after_last.
      + rewrite IH; [now rewrite <- app_assoc|].
        intros a b Ha Hb. rewrite <- app_assoc in Ha, Hb.
        now apply Hl.
      + intros y Hy. apply Hl; apply in_or_app; [right; now left|now left]. }
  apply (G l []). exact H.
Qed.

Lemma reversing_sort_sorts :
  forall (A : Type) (key : A -> Z) (less : A -> A -> bool),
    (forall a b, less a b = (key a <? key b)) ->
    sorts less (reversing_sort less).
Proof.
  intros A key less Hk l. unfold reversing_sort.
  destruct (stable_sort_sorts key less Hk (rev l)) as [Hp Hs].
  split; [|exact Hs]. rewrite <- Hp. apply Permutation_rev.
Qed.

(** X16. [FileLines] gives every line of the file the sequence number
    0: the counter [i] it numbers them with is never advanced.  It
    answers with the lines in file order and then closes. *)
Theorem FileLines_numbers_every_line_zero :
  forall lines : list string,
    yields (FileLines_producer lines)
      (map (fun text => {| order := 0; data := text |}) lines) /\
    forall n od, answer (FileLines_producer lines) n = Item od ->
                 order od = 0.
Proof.
  intros lines. split; [apply FileLines_yields|].
  intros n od H. pose proof (answer_nth_error (FileLines_producer lines) n)
    as Hn.
  rewrite H in Hn. rewrite (FileLines_yields lines (S n)) in Hn.
  apply nth_error_In in Hn.
  eapply or_introl in Hn. apply in_or_app in Hn.
  rewrite firstn_skipn in Hn.
  apply in_app_or in Hn. destruct Hn as [Hn|Hn].
  - rewrite map_map in Hn. apply in_map_iff in Hn.
    destruct Hn as [text [E _]]. now inversion E.
  - apply repeat_spec in Hn. discriminate.
Qed.

(** X17. [ToSlice] on [FileLines] sorts items that all carry the
    number 0, so the order of the lines in the result is left to the
    sort: any sort meeting the contract of [sort.Slice] returns some
    arrangement of the lines; a stable one returns them in file order,
    and there is one meeting the contract that returns them
    reversed. *)
Theorem ToSlice_of_FileLines_leaves_order_to_the_sort :
  forall lines : list string,
    (forall sorter, sorts (@order_less string) sorter ->
       exists l,
         ToSlice_direct sorter (S (length lines)) (FileLines_producer lines)
         = Finished l /\ Permutation lines l) /\
    ToSlice_direct (stable_sort (@order_less string)) (S (length lines))
      (FileLines_producer lines) = Finished lines /\
    sorts (@order_less string) (reversing_sort (@order_less string)) /\
    ToSlice_direct (reversing_sort (@order_less string)) (S (length lines))
      (FileLines_producer lines) = Finished (rev lines).
Proof.
  intros lines.
  set (ods := map (fun text => {| order := 0; data := text |}) lines).
  assert (Hrun : forall sorter,
             ToSlice_direct sorter (S (length lines))
               (FileLines_producer lines) =
             Finished (map (@data string) (sorter ods))).
  { intros sorter. unfold ToSlice_direct.
    destruct (@terminalOpOrderedData_yields string _
                (fun ods od => ods ++ [od]) ods []
                (FileLines_producer lines) (FileLines_yields lines))
      as [p' Hp].
    unfold ods in Hp at 1. rewrite length_map in Hp. rewrite Hp.
    cbn [run_map fst]. rewrite (fold_left_snoc (fun od => od)).
    cbn [app]. now rewrite map_id. }
  assert (Hdata : map (@data string) ods = lines).
  { unfold ods. rewrite map_map. cbn [data]. apply map_id. }
  assert (Hties : forall l a b,
             In a l -> In b l -> incl l ods ->
             order_less a b = false).
  { intros l a b Ha Hb Hl. apply Hl in Ha. apply Hl in Hb.
    unfold ods in Ha, Hb. apply in_map_iff in Ha, Hb.
    destruct Ha as [x [<- _]]. destruct Hb as [y [<- _]]. reflexivity. }
  repeat split.
  - intros sorter Hs. eexists. split; [apply Hrun|].
    rewrite <- Hdata at 1. apply Permutation_map. apply (Hs ods).
  - rewrite Hrun. rewrite stable_sort_keeps_ties; [now rewrite Hdata|].
    intros a b Ha Hb. apply (Hties ods); auto. apply incl_refl.
  - apply (reversing_sort_sorts (@order string)). reflexivity.
  - apply (reversing_sort_sorts (@order string)). reflexivity.
  - rewrite Hrun. unfold reversing_sort.
    rewrite stable_sort_keeps_ties.
    + now rewrite map_rev, Hdata.
    + intros a b Ha Hb. apply (Hties (rev ods)); auto.
      intros x Hx. now apply in_rev.
Qed.

Lemma ToSlice_of_FileLines_leaves_order_to_the_sort_witness :
  ToSlice_direct (stable_sort (@order_less string)) 3
    (FileLines_producer ["one"%string; "two"%string]) =
  Finished ["one"%string; "two"%string] /\
  ToSlice_direct (reversing_sort (@order_less string)) 3
    (FileLines_producer ["one"%string; "two"%string]) =
  Finished ["two"%string; "one"%string].
Proof.
  destruct (ToSlice_of_FileLines_leaves_order_to_the_sort
              ["one"%string; "two"%string]) as [_ [H1 [_ H2]]].
  split; [exact H1|exact H2].
Defined.

(** ** Folding terminal operations *)

Lemma map_upd :
  forall (A B : Type) (f : A -> B) (i : nat) (x : A) (l : list A),
    map f (upd i x l) = upd i (f x) (map f l).
Proof.
  intros A B f i x l. revert i.
  induction l as [|y l IH]; intros [|i]; cbn; try reflexivity.
  now rewrite IH.
Qed.

Section FoldView.
Variables T A : Type.
Variable xs : list T.
Variable op : A -> T -> A.
Variable a0 : A.

Local Abbreviation view := (fold_view op a0).
Local Abbreviation lift :=
  (fun r : Par.moved (collect_consumer (@data T)) =>
     match r with
     | Par.Next s' => Par.Next (view s')
     | Par.Waits _ => Par.Waits _
     | Par.GoPanic _ msg => Par.GoPanic _ msg
     end).

Lemma fold_view_close :
  forall (j : nat) (s : Par.state (collect_consumer (@data T))),
    Par.close j (view s) = view (Par.close j s).
Proof.
  intros j s. unfold Par.close, fold_view. cbn.
  destruct (Par.sclosed (Par.sg s)); [reflexivity|].
  destruct (Par.pcount (Par.sg s) - 1 >? 0); reflexivity.
Qed.

Lemma fold_view_step :
  forall (a : Par.actor) (s : Par.state (collect_consumer (@data T))),
    Par.step xs a (view s) = lift (Par.step xs a s).
Proof.
  intros a s. destruct a as [|j|j|j]; cbn [Par.step].
  - unfold Par.step_src, Par.set_so, fold_view. cbn.
    destruct (of_done (Par.src (Par.so s)));
      destruct (Par.srcReq (Par.so s)); try reflexivity.
    + destruct (Par.srcReqClosed (Par.so s)); reflexivity.
    + destruct (Of_next xs (Par.src (Par.so s))) as [[od| |msg|] st'];
        reflexivity.
  - unfold Par.step_worker.
    change (Par.sg (view s)) with (Par.sg s).
    change (Par.so (view s)) with (Par.so s).
    destruct (nth_error (Par.workers (Par.sg s)) j) as [[| |od|]|];
      try reflexivity.
    + destruct (Par.midReq (Par.sg s)).
      * destruct (Par.midReqClosed (Par.sg s)); [|reflexivity].
        now rewrite fold_view_close.
      * destruct (Par.srcReqClosed (Par.so s)); reflexivity.
    + destruct (Par.srcData (Par.so s)); [|reflexivity].
      destruct (of_done (Par.src (Par.so s))); [|reflexivity].
      now rewrite fold_view_close.
    + destruct (Par.sclosed (Par.sg s)); reflexivity.
  - unfold Par.step_quit.
    change (Par.sg (view s)) with (Par.sg s).
    change (Par.so (view s)) with (Par.so s).
    destruct (nth_error (Par.workers (Par.sg s)) j) as [[| |od|]|];
      try reflexivity.
    destruct (of_done (Par.src (Par.so s))); [|reflexivity].
    now rewrite fold_view_close.
  - unfold Par.step_term.
    change (Par.sg (view s)) with (Par.sg s).
    change (Par.terms (Par.te (view s)))
      with (map (fold_term op a0) (Par.terms (Par.te s))).
    rewrite nth_error_map.
    destruct (nth_error (Par.terms (Par.te s)) j) as [[|l|l|]|];
      cbn [option_map fold_term]; try reflexivity.
    + unfold Par.request. cbn.
      destruct (Par.midReqClosed (Par.sg s)); [reflexivity|].
      unfold fold_view. cbn. now rewrite map_upd.
    + destruct (Par.midData (Par.sg s)) as [|od rest].
      * destruct (Par.sclosed (Par.sg s)); [|reflexivity].
        unfold Par.terminalClose, fold_view. cbn. now rewrite map_upd.
      * cbn. unfold Par.request. cbn.
        destruct (Par.midReqClosed (Par.sg s)); [reflexivity|].
        unfold fold_view. cbn. rewrite map_upd. cbn.
        now rewrite fold_left_app.
    + unfold fold_view. cbn. rewrite map_upd, map_app. reflexivity.
Qed.

Lemma fold_view_exec :
  forall (sched : list Par.actor)
         (s : Par.state (collect_consumer (@data T))),
    Par.exec xs sched (view s) = lift (Par.exec xs sched s).
Proof.
  intros sched. induction sched as [|a sched IH]; intros s; cbn [Par.exec].
  - reflexivity.
  - rewrite fold_view_step.
    destruct (Par.step xs a s) as [s'| |msg]; [apply IH|reflexivity..].
Qed.

Lemma fold_view_init :
  forall m k : nat,
    view (Par.init m k (collect_consumer (@data T))) =
    Par.init m k (fold_consumer op a0).
Proof.
  intros m k. unfold fold_view, Par.init. cbn. now rewrite map_repeat.
Qed.

Lemma fold_view_complete :
  forall s : Par.state (collect_consumer (@data T)),
    Par.complete (view s) = Par.complete s.
Proof.
  intros s. unfold Par.complete. cbn.
  induction (Par.terms (Par.te s)) as [|t ts IH]; cbn; [reflexivity|].
  rewrite IH. now destruct t.
Qed.

(** Every full run of folding goroutines is the view of a full run of
    collecting ones, whose slices hold every element exactly once. *)
Lemma fold_run_collects :
  forall (m k : nat) (sched : list Par.actor)
         (s : Par.state (fold_consumer op a0)),
    (1 <= k)%nat ->
    Par.runs_to xs m k sched s ->
    exists ls : list (list T),
      Par.results (Par.te s) = map (fun l => fold_left op l a0) ls /\
      Permutation xs (concat ls).
Proof.
  intros m k sched s Hk [Hex Hc].
  rewrite <- fold_view_init, fold_view_exec in Hex.
  destruct (Par.exec xs sched (Par.init m k (collect_consumer (@data T))))
    as [s0| |msg] eqn:E0; try discriminate.
  inversion Hex; subst s. rewrite fold_view_complete in Hc.
  exists (Par.results (Par.te s0)). split; [reflexivity|].
  rewrite <- (map_data_items_from xs 0).
  apply (@ParFacts.collect_all T T (@data T) xs m k sched s0 Hk).
  split; assumption.
Qed.

Lemma fold_run_exists :
  forall m k : nat,
    (1 <= m)%nat -> (1 <= k)%nat ->
    exists sched s, @Par.runs_to T xs m k (fold_consumer op a0) sched s.
Proof.
  intros m k Hm Hk.
  apply ParFacts.full_run_exists; auto; intros; reflexivity.
Qed.
End FoldView.

Lemma terminalOp_yields :
  forall (T A : Type) (op : A -> T -> A) (ods : list (orderedData T))
         (a : A) (p : producer T),
    yields p ods ->
    exists p',
      terminalOp (S (length ods)) op a p =
      Finished (fold_left op (map (@data T) ods) a, p').
Proof.
  intros T A op ods a p Hy. unfold terminalOp.
  destruct (@terminalOpOrderedData_yields T A
              (fun a od => op a (data od)) ods a p Hy) as [p' H].
  exists p'. rewrite H. f_equal. f_equal.
  clear. revert a. induction ods as [|od ods IH]; intros a; cbn;
    [reflexivity|apply IH].
Qed.

Lemma terminalOp_Of :
  forall (T A : Type) (op : A -> T -> A) (xs : list T) (a : A),
    exists p',
      terminalOp (S (length xs)) op a (Of_producer xs) =
      Finished (fold_left op xs a, p').
Proof.
  intros T A op xs a.
  destruct (@terminalOp_yields T A op (items_from 0 xs) a
              (Of_producer xs) (Of_yields xs)) as [p' H].
  rewrite items_from_length, map_data_items_from in H. now exists p'.
Qed.

(** *** Reduce *)

(** X18. Method [Reduce] on a stream that is not parallel folds the
    items from [identity] in the order received and then applies
    [accumulator] to [identity] and that fold: the identity enters the
    result twice, whatever the accumulator. *)
Theorem Reduce_applies_identity_twice :
  forall (T : Type) (identity : T) (accumulator : T -> T -> T)
         (p : producer T) (ods : list (orderedData T)),
    yields p ods ->
    Reduce_direct (S (length ods)) identity accumulator p =
    Finished (accumulator identity
                (fold_left accumulator (map (@data T) ods) identity)).
Proof.
  intros T identity accumulator p ods Hy. unfold Reduce_direct.
  destruct (@terminalOp_yields T T accumulator ods identity p Hy)
    as [p' H].
  now rewrite H.
Qed.

Lemma Reduce_applies_identity_twice_witness :
  Reduce_direct 4 10 Z.add (Of_producer [1; 2; 3]) = Finished 26.
Proof.
  exact (@Reduce_applies_identity_twice Z 10 Z.add (Of_producer [1; 2; 3])
           (items_from 0 [1; 2; 3]) (Of_yields [1; 2; 3])).
Defined.

Section Monoid.
Variable T : Type.
Variable f : T -> T -> T.
Variable e : T.
Hypothesis f_assoc : forall x y z, f (f x y) z = f x (f y z).
Hypothesis f_comm : forall x y, f x y = f y x.
Hypothesis f_unit : forall x, f e x = x.

Lemma fold_left_from :
  forall (l : list T) (a : T), fold_left f l a = f a (fold_left f l e).
Proof.
  intros l. induction l as [|x l IH]; intros a; cbn.
  - now rewrite f_comm, f_unit.
  - rewrite IH. rewrite (IH (f e x)). rewrite f_unit.
    now rewrite f_assoc.
Qed.

Lemma fold_left_partials :
  forall (ls : list (list T)) (a : T),
    fold_left f (map (fun l => fold_left f l e) ls) a =
    fold_left f (concat ls) a.
Proof.
  intros ls. induction ls as [|l ls IH]; intros a; cbn; [reflexivity|].
  rewrite fold_left_app, IH. f_equal. symmetry. apply fold_left_from.
Qed.

Lemma fold_left_perm :
  forall (l l' : list T), Permutation l l' ->
    forall a, fold_left f l a = fold_left f l' a.
Proof.
  intros l l' H. induction H as [|x l l' H IH|x y l|l l' l'' H1 IH1 H2 IH2];
    intros a; cbn.
  - reflexivity.
  - apply IH.
  - f_equal. rewrite !f_assoc. f_equal. apply f_comm.
  - now rewrite IH1.
Qed.
End Monoid.

(** X19. Method [Reduce] on [Of(xs...).Parallel()] with an accumulator
    that is associative and commutative and an [identity] that is
    neutral for it: a run to the end exists, and every run, whatever the
    numbers of goroutines and the schedule, returns the fold of [xs]
    from [identity]. *)
Theorem Reduce_parallel_is_the_fold :
  forall (T : Type) (xs : list T) (identity : T)
         (accumulator : T -> T -> T) (m k : nat),
    (forall x y z, accumulator (accumulator x y) z =
                   accumulator x (accumulator y z)) ->
    (forall x y, accumulator x y = accumulator y x) ->
    (forall x, accumulator identity x = x) ->
    (1 <= m)%nat -> (1 <= k)%nat ->
    (exists sched s,
        @Par.runs_to T xs m k (fold_consumer accumulator identity) sched s) /\
    forall sched s,
      @Par.runs_to T xs m k (fold_consumer accumulator identity) sched s ->
      Reduce_parallel s = fold_left accumulator xs identity.
Proof.
  intros T xs identity accumulator m k Ha Hc Hu Hm Hk. split.
  - now apply fold_run_exists.
  - intros sched s Hrun. unfold Reduce_parallel.
    destruct (@fold_run_collects T T xs accumulator identity m k sched s
                Hk Hrun) as [ls [Hres Hperm]].
    rewrite Hres.
    rewrite (@fold_left_partials T accumulator identity Ha Hc Hu).
    symmetry. now apply (@fold_left_perm T accumulator Ha Hc).
Qed.

Lemma Reduce_parallel_is_the_fold_witness :
  exists sched s,
    @Par.runs_to Z [1; 2; 3] 2 2 (fold_consumer Z.mul 1) sched s /\
    Reduce_parallel s = 6.
Proof.
  destruct (@Reduce_parallel_is_the_fold Z [1; 2; 3] 1 Z.mul 2 2
              ltac:(intros; lia) ltac:(intros; lia)
              ltac:(intros; lia) ltac:(lia) ltac:(lia))
    as [[sched [s Hrun]] Hall].
  exists sched, s. split; [exact Hrun|]. exact (Hall sched s Hrun).
Defined.

(** *** Count and Sum *)

Lemma wrapInt_add_l :
  forall a b, wrapInt (wrapInt a + b) = wrapInt (a + b).
Proof.
  intros a b. unfold wrapInt.
  generalize (2 ^ 64) as M. generalize (2 ^ 63) as h. intros h M.
  replace ((a + h) mod M - h + b + h) with ((a + h) mod M + b)
    by (generalize ((a + h) mod M); intros; lia).
  rewrite Zplus_mod_idemp_l. do 2 f_equal. lia.
Qed.

Lemma wrapInt_add_r :
  forall a b, wrapInt (a + wrapInt b) = wrapInt (a + b).
Proof.
  intros a b. rewrite Z.add_comm, wrapInt_add_l. f_equal. lia.
Qed.

Lemma sum_fold :
  forall (l : list Z) (a : Z),
    fold_left sum_step l (wrapInt a) = wrapInt (a + sumZ l).
Proof.
  intros l. induction l as [|x l IH]; intros a; cbn [fold_left].
  - cbn. now rewrite Z.add_0_r.
  - change (sumZ (x :: l)) with (x + sumZ l).
    change (sum_step (wrapInt a) x) with (wrapInt (wrapInt a + x)).
    rewrite wrapInt_add_l, IH. f_equal. lia.
Qed.

Lemma sum_fold_0 :
  forall l : list Z, fold_left sum_step l 0 = wrapInt (sumZ l).
Proof. intros l. exact (sum_fold l 0). Qed.

Lemma sumZ_app :
  forall l l' : list Z, sumZ (l ++ l') = sumZ l + sumZ l'.
Proof.
  intros l l'. induction l as [|x l IH]; [reflexivity|].
  cbn [app]. change (sumZ (x :: l ++ l')) with (x + sumZ (l ++ l')).
  change (sumZ (x :: l)) with (x + sumZ l). rewrite IH. lia.
Qed.

Lemma sumZ_perm :
  forall l l' : list Z, Permutation l l' -> sumZ l = sumZ l'.
Proof.
  intros l l' H. unfold sumZ. induction H; cbn; lia.
Qed.

Lemma sum_partials :
  forall (ls : list (list Z)) (a : Z),
    fold_left sum_step (map (fun l => fold_left sum_step l 0) ls)
      (wrapInt a) =
    wrapInt (a + sumZ (concat ls)).
Proof.
  intros ls. induction ls as [|l ls IH]; intros a; cbn [map fold_left concat].
  - cbn. now rewrite Z.add_0_r.
  - rewrite sum_fold_0.
    change (sum_step (wrapInt a) (wrapInt (sumZ l)))
      with (wrapInt (wrapInt a + wrapInt (sumZ l))).
    rewrite wrapInt_add_l, wrapInt_add_r.
    rewrite IH, sumZ_app. f_equal. lia.
Qed.

Lemma count_as_sum :
  forall (T : Type) (l : list T) (a : Z),
    fold_left (@count_step T) l a =
    fold_left sum_step (map (fun _ => 1) l) a.
Proof.
  intros T l. induction l as [|x l IH]; intros a; cbn; [reflexivity|].
  apply IH.
Qed.

Lemma sumZ_ones :
  forall (T : Type) (l : list T),
    sumZ (map (fun _ => 1) l) = Z.of_nat (length l).
Proof.
  intros T l. induction l as [|x l IH]; [reflexivity|].
  cbn [map sumZ fold_right length]. fold (sumZ (map (fun _ : T => 1) l)).
  rewrite IH. lia.
Qed.

(** X20. [Count] on [Of(xs...)] returns the length of [xs]; on
    [Of(xs...).Parallel()] a run to the end exists and every run,
    whatever the numbers of goroutines and the schedule, returns the
    length of [xs]. *)
Theorem Count_counts_every_element :
  forall (T : Type) (xs : list T) (m k : nat),
    Z.of_nat (length xs) <= maxInt ->
    (1 <= m)%nat -> (1 <= k)%nat ->
    Count_direct (S (length xs)) (Of_producer xs) =
    Finished (Z.of_nat (length xs)) /\
    (exists sched s,
        @Par.runs_to T xs m k (fold_consumer (@count_step T) 0) sched s) /\
    forall sched s,
      @Par.runs_to T xs m k (fold_consumer (@count_step T) 0) sched s ->
      Count_parallel s = Z.of_nat (length xs).
Proof.
  intros T xs m k Hlen Hm Hk.
  assert (Hw : wrapInt (Z.of_nat (length xs)) = Z.of_nat (length xs))
    by (apply wrapInt_small; unfold maxInt in *; lia).
  split; [|split].
  - unfold Count_direct.
    destruct (@terminalOp_Of T Z (@count_step T) xs 0) as [p' H].
    rewrite H. cbn [run_map fst]. f_equal.
    rewrite count_as_sum, sum_fold_0, sumZ_ones.
    rewrite Hw. cbn [Z.add]. exact Hw.
  - now apply fold_run_exists.
  - intros sched s Hrun. unfold Count_parallel.
    destruct (@fold_run_collects T Z xs (@count_step T) 0 m k sched s
                Hk Hrun) as [ls [Hres Hperm]].
    rewrite Hres.
    replace (map (fun l => fold_left (@count_step T) l 0) ls)
      with (map (fun l => fold_left sum_step l 0)
              (map (map (fun _ => 1)) ls)).
    + change (fold_left (fun count r => wrapInt (count + r)))
        with (fold_left sum_step).
      rewrite (sum_partials _ 0).
      rewrite <- concat_map, sumZ_ones.
      rewrite <- (Permutation_length Hperm). cbn [Z.add]. exact Hw.
    + rewrite map_map. apply map_ext. intros l.
      symmetry. apply count_as_sum.
Qed.

Lemma Count_counts_every_element_witness :
  Count_direct 4 (Of_producer [7; 7; 9]) = Finished 3 /\
  exists sched s,
    @Par.runs_to Z [7; 7; 9] 2 3 (fold_consumer (@count_step Z) 0) sched s /\
    Count_parallel s = 3.
Proof.
  destruct (@Count_counts_every_element Z [7; 7; 9] 2 3
              ltac:(vm_compute; discriminate) ltac:(lia) ltac:(lia))
    as [Hseq [[sched [s Hrun]] Hall]].
  split; [exact Hseq|].
  exists sched, s. split; [exact Hrun|]. exact (Hall sched s Hrun).
Defined.

(** X21. [Sum] at type [int]: on [Of(xs...)] it returns the sum of [xs]
    wrapped to an [int]; on [Of(xs...).Parallel()] a run to the end
    exists and every run returns that same value, whatever the schedule
    and even where partial sums overflow. *)
Theorem Sum_is_schedule_independent :
  forall (xs : list Z) (m k : nat),
    (1 <= m)%nat -> (1 <= k)%nat ->
    Sum_direct (S (length xs)) (Of_producer xs) =
    Finished (wrapInt (sumZ xs)) /\
    (exists sched s,
        @Par.runs_to Z xs m k (fold_consumer sum_step 0) sched s) /\
    forall sched s,
      @Par.runs_to Z xs m k (fold_consumer sum_step 0) sched s ->
      Sum_parallel s = wrapInt (sumZ xs).
Proof.
  intros xs m k Hm Hk. split; [|split].
  - unfold Sum_direct.
    destruct (@terminalOp_Of Z Z sum_step xs 0) as [p' H].
    rewrite H. cbn [run_map fst]. f_equal. apply sum_fold_0.
  - now apply fold_run_exists.
  - intros sched s Hrun. unfold Sum_parallel.
    destruct (@fold_run_collects Z Z xs sum_step 0 m k sched s Hk Hrun)
      as [ls [Hres Hperm]].
    rewrite Hres. rewrite (sum_partials _ 0). cbn [Z.add].
    now rewrite (sumZ_perm Hperm).
Qed.

Lemma Sum_is_schedule_independent_witness :
  Sum_direct 3 (Of_producer [maxInt; 1]) = Finished (- 2 ^ 63) /\
  exists sched s,
    @Par.runs_to Z [maxInt; 1] 2 2 (fold_consumer sum_step 0) sched s /\
    Sum_parallel s = - 2 ^ 63.
Proof.
  destruct (@Sum_is_schedule_independent [maxInt; 1] 2 2
              ltac:(lia) ltac:(lia))
    as [Hseq [[sched [s Hrun]] Hall]].
  split; [exact Hseq|].
  exists sched, s. split; [exact Hrun|]. exact (Hall sched s Hrun).
Defined.

(** *** Min and Max *)

Section Least.
Variable T : Type.
Variable key : T -> Z.
Variable less : T -> T -> bool.
Hypothesis less_key : forall a b, less a b = (key a <? key b).

Lemma least_step :
  forall (r : option T) (l0 : list T) (t : T),
    least_by key r l0 -> least_by key (min_step less r t) (l0 ++ [t]).
Proof.
  intros [m|] l0 t H; cbn in *.
  - destruct H as [Hin Hall]. rewrite less_key.
    destruct (key t <? key m) eqn:E.
    + apply Z.ltb_lt in E. split; [apply in_or_app; right; now left|].
      apply Forall_app. split.
      * eapply Forall_impl; [|exact Hall]. cbn. intros x Hx. lia.
      * repeat constructor. lia.
    + apply Z.ltb_ge in E. split; [apply in_or_app; now left|].
      apply Forall_app. split; [exact Hall|]. now repeat constructor.
  - subst l0. cbn. split; [now left|]. repeat constructor. lia.
Qed.

Lemma least_fold :
  forall (l : list T) (r : option T) (l0 : list T),
    least_by key r l0 ->
    least_by key (fold_left (min_step less) l r) (l0 ++ l).
Proof.
  intros l. induction l as [|t l IH]; intros r l0 H; cbn [fold_left].
  - now rewrite app_nil_r.
  - replace (l0 ++ t :: l) with ((l0 ++ [t]) ++ l)
      by (now rewrite <- app_assoc).
    apply IH. now apply least_step.
Qed.

Lemma least_merge :
  forall (acc o : option T) (l0 l : list T),
    least_by key acc l0 -> least_by key o l ->
    least_by key (merge_partial (min_step less) acc o) (l0 ++ l).
Proof.
  intros acc [v|] l0 l Ha Ho; cbn in Ho; cbn [merge_partial].
  - destruct Ho as [Hin Hall]. destruct acc as [m|]; cbn in *.
    + destruct Ha as [Hin0 Hall0]. rewrite less_key.
      destruct (key v <? key m) eqn:E.
      * apply Z.ltb_lt in E. split; [apply in_or_app; now right|].
        apply Forall_app. split; [|exact Hall].
        eapply Forall_impl; [|exact Hall0]. cbn. intros x Hx. lia.
      * apply Z.ltb_ge in E. split; [apply in_or_app; now left|].
        apply Forall_app. split; [exact Hall0|].
        eapply Forall_impl; [|exact Hall]. cbn. intros x Hx. lia.
    + subst l0. cbn. now split.
  - subst l. now rewrite app_nil_r.
Qed.

Lemma least_partials :
  forall (ls : list (list T)) (acc : option T) (l0 : list T),
    least_by key acc l0 ->
    least_by key
      (fold_left (merge_partial (min_step less))
         (map (fun l => fold_left (min_step less) l None) ls) acc)
      (l0 ++ concat ls).
Proof.
  intros ls. induction ls as [|l ls IH]; intros acc l0 H;
    cbn [map fold_left concat].
  - now rewrite app_nil_r.
  - rewrite app_assoc. apply IH. apply least_merge; [exact H|].
    apply (least_fold l None []). reflexivity.
Qed.

Lemma least_perm :
  forall (r : option T) (l l' : list T),
    least_by key r l -> Permutation l l' -> least_by key r l'.
Proof.
  intros [m|] l l' H Hp; cbn in *.
  - destruct H as [Hin Hall]. split.
    + eapply Permutation_in; eassumption.
    + eapply Permutation_Forall; eassumption.
  - subst l. now apply Permutation_nil in Hp.
Qed.

Lemma Min_direct_least :
  forall xs : list T,
    exists r, Min_direct (S (length xs)) less (Of_producer xs) = Finished r /\
              least_by key r xs.
Proof.
  intros xs. unfold Min_direct.
  destruct (@terminalOp_Of T _ (min_step less) xs None) as [p' H].
  rewrite H. eexists. split; [reflexivity|]. cbn [fst].
  apply (least_merge None _ [] xs); [reflexivity|].
  apply (least_fold xs None []). reflexivity.
Qed.

Lemma Min_parallel_least :
  forall (xs : list T) (m k : nat) (sched : list Par.actor)
         (s : Par.state (fold_consumer (min_step less) None)),
    (1 <= k)%nat -> Par.runs_to xs m k sched s ->
    least_by key (Min_parallel s) xs.
Proof.
  intros xs m k sched s Hk Hrun. unfold Min_parallel.
  destruct (@fold_run_collects T _ xs (min_step less) None m k sched s
              Hk Hrun) as [ls [Hres Hperm]].
  rewrite Hres. apply least_perm with (l := concat ls).
  - apply (least_partials ls None []). reflexivity.
  - now symmetry.
Qed.
End Least.

(** X22. [Min] and [Max] with a [less] that compares integer keys (as
    [x < y] does for the functions [Min] and [Max] of stream_func.go):
    on [Of(xs...)] they return, and on [Of(xs...).Parallel()], for every
    number of goroutines, they have a complete run; [Min] returns an
    element of [xs] with the least key and [Max] one with the greatest,
    whatever the schedule, and the empty Optional exactly when [xs] is
    empty. *)
Theorem Min_Max_return_extremes :
  forall (T : Type) (key : T -> Z) (less : T -> T -> bool) (xs : list T)
         (m k : nat),
    (forall a b, less a b = (key a <? key b)) ->
    (1 <= m)%nat -> (1 <= k)%nat ->
    (exists r, Min_direct (S (length xs)) less (Of_producer xs) = Finished r /\
               least_by key r xs) /\
    (exists r, Max_direct (S (length xs)) less (Of_producer xs) = Finished r /\
               least_by (fun x => - key x) r xs) /\
    (exists sched s,
        @Par.runs_to T xs m k (fold_consumer (min_step less) None) sched s) /\
    (forall sched s,
        @Par.runs_to T xs m k (fold_consumer (min_step less) None) sched s ->
        least_by key (Min_parallel s) xs) /\
    (exists sched s,
        @Par.runs_to T xs m k (fold_consumer (max_step less) None) sched s) /\
    (forall sched s,
        @Par.runs_to T xs m k (fold_consumer (max_step less) None) sched s ->
        least_by (fun x => - key x) (Max_parallel s) xs).
Proof.
  intros T key less xs m k Hless Hm Hk.
  assert (Hflip : forall a b : T,
             (fun a b => less b a) a b = (- key a <? - key b)).
  { intros a b. cbn. rewrite Hless.
    destruct (key b <? key a) eqn:E; symmetry.
    - apply Z.ltb_lt in E. apply Z.ltb_lt. lia.
    - apply Z.ltb_ge in E. apply Z.ltb_ge. lia. }
  split; [|split; [|split; [|split; [|split]]]].
  - now apply Min_direct_least.
  - exact (@Min_direct_least T (fun x => - key x) (fun a b => less b a)
             Hflip xs).
  - now apply fold_run_exists.
  - intros sched s Hrun.
    exact (@Min_parallel_least T key less Hless xs m k sched s Hk Hrun).
  - now apply fold_run_exists.
  - intros sched s Hrun.
    exact (@Min_parallel_least T (fun x => - key x) (fun a b => less b a)
             Hflip xs m k sched s Hk Hrun).
Qed.

Lemma Min_Max_return_extremes_witness :
  (exists r, Min_direct 4 Z.ltb (Of_producer [5; 2; 8]) = Finished r /\
             least_by (fun x => x) r [5; 2; 8]) /\
  (exists r, Max_direct 4 Z.ltb (Of_producer [5; 2; 8]) = Finished r /\
             least_by (fun x => - x) r [5; 2; 8]) /\
  (exists sched s,
      @Par.runs_to Z [5; 2; 8] 2 2 (fold_consumer (min_step Z.ltb) None)
        sched s /\
      least_by (fun x => x) (Min_parallel s) [5; 2; 8]) /\
  (exists sched s,
      @Par.runs_to Z [5; 2; 8] 2 2 (fold_consumer (max_step Z.ltb) None)
        sched s /\
      least_by (fun x => - x) (Max_parallel s) [5; 2; 8]).
Proof.
  destruct (@Min_Max_return_extremes Z (fun x => x) Z.ltb [5; 2; 8] 2 2
              ltac:(reflexivity) ltac:(lia) ltac:(lia))
    as [H1 [H2 [[sc1 [s1 R1]] [H4 [[sc2 [s2 R2]] H6]]]]].
  split; [exact H1|]. split; [exact H2|]. split.
  - exists sc1, s1. split; [exact R1|exact (H4 sc1 s1 R1)].
  - exists sc2, s2. split; [exact R2|exact (H6 sc2 s2 R2)].
Defined.

(** *** ForEach *)

Section ForEachLog.
Variable T : Type.
Variable xs : list T.

Local Abbreviation fstate := (@Par.state T (forEach_consumer T)).

Lemma step_logged :
  forall (a : Par.actor) (s s' : fstate),
    Par.shared (Par.te s) = map (@data T) (Par.seen (Par.te s)) ->
    Par.step xs a s = Par.Next s' ->
    Par.shared (Par.te s') = map (@data T) (Par.seen (Par.te s')).
Proof.
  intros a s s' Hl Hstep.
  assert (Hstage : (forall j, a <> Par.Term j) ->
                   Par.shared (Par.te s') =
                   map (@data T) (Par.seen (Par.te s'))).
  { intros Ha.
    now rewrite (@ParFacts.stage_step_te T xs (forEach_consumer T)
                   a s s' Ha Hstep). }
  destruct a as [|j|j|j]; try (apply Hstage; intros ?; discriminate).
  clear Hstage. cbn [Par.step] in Hstep. unfold Par.step_term in Hstep.
  destruct (nth_error (Par.terms (Par.te s)) j) as [[|a|a|]|];
    try discriminate.
  - unfold Par.request in Hstep.
    destruct (Par.midReqClosed (Par.sg s)); [discriminate|].
    inversion Hstep; subst s'. exact Hl.
  - destruct (Par.midData (Par.sg s)) as [|od rest].
    + destruct (Par.sclosed (Par.sg s)); [|discriminate].
      inversion Hstep; subst s'. exact Hl.
    + cbn [c_op forEach_consumer] in Hstep. unfold Par.request in Hstep.
      destruct (Par.midReqClosed (Par.sg s)); [discriminate|].
      inversion Hstep; subst s'. cbn. now rewrite map_app, Hl.
  - inversion Hstep; subst s'. exact Hl.
Qed.

Lemma exec_logged :
  forall (sched : list Par.actor) (s s' : fstate),
    Par.shared (Par.te s) = map (@data T) (Par.seen (Par.te s)) ->
    Par.exec xs sched s = Par.Next s' ->
    Par.shared (Par.te s') = map (@data T) (Par.seen (Par.te s')).
Proof.
  intros sched. induction sched as [|a sched IH]; intros s s' Hl Hex;
    cbn [Par.exec] in Hex.
  - now inversion Hex; subst.
  - destruct (Par.step xs a s) as [s1| |msg] eqn:Hs; try discriminate.
    apply (IH s1 s'); [|exact Hex]. now apply (step_logged a s).
Qed.
End ForEachLog.

(** X23. [ForEach(action)] on [Of(xs...)] calls the action on the
    elements of [xs] in order; on [Of(xs...).Parallel()] a run to the
    end exists, and in every run, whatever the numbers of goroutines
    and the schedule, the action has been called exactly once on every
    element: the calls are an arrangement of [xs]. *)
Theorem ForEach_visits_every_element_once :
  forall (T : Type) (xs : list T) (m k : nat),
    (1 <= m)%nat -> (1 <= k)%nat ->
    ForEach_direct (S (length xs)) (Of_producer xs) = Finished xs /\
    (exists sched s,
        @Par.runs_to T xs m k (forEach_consumer T) sched s) /\
    forall sched s,
      @Par.runs_to T xs m k (forEach_consumer T) sched s ->
      Permutation xs (ForEach_parallel s).
Proof.
  intros T xs m k Hm Hk. split; [|split].
  - unfold ForEach_direct.
    destruct (@terminalOp_Of T _ (fun log t => log ++ [t]) xs [])
      as [p' H].
    rewrite H. cbn [run_map fst]. f_equal.
    rewrite (fold_left_snoc (fun t : T => t)). cbn. apply map_id.
  - apply ParFacts.full_run_exists; auto; intros; reflexivity.
  - intros sched s [Hex Hc]. unfold ForEach_parallel.
    rewrite (@exec_logged T xs sched
               (Par.init m k (forEach_consumer T)) s eq_refl Hex).
    destruct (@ParFacts.exec_draining T xs m k (forEach_consumer T)
                ltac:(reflexivity) sched _ s
                (ParFacts.init_sound xs m k _)
                (ParFacts.init_draining xs m k _) Hex) as [Hs Hd].
    rewrite <- (map_data_items_from xs 0) at 1.
    apply Permutation_map.
    now apply (@ParFacts.drained_all_seen T xs m k (forEach_consumer T) s).
Qed.

Lemma ForEach_visits_every_element_once_witness :
  ForEach_direct 4 (Of_producer [1; 2; 3]) = Finished [1; 2; 3] /\
  exists sched s,
    @Par.runs_to Z [1; 2; 3] 2 2 (forEach_consumer Z) sched s /\
    Permutation [1; 2; 3] (ForEach_parallel s).
Proof.
  destruct (@ForEach_visits_every_element_once Z [1; 2; 3] 2 2
              ltac:(lia) ltac:(lia)) as [Hseq [[sched [s Hrun]] Hall]].
  split; [exact Hseq|].
  exists sched, s. split; [exact Hrun|]. exact (Hall sched s Hrun).
Defined.

(** *** ReduceToOptional *)

Lemma reduce_step_fold :
  forall (T : Type) (accumulator : T -> T -> T) (l : list T) (a : T),
    fold_left (reduce_step accumulator) l (Some a) =
    Some (fold_left accumulator l a).
Proof.
  intros T accumulator l. induction l as [|x l IH]; intros a; cbn;
    [reflexivity|apply IH].
Qed.

(** X24. [ReduceToOptional] on a stream that is not parallel returns
    the empty Optional when the stream gives nothing, and otherwise the
    fold of the remaining items into the first one, in the order
    received: no identity is involved. *)
Theorem ReduceToOptional_folds_from_the_first :
  forall (T : Type) (accumulator : T -> T -> T) (p : producer T)
         (ods : list (orderedData T)),
    yields p ods ->
    ReduceToOptional_direct (S (length ods)) accumulator p =
    Finished match map (@data T) ods with
             | [] => None
             | x :: rest => Some (fold_left accumulator rest x)
             end.
Proof.
  intros T accumulator p ods Hy. unfold ReduceToOptional_direct.
  destruct (@terminalOp_yields T _ (reduce_step accumulator) ods None p Hy)
    as [p' H].
  rewrite H. cbn [run_map fst]. f_equal.
  destruct (map (@data T) ods) as [|x rest]; [reflexivity|].
  cbn [fold_left reduce_step]. now rewrite reduce_step_fold.
Qed.

Lemma ReduceToOptional_folds_from_the_first_witness :
  ReduceToOptional_direct 4 Z.sub (Of_producer [10; 2; 3]) =
  Finished (Some 5).
Proof.
  exact (@ReduceToOptional_folds_from_the_first Z Z.sub
           (Of_producer [10; 2; 3]) (items_from 0 [10; 2; 3])
           (Of_yields [10; 2; 3])).
Defined.

(** ** Optional *)

(** X25. [Optional.Filter] never removes a value: a present Optional is
    returned as it is without the predicate being called, and an empty
    one stays empty, the predicate being called on the value the empty
    Optional holds; so [Get] gives the same before and after. *)
Theorem Optional_Filter_keeps_a_present_value :
  forall (T : Type) (zero : T) (o : Optional.t T) (predicate : T -> bool),
    Optional.present (fst (Optional.Filter zero o predicate)) =
      Optional.present o /\
    Optional.Get (fst (Optional.Filter zero o predicate)) = Optional.Get o /\
    (Optional.present o = true ->
     Optional.Filter zero o predicate = (o, [])) /\
    (Optional.present o = false ->
     snd (Optional.Filter zero o predicate) = [Optional.value o]).
Proof.
  intros T zero [v [|]] predicate; unfold Optional.Filter, Optional.Get;
    cbn.
  - repeat split; intros; congruence.
  - destruct (predicate v); cbn; repeat split; intros; congruence.
Qed.

Lemma Optional_Filter_keeps_a_present_value_witness :
  Optional.Filter 0 (Optional.OptionalOf 5) (fun _ => false) =
  (Optional.OptionalOf 5, []).
Proof.
  exact (proj1 (proj2 (proj2
           (@Optional_Filter_keeps_a_present_value Z 0
              (Optional.OptionalOf 5) (fun _ => false)))) eq_refl).
Defined.

(** X26. [OptionalMap] has its test the wrong way round: on a present
    Optional it returns the empty one, so [Get] then panics, and on an
    empty Optional it returns a present one holding the mapper's image
    of the zero value; [OptionalFlatMap] does map a present value. *)
Theorem OptionalMap_empties_a_present_value :
  forall (T U : Type) (zeroT : T) (zeroU : U) (mapper : T -> U)
         (o : Optional.t T) (v : T),
    Optional.IsPresent (Optional.OptionalMap zeroU o mapper) =
      negb (Optional.IsPresent o) /\
    Optional.Get (Optional.OptionalMap zeroU (Optional.OptionalOf v) mapper)
      = Panic "value is not present" /\
    Optional.Get
      (Optional.OptionalMap zeroU (Optional.OptionalEmpty zeroT) mapper)
      = Ok (mapper zeroT) /\
    Optional.OptionalFlatMap zeroU (Optional.OptionalOf v)
      (fun x => Some (Optional.OptionalOf (mapper x)))
      = Ok (Optional.OptionalOf (mapper v)).
Proof.
  intros T U zeroT zeroU mapper [w [|]] v; repeat split.
Qed.

(** X27. The stream of an Optional gives back what the Optional holds:
    it yields the value as its only item, numbered 0, or nothing, and
    [FindFirst] on it returns the value, or the empty Optional. *)
Theorem Optional_Stream_round_trip :
  forall (T : Type) (o : Optional.t T),
    let p := single_puller (chans (Optional.ToStream o)) in
    yields p (if Optional.present o
              then [{| order := 0; data := Optional.value o |}]
              else []) /\
    FindFirst_direct 1 p =
    Finished (if Optional.present o then Some (Optional.value o) else None).
Proof.
  intros T [v [|]] p; unfold p, Optional.ToStream; cbn [Optional.present
    Optional.value chans single_puller Of Empty source_stream].
  - split; [apply (Of_yields [v])|reflexivity].
  - split; [|reflexivity].
    intros n. unfold emitted. cbn [Empty_producer pnext pcur].
    rewrite (@serve_fixed T _ (fun s : unit => (EndOfData, s)) EndOfData)
      by reflexivity.
    cbn. now rewrite firstn_repeat_le.
Qed.

(** ** Builder *)

Lemma Add_all_appends :
  forall (T : Type) (xs : list T) (l : list T),
    Add_all {| b_built := false; b_data := l |} xs =
    (Ok tt, {| b_built := false; b_data := l ++ xs |}).
Proof.
  intros T xs. induction xs as [|x xs IH]; intros l; cbn.
  - now rewrite app_nil_r.
  - rewrite IH. now rewrite <- app_assoc.
Qed.

(** X28. A [Builder]: adding the elements of [xs] to a fresh builder
    never panics; [Build] then returns a stream that yields [xs]
    numbered from 0 (the empty stream when nothing was added) and puts
    the builder in the built state, in which every further [Add] and
    [Build] panics and leaves the builder as it is. *)
Theorem Builder_builds_once :
  forall (T : Type) (xs : list T),
    exists b st b',
      Add_all (Builder_zero T) xs = (Ok tt, b) /\
      Build b = (Ok st, b') /\
      yields (single_puller (chans st)) (items_from 0 xs) /\
      parallelCount st = 1 /\
      (forall x, Add b' x = (Panic "Already built state", b')) /\
      Build b' = (Panic "Already build state", b').
Proof.
  intros T xs.
  exists {| b_built := false; b_data := xs |}.
  destruct xs as [|x xs].
  - exists (Empty T), {| b_built := true; b_data := [] |}.
    repeat split.
    intros n. unfold emitted. cbn.
    rewrite (@serve_fixed T _ (fun s : unit => (EndOfData, s)) EndOfData)
      by reflexivity.
    cbn. now rewrite firstn_repeat_le.
  - exists (Of (x :: xs)), {| b_built := true; b_data := x :: xs |}.
    split; [apply (Add_all_appends (x :: xs) [])|].
    repeat split. apply Of_yields.
Qed.

(** ** The match family on a stream that is not parallel *)

Lemma terminalOpMatch_S :
  forall (T A : Type) (fuel : nat) (matchf : A -> T -> A * bool) (a : A)
         (p : producer T),
    terminalOpMatch (S fuel) matchf a p =
    match pull p with
    | (Item od, p') =>
        let '(a', continue) := matchf a (data od) in
        if continue then terminalOpMatch fuel matchf a' p'
        else Finished (a', p')
    | (EndOfData, p') => Finished (a, p')
    | (Panicked msg, _) => Crashed msg
    | (NoAnswer, _) => Blocked
    end.
Proof. reflexivity. Qed.

Lemma anyMatch_run :
  forall (T : Type) (predicate : T -> bool) (ods : list (orderedData T))
         (p : producer T) (m : Z) (log : list T),
    yields p ods -> (m =? 1) = false ->
    exists p',
      terminalOpMatch (S (length ods)) (anyMatch_closure predicate)
        {| matched := m; calls := log |} p =
      Finished ({| matched := if existsb predicate (map (@data T) ods)
                              then 1 else m;
                   calls := log ++ until_first predicate
                                     (map (@data T) ods) |}, p').
Proof.
  intros T predicate ods. induction ods as [|od ods IH];
    intros p m log Hy Hm.
  - destruct (yields_pull_nil Hy) as [p' [Hp _]]. exists p'.
    cbn. rewrite Hp. now rewrite app_nil_r.
  - destruct (yields_pull_cons Hy) as [p' [Hp Hy']].
    cbn [length]. rewrite terminalOpMatch_S, Hp.
    unfold anyMatch_closure at 1. cbn [matched calls]. rewrite Hm.
    cbn [map existsb until_first data].
    destruct (predicate (data od)) eqn:Hpred; cbn [negb orb].
    + exists p'. reflexivity.
    + destruct (IH p' m (log ++ [data od]) Hy' Hm) as [p2 H2].
      exists p2. rewrite H2. now rewrite <- app_assoc.
Qed.

Lemma allMatch_run :
  forall (T : Type) (predicate : T -> bool) (ods : list (orderedData T))
         (p : producer T) (m : Z) (log : list T),
    yields p ods -> (m =? 0) = false ->
    exists p',
      terminalOpMatch (S (length ods)) (allMatch_closure predicate)
        {| matched := m; calls := log |} p =
      Finished ({| matched := if forallb predicate (map (@data T) ods)
                              then m else 0;
                   calls := log ++ until_first
                                     (fun x => negb (predicate x))
                                     (map (@data T) ods) |}, p').
Proof.
  intros T predicate ods. induction ods as [|od ods IH];
    intros p m log Hy Hm.
  - destruct (yields_pull_nil Hy) as [p' [Hp _]]. exists p'.
    cbn. rewrite Hp. now rewrite app_nil_r.
  - destruct (yields_pull_cons Hy) as [p' [Hp Hy']].
    cbn [length]. rewrite terminalOpMatch_S, Hp.
    unfold allMatch_closure at 1. cbn [matched calls]. rewrite Hm.
    cbn [map forallb until_first data].
    destruct (predicate (data od)) eqn:Hpred; cbn [negb andb].
    + destruct (IH p' m (log ++ [data od]) Hy' Hm) as [p2 H2].
      exists p2. rewrite H2. now rewrite <- app_assoc.
    + exists p'. reflexivity.
Qed.

(** X29. On a stream that is not parallel, [AnyMatch], [AllMatch] and
    [NoneMatch] return what the predicate says of the items -- some
    item matches, every item matches, no item matches -- and stop at
    the first item that settles the answer: the predicate is called on
    the items up to and including that one, in order, and on no
    other. *)
Theorem match_family_short_circuits :
  forall (T : Type) (predicate : T -> bool) (p : producer T)
         (ods : list (orderedData T)),
    yields p ods ->
    let xs := map (@data T) ods in
    AnyMatch_direct (S (length ods)) predicate p =
      Finished (existsb predicate xs, until_first predicate xs) /\
    AllMatch_direct (S (length ods)) predicate p =
      Finished (forallb predicate xs,
                until_first (fun x => negb (predicate x)) xs) /\
    NoneMatch_direct (S (length ods)) predicate p =
      Finished (negb (existsb predicate xs), until_first predicate xs).
Proof.
  intros T predicate p ods Hy xs.
  destruct (@anyMatch_run T predicate ods p 0 [] Hy eq_refl) as [p1 H1].
  destruct (@allMatch_run T predicate ods p 1 [] Hy eq_refl) as [p2 H2].
  unfold AnyMatch_direct, AllMatch_direct, NoneMatch_direct,
    noneMatch_closure.
  rewrite H1, H2. cbn [run_map fst matched calls app]. fold xs.
  repeat split; f_equal; f_equal;
    first [now destruct (existsb predicate xs)
          |now destruct (forallb predicate xs)].
Qed.

Lemma match_family_short_circuits_witness :
  AnyMatch_direct 5 Z.even (Of_producer [1; 3; 4; 5]) =
    Finished (true, [1; 3; 4]) /\
  AllMatch_direct 5 Z.even (Of_producer [1; 3; 4; 5]) =
    Finished (false, [1]) /\
  NoneMatch_direct 5 Z.even (Of_producer [1; 3; 4; 5]) =
    Finished (false, [1; 3; 4]).
Proof.
  exact (@match_family_short_circuits Z Z.even (Of_producer [1; 3; 4; 5])
           (items_from 0 [1; 3; 4; 5]) (Of_yields [1; 3; 4; 5])).
Defined.

(** ** SummaryStatistics *)

Lemma alg_Min_min : forall a b, alg_Min a b = Z.min a b.
Proof.
  intros a b. unfold alg_Min. destruct (a <? b) eqn:E.
  - apply Z.ltb_lt in E. lia.
  - apply Z.ltb_ge in E. lia.
Qed.

Lemma alg_Max_max : forall a b, alg_Max a b = Z.max a b.
Proof.
  intros a b. unfold alg_Max. destruct (a <? b) eqn:E.
  - apply Z.ltb_lt in E. lia.
  - apply Z.ltb_ge in E. lia.
Qed.

Lemma wrapInt_range : forall z, is_int64 (wrapInt z).
Proof.
  intros z. unfold is_int64, wrapInt.
  pose proof (Z.mod_pos_bound (z + 2 ^ 63) (2 ^ 64) ltac:(lia)). lia.
Qed.

Lemma wrapInt_int64 : forall z, is_int64 z -> wrapInt z = z.
Proof.
  intros z H. apply wrapInt_small. unfold is_int64, maxInt in *. lia.
Qed.

(** Every field is an [int64]. *)
Lemma stats_eq :
  forall c s mn mx c' s' mn' mx',
    c = c' -> s = s' -> mn = mn' -> mx = mx' ->
    mkStats c s mn mx = mkStats c' s' mn' mx'.
Proof. intros; subst; reflexivity. Qed.

Lemma accept_after :
  forall (i t : SummaryStatistics) (v : Z),
    is_int64 v ->
    combine (accept i v) t =
    combine i (combine (accept NewSummaryStatistics v) t).
Proof.
  intros i t v Hv. unfold combine, accept. cbn [ss_count ss_sum ss_min ss_max
    NewSummaryStatistics].
  apply stats_eq.
  - rewrite wrapInt_add_l, wrapInt_add_l, wrapInt_add_r. f_equal. lia.
  - rewrite wrapInt_add_l, wrapInt_add_l, wrapInt_add_r. f_equal. lia.
  - rewrite !alg_Min_min. unfold is_int64 in Hv. lia.
  - rewrite !alg_Max_max. unfold is_int64 in Hv. lia.
Qed.

Lemma fold_accept_combine :
  forall (l : list Z) (i : SummaryStatistics),
    is_int64 (ss_count i) -> is_int64 (ss_sum i) ->
    is_int64 (ss_min i) -> is_int64 (ss_max i) ->
    Forall is_int64 l ->
    fold_left accept l i = combine i (summarize l).
Proof.
  intros l. induction l as [|x l IH]; intros [c s mn mx] Hc Hs Hmn Hmx Hl;
    cbn [ss_count ss_sum ss_min ss_max] in *.
  - unfold summarize, combine. cbn [fold_left ss_count ss_sum ss_min ss_max
      NewSummaryStatistics].
    apply stats_eq.
    + rewrite Z.add_0_r. now rewrite wrapInt_int64.
    + rewrite Z.add_0_r. now rewrite wrapInt_int64.
    + rewrite alg_Min_min. unfold is_int64 in Hmn. lia.
    + rewrite alg_Max_max. unfold is_int64 in Hmx. lia.
  - inversion Hl as [|? ? Hx Hl']; subst. cbn [fold_left].
    assert (Hin : forall j, is_int64 (ss_min j) -> is_int64 (ss_max j) ->
                            is_int64 (ss_min (accept j x)) /\
                            is_int64 (ss_max (accept j x))).
    { intros j H1 H2. cbn. rewrite alg_Min_min, alg_Max_max.
      unfold is_int64 in *. lia. }
    rewrite IH; try apply wrapInt_range; try apply Hin; auto.
    unfold summarize at 2. cbn [fold_left].
    rewrite (IH (accept NewSummaryStatistics x));
      try apply wrapInt_range; auto;
      try (apply Hin; unfold is_int64; cbn; lia).
    now apply accept_after.
Qed.

Lemma fold_accept_bounds :
  forall (l : list Z) (i : SummaryStatistics),
    is_int64 (ss_count i) -> is_int64 (ss_sum i) ->
    let r := fold_left accept l i in
    ss_min r <= ss_min i /\ ss_max i <= ss_max r /\
    Forall (fun x => ss_min r <= x <= ss_max r) l /\
    ss_count r = wrapInt (ss_count i + Z.of_nat (length l)) /\
    ss_sum r = wrapInt (ss_sum i + sumZ l).
Proof.
  intros l. induction l as [|x l IH]; intros i Hc Hs; cbn [fold_left length].
  - cbn zeta. repeat split; try lia; try constructor.
    + cbn. rewrite Z.add_0_r. now rewrite wrapInt_int64.
    + cbn. rewrite Z.add_0_r. now rewrite wrapInt_int64.
  - destruct (IH (accept i x) (wrapInt_range _) (wrapInt_range _))
      as [H1 [H2 [H3 [H4 H5]]]].
    cbn [accept ss_min ss_max ss_count ss_sum] in H1, H2, H4, H5.
    rewrite alg_Min_min in H1. rewrite alg_Max_max in H2.
    cbn zeta. repeat split; try lia.
    + constructor; [lia|exact H3].
    + rewrite H4, wrapInt_add_l. f_equal. lia.
    + rewrite H5, wrapInt_add_l.
      change (sumZ (x :: l)) with (x + sumZ l). f_equal. lia.
Qed.

Lemma fold_accept_int64 :
  forall (l : list Z) (i : SummaryStatistics),
    is_int64 (ss_min i) -> is_int64 (ss_max i) -> Forall is_int64 l ->
    is_int64 (ss_min (fold_left accept l i)) /\
    is_int64 (ss_max (fold_left accept l i)).
Proof.
  intros l. induction l as [|x l IH]; intros i Hmn Hmx Hl; cbn [fold_left].
  - now split.
  - inversion Hl as [|? ? Hx Hl']; subst. apply IH; [| |exact Hl'].
    + cbn. rewrite alg_Min_min. unfold is_int64 in *. lia.
    + cbn. rewrite alg_Max_max. unfold is_int64 in *. lia.
Qed.

(** X30. [SummaryStatistics]: accepting the values of a list gives the
    count and the sum of the list (as [int64]) and a minimum and a
    maximum that bound every value; and [combine] merges two summaries
    into the summary of the two lists one after the other, which is
    what lets partial summaries be combined. *)
Theorem SummaryStatistics_combine_is_concatenation :
  forall l1 l2 : list Z,
    Forall is_int64 l1 -> Forall is_int64 l2 ->
    combine (summarize l1) (summarize l2) = summarize (l1 ++ l2) /\
    ss_count (summarize l1) = wrapInt (Z.of_nat (length l1)) /\
    ss_sum (summarize l1) = wrapInt (sumZ l1) /\
    Forall (fun x => ss_min (summarize l1) <= x <= ss_max (summarize l1)) l1.
Proof.
  intros l1 l2 H1 H2.
  assert (H0 : is_int64 0) by (unfold is_int64; lia).
  destruct (@fold_accept_bounds l1 NewSummaryStatistics H0 H0)
    as [Hmn [Hmx [Hall [Hc Hs]]]].
  fold (summarize l1) in Hmn, Hmx, Hall, Hc, Hs.
  cbn [NewSummaryStatistics ss_min ss_max ss_count ss_sum Z.add]
    in Hmn, Hmx, Hc, Hs.
  repeat split; try assumption.
  unfold summarize at 3. rewrite fold_left_app. fold (summarize l1).
  symmetry. apply fold_accept_combine; try assumption.
  - rewrite Hc. apply wrapInt_range.
  - rewrite Hs. apply wrapInt_range.
  - apply fold_accept_int64; [unfold is_int64; cbn; lia..|exact H1].
  - apply fold_accept_int64; [unfold is_int64; cbn; lia..|exact H1].
Qed.

Lemma SummaryStatistics_combine_is_concatenation_witness :
  combine (summarize [3; -1]) (summarize [7]) = summarize [3; -1; 7] /\
  ss_count (summarize [3; -1]) = 2 /\
  ss_sum (summarize [3; -1]) = 2.
Proof.
  assert (Ha : Forall is_int64 [3; -1])
    by (repeat constructor; unfold is_int64; lia).
  assert (Hb : Forall is_int64 [7])
    by (repeat constructor; unfold is_int64; lia).
  destruct (@SummaryStatistics_combine_is_concatenation [3; -1] [7] Ha Hb)
    as [H1 [H2 [H3 _]]].
  split; [exact H1|split; [exact H2|exact H3]].
Defined.

(** ** Where the code departs from what it documents *)

Lemma drain_next_running :
  forall (T : Type) (m : Z) (up : producer T) (n : nat) (u : pstate up),
    1 <= m ->
    drain_next m {| locals := StRunning; sent := n; upstream := u |} =
    match pnext up u with
    | (Item od, u') =>
        (Item od, {| locals := StRunning; sent := S n; upstream := u' |})
    | (EndOfData, u') =>
        if (m =? 1) || pdone up u'
        then (EndOfData,
              {| locals := StClosed; sent := S n; upstream := u' |})
        else (NoAnswer,
              {| locals := StStalled; sent := S n; upstream := u' |})
    | (Panicked msg, u') =>
        (Panicked msg,
         {| locals := StPanicked msg; sent := S n; upstream := u' |})
    | (NoAnswer, u') =>
        (NoAnswer, {| locals := StStalled; sent := S n; upstream := u' |})
    end.
Proof.
  intros T m up n u Hm. unfold drain_next, getPrevData.
  cbn [locals sent upstream].
  assert ((m <? 1) = false) as -> by (apply Z.ltb_ge; lia).
  destruct (pnext up u) as [[od| |msg|] u']; reflexivity.
Qed.

Lemma nth_error_upd_same :
  forall (A : Type) (l : list A) (j : nat) (x : A),
    (j < length l)%nat -> nth_error (upd j x l) j = Some x.
Proof.
  intros A l. induction l as [|y l IH]; intros [|j] x Hj; cbn in *;
    try lia; [reflexivity|].
  apply IH. lia.
Qed.

Lemma nth_error_upd_other :
  forall (A : Type) (l : list A) (j j' : nat) (x : A),
    j <> j' -> nth_error (upd j x l) j' = nth_error l j'.
Proof.
  intros A l. induction l as [|y l IH]; intros [|j] [|j'] x Hne; cbn;
    try reflexivity; try congruence.
  apply IH. congruence.
Qed.

Lemma upd_upd :
  forall (A : Type) (l : list A) (j : nat) (x y : A),
    upd j y (upd j x l) = upd j y l.
Proof.
  intros A l. induction l as [|z l IH]; intros [|j] x y; cbn;
    try reflexivity.
  now rewrite IH.
Qed.

Lemma nth_error_repeat_inv :
  forall (A : Type) (x y : A) (n j : nat),
    nth_error (repeat x n) j = Some y -> y = x /\ (j < n)%nat.
Proof.
  intros A x y n. induction n as [|n IH]; intros [|j] H; cbn in H;
    try discriminate.
  - inversion H. split; [reflexivity|lia].
  - destruct (IH j H) as [-> Hj]. split; [reflexivity|lia].
Qed.

Lemma lone_worker :
  forall (A : Type) (idle w w' : A) (n j j' : nat),
    (j < n)%nat ->
    nth_error (upd j w (repeat idle n)) j' = Some w' ->
    (j' = j /\ w' = w) \/ (j' <> j /\ w' = idle /\ (j' < n)%nat).
Proof.
  intros A idle w w' n j j' Hj H.
  destruct (Nat.eq_dec j j') as [<-|Hne].
  - rewrite nth_error_upd_same in H by now rewrite repeat_length.
    inversion H. now left.
  - rewrite nth_error_upd_other in H by exact Hne.
    apply nth_error_repeat_inv in H. right. intuition congruence.
Qed.

Section LoneRequestFacts.
Variable T : Type.
Variable m : nat.
Hypothesis two_goroutines : (2 <= m)%nat.

Lemma lone_request_step :
  forall (a : Par.actor) (s s' : Par.state (findFirst_consumer T)),
    lone_request m s ->
    (forall j, a <> Par.Quit j) ->
    Par.step [] a s = Par.Next s' ->
    lone_request m s'.
Proof.
  intros a s s' Hinv Ha Hstep.
  destruct a as [|j'|j'|j']; [| | now elim (Ha j') |];
    cbn [Par.step] in Hstep.
  - (* the source *)
    destruct Hinv; cbn in Hstep; try discriminate.
    inversion Hstep; subst s'. now apply lone_answered.
  - (* a goroutine of the stage *)
    unfold Par.step_worker in Hstep.
    destruct Hinv as [| |j Hj|j Hj|j Hj];
      cbn [lone_state Par.sg Par.so Par.workers Par.midReq
           Par.midReqClosed Par.srcReqClosed Par.srcData Par.src
           of_done Par.sclosed] in Hstep.
    + destruct (nth_error (repeat (Par.WIdle T) m) j') as [w|] eqn:Hw;
        [|discriminate].
      apply nth_error_repeat_inv in Hw. destruct Hw as [-> _].
      discriminate.
    + destruct (nth_error (repeat (Par.WIdle T) m) j') as [w|] eqn:Hw;
        [|discriminate].
      apply nth_error_repeat_inv in Hw. destruct Hw as [-> Hj'].
      inversion Hstep; subst s'. now apply lone_asked.
    + destruct (nth_error _ j') as [w|] eqn:Hw; [|discriminate].
      destruct (@lone_worker _ _ _ _ _ _ _ Hj Hw) as [[-> ->]|[_ [-> _]]];
        discriminate.
    + destruct (nth_error _ j') as [w|] eqn:Hw; [|discriminate].
      destruct (@lone_worker _ _ _ _ _ _ _ Hj Hw) as [[-> ->]|[_ [-> _]]];
        [|discriminate].
      inversion Hstep; subst s'. unfold Par.close.
      cbn [lone_state Par.sg Par.so Par.te Par.workers Par.pcount
           Par.sclosed Par.midReq Par.midReqClosed Par.midData].
      assert ((Z.of_nat m - 1 >? 0) = true) as -> by (apply Z.gtb_lt; lia).
      rewrite upd_upd. now apply lone_left.
    + destruct (nth_error _ j') as [w|] eqn:Hw; [|discriminate].
      destruct (@lone_worker _ _ _ _ _ _ _ Hj Hw) as [[-> ->]|[_ [-> _]]];
        discriminate.
  - (* the goroutine of FindFirst *)
    unfold Par.step_term in Hstep.
    destruct Hinv; cbn [lone_state Par.te Par.sg Par.terms Par.midData
                        Par.sclosed] in Hstep;
      destruct j' as [|[|j']]; cbn in Hstep; try discriminate.
    inversion Hstep; subst s'. apply lone_sent.
Qed.

Lemma lone_request_exec :
  forall (sched : list Par.actor) (s s' : Par.state (findFirst_consumer T)),
    lone_request m s -> without_prevDone sched = true ->
    Par.exec [] sched s = Par.Next s' ->
    lone_request m s'.
Proof.
  induction sched as [|a sched IH]; intros s s' Hinv Hq Hex;
    cbn [Par.exec] in Hex.
  - inversion Hex; subst. exact Hinv.
  - cbn [without_prevDone forallb] in Hq. apply andb_prop in Hq.
    destruct Hq as [Ha Hq].
    destruct (Par.step [] a s) as [s1| |msg] eqn:Hstep; try discriminate.
    apply (IH s1 s'); [|exact Hq|exact Hex].
    apply (@lone_request_step a s s1 Hinv); [|exact Hstep].
    intros j ->. discriminate.
Qed.

Lemma lone_request_waits :
  forall s : Par.state (findFirst_consumer T),
    lone_request m s -> Par.complete s = false.
Proof. intros s Hinv. destruct Hinv; reflexivity. Qed.

Lemma lone_request_reaches_deadlock :
  exists s,
    Par.exec [] [Par.Term 0; Par.Worker 0; Par.Src; Par.Worker 0]
      (Par.init m 1 (findFirst_consumer T)) = Par.Next s /\
    forall (a : Par.actor) (s' : Par.state (findFirst_consumer T)),
      Par.step [] a s = Par.Next s' -> exists j, a = Par.Quit j.
Proof.
  destruct m as [|m']; [lia|].
  eexists. split.
  { cbn -[Z.of_nat Z.sub Z.gtb].
    assert ((Z.of_nat (S m') - 1 >? 0) = true) as ->
      by (apply Z.gtb_lt; lia).
    reflexivity. }
  intros a s' Hstep. destruct a as [|j|j|j]; [| |now exists j|];
    exfalso.
  - cbn in Hstep. discriminate.
  - unfold Par.step, Par.step_worker in Hstep.
    destruct j as [|j]; [cbn in Hstep; discriminate|].
    cbn in Hstep.
    destruct (nth_error (repeat (Par.WIdle T) m') j) as [w|] eqn:Hw;
      [|discriminate].
    apply nth_error_repeat_inv in Hw. destruct Hw as [-> _].
    discriminate.
  - destruct j as [|[|j]]; cbn in Hstep; discriminate.
Qed.
End LoneRequestFacts.

(** C4.  [FindFirst] sends one request from the calling goroutine.  On
    [Of(xs...).Parallel()] it returns the first element, and the empty
    Optional when [xs] is empty, and on [Empty()] it returns the empty
    Optional; on [Empty().Parallel()] with two goroutines or more it
    does not return: the goroutine that took the request leaves, the
    others wait for a request, and [nextData] is never closed.  In the
    goroutine model no schedule brings the call to its end, and one of
    four steps leaves every goroutine waiting. *)
Theorem FindFirst_of_parallel_Empty_never_returns :
  forall (T : Type) (m fuel : nat),
    (2 <= m)%nat ->
    (forall xs : list T,
        exists st, Parallel (Z.of_nat m) (Of xs) = Ok st /\
                   FindFirst (S fuel) st = Finished (hd_error xs)) /\
    FindFirst (S fuel) (Empty T) = Finished None /\
    (exists st, Parallel (Z.of_nat m) (Empty T) = Ok st /\
                parallelCount st = Z.of_nat m /\
                FindFirst (S fuel) st = Blocked) /\
    (forall sched s,
        without_prevDone sched = true ->
        Par.exec [] sched (Par.init m 1 (findFirst_consumer T)) =
        Par.Next s ->
        Par.complete s = false) /\
    (exists s,
        Par.exec [] [Par.Term 0; Par.Worker 0; Par.Src; Par.Worker 0]
          (Par.init m 1 (findFirst_consumer T)) = Par.Next s /\
        forall (a : Par.actor) s',
          Par.step [] a s = Par.Next s' -> exists j, a = Par.Quit j).
Proof.
  intros T m fuel Hm.
  assert (Hne : (Z.of_nat m =? 1) = false) by (apply Z.eqb_neq; lia).
  split; [|split; [|split; [|split]]].
  - intros xs. eexists. split; [reflexivity|].
    unfold FindFirst, FindFirst_direct.
    cbn [validateState closed newGenericStream chans single_puller
         source_stream Of].
    rewrite terminalOpMatch_S. unfold pull.
    cbn [pnext pcur drain_producer pstate].
    rewrite drain_next_running by lia.
    cbn [pnext pcur Of_producer]. unfold Of_next. cbn [of_done of_i].
    destruct xs as [|x xs]; cbn [length Nat.eqb nth_error].
    + cbn [pdone Of_producer of_done]. rewrite orb_true_r. reflexivity.
    + reflexivity.
  - reflexivity.
  - eexists. split; [reflexivity|]. split; [reflexivity|].
    unfold FindFirst, FindFirst_direct.
    cbn [validateState closed newGenericStream chans single_puller
         source_stream Empty].
    rewrite terminalOpMatch_S. unfold pull.
    cbn [pnext pcur drain_producer pstate].
    rewrite drain_next_running by lia.
    cbn [pnext pcur Empty_producer pdone]. rewrite Hne. reflexivity.
  - intros sched s Hq Hex.
    apply (@lone_request_waits T m).
    apply (@lone_request_exec T m Hm sched
             (Par.init m 1 (findFirst_consumer T)) s);
      [apply lone_start|exact Hq|exact Hex].
  - exact (@lone_request_reaches_deadlock T m Hm).
Qed.

Lemma FindFirst_of_parallel_Empty_never_returns_witness :
  (exists st, Parallel 2 (Of [7; 8]) = Ok st /\
              FindFirst 1 st = Finished (Some 7)) /\
  (exists st, Parallel 2 (Of (@nil Z)) = Ok st /\
              FindFirst 1 st = Finished None) /\
  FindFirst 1 (Empty Z) = Finished None /\
  (exists st, Parallel 2 (Empty Z) = Ok st /\
              parallelCount st = 2 /\
              FindFirst 1 st = Blocked) /\
  exists s,
    Par.exec [] [Par.Term 0; Par.Worker 0; Par.Src; Par.Worker 0]
      (Par.init 2 1 (findFirst_consumer Z)) = Par.Next s /\
    Par.complete s = false.
Proof.
  destruct (@FindFirst_of_parallel_Empty_never_returns Z 2 0 ltac:(lia))
    as [H1 [H2 [H3 [H4 [s [H5 _]]]]]].
  split; [exact (H1 [7; 8])|]. split; [exact (H1 [])|].
  split; [exact H2|]. split; [exact H3|].
  exists s. split; [exact H5|].
  exact (H4 [Par.Term 0; Par.Worker 0; Par.Src; Par.Worker 0] s
           eq_refl H5).
Defined.

(** C5.  [Limit(0)] on any stream that takes it: the goroutine [limit]
    calls [close] as it starts, which marks the stream that [Limit]
    returned as closed.  [ToSlice] called before that returns the empty
    slice; called after it, [ToSlice] panics in [validateState], and so
    does every other method. *)
Theorem Limit_zero_closes_the_returned_stream :
  forall (T : Type) (gs : Stream T)
         (sorter : list (orderedData T) -> list (orderedData T))
         (fuel : nat),
    closed gs = false -> ordered gs = false ->
    sorts (@order_less T) sorter ->
    exists st st',
      Limit gs 0 = Ok st /\
      chans st = Direct (limit_producer (single_puller (chans gs)) 0) /\
      closed st = false /\ parallelCount st = 1 /\
      ToSlice_sequential sorter (S fuel) st = Finished [] /\
      limit_started 0 st = Ok st' /\
      closed st' = true /\ parallelCount st' = 0 /\
      ToSlice_sequential sorter (S fuel) st' =
      Crashed "stream has already been closed" /\
      FindFirst (S fuel) st' = Crashed "stream has already been closed" /\
      (forall n, Skip st' n = Panic "stream has already been closed").
Proof.
  intros T gs sorter fuel Hc Ho Hsort.
  assert (Hnil : sorter [] = []).
  { destruct (Hsort []) as [Hp _]. now apply Permutation_nil in Hp. }
  do 2 eexists.
  split. { unfold Limit, validateState. rewrite Hc, Ho. reflexivity. }
  split; [reflexivity|]. split; [reflexivity|]. split; [reflexivity|].
  split. { unfold ToSlice_sequential, ToSlice_direct. cbn. now rewrite Hnil. }
  split; [reflexivity|].
  split; [reflexivity|]. split; [reflexivity|].
  split; [reflexivity|]. split; [reflexivity|].
  intros n. reflexivity.
Qed.

Lemma Limit_zero_closes_the_returned_stream_witness :
  exists st st',
    Limit (Of [1; 2; 3]) 0 = Ok st /\
    ToSlice_sequential (stable_sort (@order_less Z)) 1 st = Finished [] /\
    limit_started 0 st = Ok st' /\
    closed st' = true /\
    ToSlice_sequential (stable_sort (@order_less Z)) 1 st' =
    Crashed "stream has already been closed".
Proof.
  destruct (@Limit_zero_closes_the_returned_stream Z (Of [1; 2; 3])
              (stable_sort (@order_less Z)) 0 eq_refl eq_refl
              (stable_sort_sorts (@order Z) (@order_less Z)
                 (fun a b => eq_refl)))
    as [st [st' [H1 [_ [_ [_ [H2 [H3 [H4 [_ [H5 _]]]]]]]]]]].
  exists st, st'. repeat split; assumption.
Defined.

(** C1.  [FileLines] numbers every line 0, so on its stream [ToSlice]
    has nothing to sort by.  Over the lines "one" and "two", a sort
    that meets the contract of [sort.Slice] returns them reversed; and
    on the parallel stream with two goroutines there is a run in which
    the slice holding "two" arrives first, after which even a stable
    sort leaves "two" first. *)
Theorem ToSlice_of_FileLines_loses_the_order :
  (yields (single_puller (chans (FileLines ["one"; "two"])))
     [{| order := 0; data := "one" |}; {| order := 0; data := "two" |}] /\
   sorts (@order_less string) (reversing_sort (@order_less string)) /\
   ToSlice_sequential (reversing_sort (@order_less string)) 3
     (FileLines ["one"; "two"]) = Finished ["two"; "one"] /\
   sorts (@order_less string) (stable_sort (@order_less string)) /\
   exists sched s,
     @Par.runs_to string ["one"; "two"] 2 2 fileLines_toSlice_consumer
       sched s /\
     Par.results (Par.te s) =
     [[{| order := 0; data := "two" |}]; [{| order := 0; data := "one" |}]] /\
     ToSlice_combine (stable_sort (@order_less string))
       (Par.results (Par.te s)) = ["two"; "one"])%string.
Proof.
  split; [|split; [|split; [|split]]].
  - apply (FileLines_yields ["one"; "two"]%string).
  - apply reversing_sort_sorts with (key := @order string). reflexivity.
  - vm_compute. reflexivity.
  - apply stable_sort_sorts with (key := @order string). reflexivity.
  - exists [Par.Term 0; Par.Term 1;
            Par.Worker 0; Par.Src; Par.Worker 0; Par.Worker 0; Par.Term 1;
            Par.Worker 0; Par.Src; Par.Worker 0; Par.Worker 0; Par.Term 0;
            Par.Worker 0; Par.Src; Par.Worker 0; Par.Quit 1;
            Par.Term 0; Par.Term 1; Par.Term 0; Par.Term 1].
    eexists. split; [split|split].
    + vm_compute. reflexivity.
    + reflexivity.
    + reflexivity.
    + vm_compute. reflexivity.
Qed.
